(** * Server Commands extension: a shallow embedding

    The development follows [server-commands.js]: the response transform
    ([transformResponse]), the per-marker pipeline
    ([processCommandFromElement]), the attribute grammar
    ([validateCommandElement]), the trigger dispatcher
    ([handleTriggerAttribute]), the location flow
    ([handleLocationAttribute]) and the promise protocol of [swapAsync].

    The browser and htmx itself are not part of the extension.  They are
    represented by a record [Host] of oracles (what a selector lookup
    returns, what listeners answer, whether a DOM swap throws, ...), each
    a function of the effects performed so far, so that a result proved
    for every [Host] holds for every behaviour of the page. *)

From Stdlib Require Import String Ascii List Bool Arith ZArith Lia Permutation.
From Stdlib Require Import DecimalString.
Import ListNotations.
Open Scope string_scope.
Open Scope list_scope.
Set Warnings "-register-all".

(** ** Strings as JavaScript uses them here *)

Module Str.

(** [s.indexOf(p) === 0] *)
Definition startsWith (p s : string) : bool := String.prefix p s.

(** The white space [trim] removes, among the code units a character
    of this development can hold (those below 256): tab, line feed,
    vertical tab, form feed, carriage return, space and the no-break
    space U+00A0. *)
Definition is_space (c : ascii) : bool :=
  let n := nat_of_ascii c in
  Nat.eqb n 32 || (Nat.leb 9 n && Nat.leb n 13) || Nat.eqb n 160.

Fixpoint trimStart (s : string) : string :=
  match s with
  | EmptyString => EmptyString
  | String c r => if is_space c then trimStart r else s
  end.

(** Drops the trailing white space: a character is kept when it is not
    a space or when something is kept after it. *)
Fixpoint trimEnd (s : string) : string :=
  match s with
  | EmptyString => EmptyString
  | String c r =>
      match trimEnd r with
      | EmptyString => if is_space c then EmptyString else String c EmptyString
      | r' => String c r'
      end
  end.

(** [s.trim()] *)
Definition trim (s : string) : string := trimEnd (trimStart s).

(** [s.split(',')]: the pieces between the commas; never empty, the
    empty string gives one empty piece. *)
Fixpoint split_aux (sep : ascii) (cur : string) (s : string) : list string :=
  match s with
  | EmptyString => [cur]
  | String c r =>
      if Ascii.eqb c sep then cur :: split_aux sep EmptyString r
      else split_aux sep (cur ++ String c EmptyString)%string r
  end.

Definition split (sep : ascii) (s : string) : list string :=
  split_aux sep EmptyString s.

Definition comma : ascii := ascii_of_nat 44.

Definition isEmpty (s : string) : bool :=
  match s with EmptyString => true | _ => false end.

End Str.

(** ** The parsed response: a detached node tree *)

Inductive node : Type :=
| Text (data : string)
| Element (tagName : string) (attributes : list (string * string))
          (childNodes : list node).

(** A parsed fragment is the list of the children of its root. *)
Definition fragment := list node.

(** An element of the fragment is named by the child positions that lead
    to it from the fragment root: two markers with the same markup at
    different places are different elements. *)
Definition path := list nat.

(** A reference to a command element: where it was parsed, and the
    element as parsed. *)
Definition command : Type := path * node.

Definition tagOf (n : node) : option string :=
  match n with Element t _ _ => Some t | Text _ => None end.

Definition attributesOf (n : node) : list (string * string) :=
  match n with Element _ a _ => a | Text _ => [] end.

Definition childrenOf (n : node) : list node :=
  match n with Element _ _ c => c | Text _ => [] end.

Definition is_htmx (n : node) : bool :=
  match n with Element t _ _ => String.eqb t "htmx" | Text _ => false end.

(** [element.getAttribute(name)]: [None] is JavaScript's [null]. *)
Fixpoint lookupAttr (name : string) (attrs : list (string * string))
  : option string :=
  match attrs with
  | [] => None
  | (k, v) :: r => if String.eqb k name then Some v else lookupAttr name r
  end.

Definition getAttribute (el : node) (name : string) : option string :=
  lookupAttr name (attributesOf el).

Definition hasAttribute (el : node) (name : string) : bool :=
  match getAttribute el name with Some _ => true | None => false end.

(** [getRawAttribute] returns the attribute; a missing attribute and the
    empty string are both falsy for the [||] of its caller. *)
Definition getRawAttribute (el : node) (name : string) : option string :=
  getAttribute el name.

Definition truthyStr (v : option string) : bool :=
  match v with
  | Some s => negb (Str.isEmpty s)
  | None => false
  end.

(** [v || fallback] for a string that may be missing. *)
Definition orElse (v : option string) (fallback : string) : string :=
  match v with
  | Some s => if Str.isEmpty s then fallback else s
  | None => fallback
  end.

(** htmx's [api.getAttributeValue(elt, name)]:
    [getRawAttribute(elt, name) || getRawAttribute(elt, 'data-' + name)]. *)
Definition getAttributeValue (el : node) (name : string) : option string :=
  if truthyStr (getRawAttribute el name) then getRawAttribute el name
  else getRawAttribute el ("data-" ++ name)%string.

(** ** Finding and removing the command markers *)

(** [querySelectorAll('htmx')] below an element at path [p], in document
    order (pre-order): [sel_children] walks the children from position
    [i]. *)
Fixpoint select_node (p : path) (n : node) {struct n} : list command :=
  match n with
  | Text _ => []
  | Element t a c =>
      (if String.eqb t "htmx" then [(p, n)] else [])
        ++ (fix sel_children (i : nat) (l : list node) {struct l}
              : list command :=
              match l with
              | [] => []
              | x :: r => select_node (p ++ [i]) x ++ sel_children (S i) r
              end) 0 c
  end.

Fixpoint select_children (p : path) (i : nat) (l : list node)
  : list command :=
  match l with
  | [] => []
  | x :: r => select_node (p ++ [i]) x ++ select_children p (S i) r
  end.

(** [fragment.querySelectorAll('htmx')] *)
Definition querySelectorAll (f : fragment) : list command :=
  select_children [] 0 f.

(** [fragment.querySelector('htmx')] *)
Definition querySelector (f : fragment) : option command :=
  hd_error (querySelectorAll f).

(** [el.parentNode === fragment] *)
Definition parentIsFragment (c : command) : bool :=
  Nat.eqb (length (fst c)) 1.

(** The tree once every marker has been removed from its parent
    ([allCommandElements.forEach(el => el.remove())]): no marker is left
    at any depth, neither in the fragment nor inside a detached
    top-level marker. *)
Fixpoint removeMarkers (n : node) : node :=
  match n with
  | Text s => Text s
  | Element t a c =>
      Element t a
        ((fix rm (l : list node) : list node :=
            match l with
            | [] => []
            | x :: r => if is_htmx x then rm r else removeMarkers x :: rm r
            end) c)
  end.

Fixpoint removeMarkersList (l : list node) : list node :=
  match l with
  | [] => []
  | x :: r =>
      if is_htmx x then removeMarkersList r
      else removeMarkers x :: removeMarkersList r
  end.

(** ** The attribute grammar *)

Definition VALID_COMMAND_ATTRIBUTES : list string :=
  [ "target"; "swap"; "select"; "redirect"; "refresh"; "location";
    "push-url"; "replace-url"; "trigger"; "trigger-after-swap";
    "trigger-after-settle" ].

(** [VALID_COMMAND_ATTRIBUTES.has(name)] *)
Definition isValidAttribute (name : string) : bool :=
  existsb (String.eqb name) VALID_COMMAND_ATTRIBUTES.

(** One entry of the [errors] array of [validateCommandElement].  The
    source renders each as a line of the message of the thrown error. *)
Inductive violation : Type :=
| InvalidAttribute (name : string)
| SwapOrSelectRequiresTarget.

(** What the extension throws and what its collaborators throw. *)
Inductive error : Type :=
| NoCommandAttributes (element : node)
    (* "The following <htmx> tag has no command attributes ..." *)
| ValidationErrors (element : node) (errors : list violation)
    (* "N validation error(s) for command: ..." *)
| TargetDidNotMatch (selector : string)
    (* the error carried by htmx:targetError; never thrown *)
| HostError (what : string).
    (* SyntaxError, TypeError, DOMException raised by the platform *)

(** The [errors] array once both checks have run. *)
Definition unknownAttributes (el : node) : list violation :=
  map (fun kv => InvalidAttribute (fst kv))
      (filter (fun kv => negb (isValidAttribute (fst kv))) (attributesOf el)).

Definition invalidCombination (el : node) : list violation :=
  let hasSwapOrSelect := hasAttribute el "swap" || hasAttribute el "select" in
  let hasTarget := hasAttribute el "target" in
  if hasSwapOrSelect && negb hasTarget then [SwapOrSelectRequiresTarget]
  else [].

(** [validateCommandElement(element)]: [None] when it returns, [Some e]
    when it throws [e]. *)
Definition validateCommandElement (element : node) : option error :=
  let hasCommandAttribute :=
    existsb (fun kv => isValidAttribute (fst kv)) (attributesOf element) in
  if negb hasCommandAttribute then Some (NoCommandAttributes element)
  else
    let errors := unknownAttributes element ++ invalidCombination element in
    if Nat.ltb 0 (length errors) then Some (ValidationErrors element errors)
    else None.

(** ** JSON values, as [JSON.parse] builds them

    The members of an object are listed in the order in which
    [for ... in] enumerates them. *)

Inductive json : Type :=
| JNull
| JBool (b : bool)
| JNumber (n : Z)
| JString (s : string)
| JArray (items : list json)
| JObject (members : list (string * json)).

(** A JavaScript value that may be [undefined]. *)
Definition jsval : Type := option json.

(** JavaScript truthiness, as [if (detail.target)] tests it. *)
Definition truthy (j : json) : bool :=
  match j with
  | JNull => false
  | JBool b => b
  | JNumber n => negb (Z.eqb n 0)
  | JString s => negb (Str.isEmpty s)
  | JArray _ | JObject _ => true
  end.

(** [obj[key]] on the members of an object. *)
Fixpoint getMember (key : string) (m : list (string * json)) : jsval :=
  match m with
  | [] => None
  | (k, v) :: r => if String.eqb k key then Some v else getMember key r
  end.

(** [delete obj[key]] *)
Definition deleteMember (key : string) (m : list (string * json))
  : list (string * json) :=
  filter (fun kv => negb (String.eqb (fst kv) key)) m.

Definition membersOf (j : json) : list (string * json) :=
  match j with JObject m => m | _ => [] end.

Definition indexKey (i : nat) : string :=
  NilEmpty.string_of_uint (Nat.to_uint i).

Fixpoint indexed {A : Type} (i : nat) (l : list A) : list (string * A) :=
  match l with
  | [] => []
  | x :: r => (indexKey i, x) :: indexed (S i) r
  end.

Fixpoint chars (s : string) : list json :=
  match s with
  | EmptyString => []
  | String c r => JString (String c EmptyString) :: chars r
  end.

(** [for (const k in v)] paired with [v[k]]: the members of an object,
    the indices of an array or of a string, nothing for the other
    values. *)
Definition forIn (v : json) : list (string * json) :=
  match v with
  | JObject m => m
  | JArray l => indexed 0 l
  | JString s => indexed 0 (chars s)
  | JNull | JBool _ | JNumber _ => []
  end.

(** ** The live page and what the extension does to it *)

(** An element of the live document. *)
Inductive live : Type :=
| DocumentBody
| LiveElement (id : nat).

(** What [api.getSwapSpecification] returns; the other modifiers (scroll,
    show, focus-scroll, ignoreTitle) are read inside the DOM procedures
    only. *)
Record swapSpec : Type := mkSwapSpec {
  swapStyle : string;
  swapDelay : Z;
  settleDelay : Z;
  transition : option bool
}.

(** The detail object of [htmx:beforeSwap], which listeners may change. *)
Record beforeSwapDetails : Type := mkBeforeSwap {
  bs_elt : live;
  bs_target : live;
  bs_swapSpec : swapSpec;
  bs_serverResponse : string;
  bs_shouldSwap : bool
}.

Inductive detail : Type :=
| NoDetail
| Payload (j : json)
| CommandDetail (commandElement : command) (context : option live)
| BeforeSwapDetail (d : beforeSwapDetails)
| TargetErrorDetail (e : error) (target : string)
| CommandErrorDetail (e : error) (commandElement : command)
| EventInfo (elt : live).

(** A value on which a property can be set: an object or an array.
    Setting one on a number, a string or a boolean throws in strict
    mode. *)
Definition isObject (j : json) : bool :=
  match j with
  | JObject _ | JArray _ => true
  | JNull | JBool _ | JNumber _ | JString _ => false
  end.

(** The details [api.triggerEvent] can set [elt] on: [null] and
    [undefined] are replaced by a new object first. *)
Definition takesElt (d : detail) : bool :=
  match d with
  | Payload JNull => true
  | Payload j => isObject j
  | _ => true
  end.

Inductive warning : Type :=
| NestedCommandsDiscarded (triggeringElement : live)
| TriggerTargetNotFound (target : json).

(** The calls by which the extension acts on the page, in the order it
    makes them.  [DomSwap] is the DOM work of [doSwap] (parsing the
    content, out-of-band swaps, [select], the swap itself, the events
    htmx fires on the swapped elements); [DomSettle] is [doSettle]. *)
Inductive effect : Type :=
| TriggerEvent (target : live) (name : string) (d : detail)
| TriggerErrorEvent (target : live) (name : string) (d : detail)
| ConsoleWarn (w : warning)
| DomSwap (target : live) (content : string) (spec : swapSpec)
          (select : option string)
| DomSettle (target : live)
| SetLocationHref (url : string)
| LocationReload
| SaveCurrentPageToHistory
| PushUrlIntoHistory (path : jsval)
| ReplaceUrlInHistory (path : string)
| AjaxGet (path : jsval) (context : list (string * json)).

(** What a selector lookup gives. *)
Inductive lookup : Type :=
| Found (e : live)
| NotFound
| LookupThrows (e : error).

(** The page: htmx, the browser and the listeners.  Every answer may
    depend on the effects performed so far. *)
Record Host : Type := mkHost {
  makeFragment : string -> fragment;
  innerHTML : list node -> string;
  JSON_parse : string -> option json;          (* [None]: SyntaxError *)
  documentQuerySelector : list effect -> string -> lookup;
  dispatchEvent : list effect -> live -> string -> detail -> bool;
  beforeSwapListeners : list effect -> beforeSwapDetails -> beforeSwapDetails;
  getSwapSpecification : live -> string -> swapSpec;
  swapInDom : list effect -> live -> string -> swapSpec
              -> option string -> option error;
    (* the DOM work of [doSwap]; [Some e]: it throws [e] *)
  settleInDom : list effect -> live -> option error;
    (* the settle tasks and events of [doSettle]; [Some e]: a task
       throws [e] *)
  saveInHistory : list effect -> option error;
    (* [saveCurrentPageToHistory()]; [Some e]: [new URL] or
       [history.replaceState] throws [e] *)
  pushInHistory : list effect -> jsval -> option error;
    (* [pushUrlIntoHistory(path)]; [Some e]: [path.replace] or
       [history.pushState] throws [e] *)
  replaceInHistory : list effect -> string -> option error;
    (* [replaceUrlInHistory(path)]; [Some e]: [history.replaceState]
       throws [e] *)
  globalViewTransitions : bool;
  hasStartViewTransition : bool
}.

(** ** The monad of the extension's code *)

(** The effects performed, the [then] callbacks of the location fetches
    still in flight (each will push its path), and whether the markers
    have already been removed from the parsed tree of the response in
    hand. *)
Record state : Type := mkState {
  trace : list effect;
  thens : list jsval;
  markersRemoved : bool
}.

(** A computation returns, throws, or waits on a promise that nothing
    will ever settle. *)
Inductive outcome (A : Type) : Type :=
| Returned (a : A)
| Thrown (e : error)
| Stalled.
Arguments Returned {A} a.
Arguments Thrown {A} e.
Arguments Stalled {A}.

Definition M (A : Type) : Type := state -> outcome A * state.

Definition ret {A} (a : A) : M A := fun s => (Returned a, s).

Definition bind {A B} (m : M A) (k : A -> M B) : M B :=
  fun s =>
    match m s with
    | (Returned a, s') => k a s'
    | (Thrown e, s') => (Thrown e, s')
    | (Stalled, s') => (Stalled, s')
    end.

Definition throw {A} (e : error) : M A := fun s => (Thrown e, s).

Definition stall {A} : M A := fun s => (Stalled, s).

(** [try { m } catch (e) { handler(e) }] *)
Definition tryCatch {A} (m : M A) (handler : error -> M A) : M A :=
  fun s =>
    match m s with
    | (Thrown e, s') => handler e s'
    | r => r
    end.

Definition emit (e : effect) : M unit :=
  fun s => (Returned tt, mkState (trace s ++ [e]) (thens s) (markersRemoved s)).

(** Reads an oracle at the current trace. *)
Definition ask {A} (f : list effect -> A) : M A :=
  fun s => (Returned (f (trace s)), s).

Definition registerThen (p : jsval) : M unit :=
  fun s => (Returned tt, mkState (trace s) (thens s ++ [p]) (markersRemoved s)).

Definition readMarkersRemoved : M bool :=
  fun s => (Returned (markersRemoved s), s).

Definition setMarkersRemoved (s : state) : state :=
  mkState (trace s) (thens s) true.

(** A fragment has just been parsed: its markers are all in place. *)
Definition freshlyParsed (s : state) : state :=
  mkState (trace s) (thens s) false.

Declare Scope monad_scope.
Delimit Scope monad_scope with monad.
Notation "x <- m ;; k" := (bind m (fun x => k))
  (at level 61, m at next level, right associativity) : monad_scope.
Notation "m ;; k" := (bind m (fun _ => k))
  (at level 61, right associativity) : monad_scope.
Open Scope monad_scope.

(** [for (const x of l) body(x)] *)
Fixpoint forEach {A} (l : list A) (body : A -> M unit) : M unit :=
  match l with
  | [] => ret tt
  | x :: r => body x ;; forEach r body
  end.

(** ** The extension *)

(** A swap job of [processCommandFromElement]. *)
Record swapJob : Type := mkSwapJob {
  targetEl : live;
  content : string
}.

(** The state of the promise [swapAsync] returned.  Its [resolveSwap] is
    called with the settle promise, so the swap promise follows it:
    awaiting the swap promise awaits the settle phase as well. *)
Inductive promise : Type :=
| Fulfilled
| Rejected (e : error)
| AwaitingSettle (target : live)
    (* the DOM is swapped, [doSettle] waits for the settle timer *)
| AwaitingSwap (target : live) (content : string) (spec : swapSpec)
               (select : option string).
    (* [doSwap] waits for the swap timer or the view transition *)

Section Extension.

Variable h : Host.

(** [api.triggerEvent(target, name, detail)]; [false] when a listener
    cancelled the event.  htmx sets [detail.elt] before it dispatches,
    in strict mode: on a detail it cannot take, a [TypeError] is thrown
    and no event is fired. *)
Definition triggerEvent (target : live) (name : string) (d : detail)
  : M bool :=
  if takesElt d then
    b <- ask (fun t => dispatchEvent h t target name d) ;;
    emit (TriggerEvent target name d) ;;
    ret b
  else throw (HostError "TypeError").

Definition triggerErrorEvent (target : live) (name : string) (d : detail)
  : M unit :=
  emit (TriggerErrorEvent target name d).

(** [htmx.find(x)]: a selector is looked up in the document, which
    throws on a selector that is not valid CSS; anything but a string
    has no [querySelector] to call. *)
Definition find (x : json) : M (option live) :=
  match x with
  | JString selector =>
      r <- ask (fun t => documentQuerySelector h t selector) ;;
      match r with
      | Found e => ret (Some e)
      | NotFound => ret None
      | LookupThrows e => throw e
      end
  | _ => throw (HostError "TypeError")
  end.

(** *** Trigger dispatcher *)

(** The body of the [for ... in] loop of [handleTriggerAttribute]. *)
Definition fireTrigger (entry : string * json) : M unit :=
  let eventName := fst entry in
  let detail := snd entry in
  match detail with
  | JObject m =>
      match getMember "target" m with
      | Some t =>
          if truthy t then
            newTarget <- find t ;;
            target <- match newTarget with
                      | Some e => ret e
                      | None =>
                          emit (ConsoleWarn (TriggerTargetNotFound t)) ;;
                          ret DocumentBody
                      end ;;
            triggerEvent target eventName
              (Payload (JObject (deleteMember "target" m))) ;;
            ret tt
          else triggerEvent DocumentBody eventName (Payload detail) ;; ret tt
      | None => triggerEvent DocumentBody eventName (Payload detail) ;; ret tt
      end
  | _ => triggerEvent DocumentBody eventName (Payload detail) ;; ret tt
  end.

(** The [catch] branch: the value as a comma-separated list. *)
Definition fireNames (value : string) : M unit :=
  forEach (Str.split Str.comma value)
    (fun eventName =>
       triggerEvent DocumentBody (Str.trim eventName) NoDetail ;; ret tt).

Definition handleTriggerAttribute (value : string) : M unit :=
  tryCatch
    (match JSON_parse h value with
     | None => throw (HostError "SyntaxError")
     | Some triggers => forEach (forIn triggers) fireTrigger
     end)
    (fun _ => fireNames value).

(** *** History and location *)

(** What a call of the platform may end in. *)
Definition orThrow (r : option error) : M unit :=
  match r with
  | Some e => throw e
  | None => ret tt
  end.

(** [saveCurrentPageToHistory()]: it announces the snapshot
    (htmx:beforeHistorySave) and goes on to write it; [new URL] on the
    current path, and [history.replaceState] at the end, may throw. *)
Definition saveCurrentPageToHistory : M unit :=
  emit SaveCurrentPageToHistory ;;
  r <- ask (saveInHistory h) ;;
  orThrow r.

(** [pushUrlIntoHistory(path)]: nothing has happened yet when
    [path.replace] or [history.pushState] throws. *)
Definition pushUrlIntoHistory (path : jsval) : M unit :=
  r <- ask (fun t => pushInHistory h t path) ;;
  orThrow r ;;
  emit (PushUrlIntoHistory path).

(** [replaceUrlInHistory(path)] *)
Definition replaceUrlInHistory (path : string) : M unit :=
  r <- ask (fun t => replaceInHistory h t path) ;;
  orThrow r ;;
  emit (ReplaceUrlInHistory path).

(** [htmx.ajax('GET', path, ...).then(() => pushUrlIntoHistory(path))]
    starts the fetch and registers the callback; nothing waits for
    it. *)
Definition handleLocationAttribute (redirectPath : string) : M unit :=
  pr <- (if Str.startsWith "{" redirectPath then
           match JSON_parse h redirectPath with
           | None => throw (HostError "SyntaxError")
           | Some redirectSwapSpec =>
               ret (getMember "path" (membersOf redirectSwapSpec),
                    deleteMember "path" (membersOf redirectSwapSpec))
           end
         else ret (Some (JString redirectPath), [])) ;;
  saveCurrentPageToHistory ;;
  emit (AjaxGet (fst pr) (snd pr)) ;;
  registerThen (fst pr).

(** The page completes the oldest fetch in flight: its [then] callback
    runs. *)
Definition fetchCompleted : M unit :=
  fun s =>
    match thens s with
    | [] => (Returned tt, s)
    | p :: r => pushUrlIntoHistory p (mkState (trace s) r (markersRemoved s))
    end.

(** *** swapAsync *)

(** [doSettle]: the settle tasks, then the events on the settled
    elements; a task that throws ends it. *)
Definition doSettle (target : live) : M unit :=
  r <- ask (fun t => settleInDom h t target) ;;
  orThrow r ;;
  emit (DomSettle target).

(** A callback handed to [setTimeout] or to [startViewTransition]: what
    it throws reaches no [catch], and the promise it was to settle
    stays pending. *)
Definition inCallback (m : M unit) : M unit :=
  tryCatch m (fun _ => stall).

(** [doSwap]: the DOM procedures, then the settle phase, at once or
    behind the settle timer. *)
Definition doSwap (target : live) (content : string) (spec : swapSpec)
           (select : option string) : M promise :=
  r <- ask (fun t => swapInDom h t target content spec select) ;;
  orThrow r ;;
  emit (DomSwap target content spec select) ;;
  if Z.ltb 0 (settleDelay spec) then ret (AwaitingSettle target)
  else doSettle target ;; ret Fulfilled.

(** The executor of the promise: [doSwap] is run at once inside the
    [try], or handed to [setTimeout] or to [startViewTransition]. *)
Definition swapAsync (target : live) (content : string) (spec : swapSpec)
           (select : option string) (contextElement : live) : M promise :=
  let shouldTransition :=
    match transition spec with
    | Some b => b
    | None => globalViewTransitions h
    end in
  transitioning <-
    (if shouldTransition then
       b <- triggerEvent contextElement "htmx:beforeTransition"
              (EventInfo contextElement) ;;
       ret (b && hasStartViewTransition h)
     else ret false) ;;
  if Z.ltb 0 (swapDelay spec) || transitioning
  then ret (AwaitingSwap target content spec select)
  else
    tryCatch (doSwap target content spec select)
      (fun e =>
         triggerErrorEvent contextElement "htmx:swapError"
           (EventInfo contextElement) ;;
         ret (Rejected e)).

(** [await] on the promise of [swapAsync].  A [doSwap] that throws
    inside the timer or the transition callback is outside every [try]:
    neither [resolveSwap] nor [rejectSwap] is called.  So is a
    [doSettle] that throws behind the settle timer: its [resolve] is
    not reached. *)
Definition awaitSwap (p : promise) : M unit :=
  match p with
  | Fulfilled => ret tt
  | Rejected e => throw e
  | AwaitingSettle target => inCallback (doSettle target)
  | AwaitingSwap target content spec select =>
      inCallback
        (r <- ask (fun t => swapInDom h t target content spec select) ;;
         orThrow r ;;
         emit (DomSwap target content spec select) ;;
         doSettle target)
  end.

(** *** processCommandFromElement *)

(** [commandElt.innerHTML], read from the element as it is now: the
    first marker of a response reaches this point while
    [transformResponse] is still running, before the markers are
    removed; the later ones reach it afterwards. *)
Definition currentInnerHTML (el : node) : M string :=
  removed <- readMarkersRemoved ;;
  ret (innerHTML h (if removed then removeMarkersList (childrenOf el)
                    else childrenOf el)).

Definition gatherSwapJobs (commandElt : command) (contextElt : live)
  : M (list swapJob) :=
  match getAttributeValue (snd commandElt) "target" with
  | Some commandTargetSelector =>
      if Str.isEmpty commandTargetSelector then ret []
      else
        commandTargetEl <- find (JString commandTargetSelector) ;;
        match commandTargetEl with
        | Some e =>
            c <- currentInnerHTML (snd commandElt) ;;
            ret [mkSwapJob e c]
        | None =>
            triggerErrorEvent contextElt "htmx:targetError"
              (TargetErrorDetail (TargetDidNotMatch commandTargetSelector)
                                 commandTargetSelector) ;;
            ret []
        end
  | None => ret []
  end.

(** [htmx:beforeSwap] on the target; listeners may cancel it and may
    rewrite its detail. *)
Definition triggerBeforeSwap (d : beforeSwapDetails)
  : M (bool * beforeSwapDetails) :=
  d' <- ask (fun t => beforeSwapListeners h t d) ;;
  b <- triggerEvent (bs_target d) "htmx:beforeSwap" (BeforeSwapDetail d) ;;
  ret (b, d').

Fixpoint startSwapJobs (swapJobs : list swapJob) (contextElt : live)
         (spec : swapSpec) (commandSelect : option string)
  : M (list promise) :=
  match swapJobs with
  | [] => ret []
  | job :: rest =>
      r <- triggerBeforeSwap
             (mkBeforeSwap contextElt (targetEl job) spec (content job) true) ;;
      ps <- (if negb (fst r) then ret []
             else if bs_shouldSwap (snd r) then
               p <- swapAsync (bs_target (snd r)) (bs_serverResponse (snd r))
                      (bs_swapSpec (snd r)) commandSelect contextElt ;;
               ret [p]
             else ret []) ;;
      qs <- startSwapJobs rest contextElt spec commandSelect ;;
      ret (ps ++ qs)
  end.

Definition validate (el : node) : M unit :=
  match validateCommandElement el with
  | Some e => throw e
  | None => ret tt
  end.

(** The pipeline up to its first [await]; [None] when the function
    returned at the cancelled pre-command event. *)
Definition beforeFirstAwait (commandElt : command) (contextElt : live)
  : M (option (list promise)) :=
  proceed <- triggerEvent contextElt "htmx:beforeServerCommand"
               (CommandDetail commandElt (Some contextElt)) ;;
  if negb proceed then ret None
  else
    validate (snd commandElt) ;;
    let commandSwapStyle :=
      orElse (getAttributeValue (snd commandElt) "swap") "outerHTML" in
    let commandSelect := getAttributeValue (snd commandElt) "select" in
    swapJobs <- gatherSwapJobs commandElt contextElt ;;
    let spec := getSwapSpecification h contextElt commandSwapStyle in
    swapPromises <- startSwapJobs swapJobs contextElt spec commandSelect ;;
    ret (Some swapPromises).

Definition whenAttribute (el : node) (name : string)
           (action : string -> M unit) : M unit :=
  match getAttribute el name with
  | Some v => action v
  | None => ret tt
  end.

(** Step 6 of the source up to the history actions; [false] when the
    function returned at [redirect] or [refresh]. *)
Definition immediateActions (el : node) : M bool :=
  whenAttribute el "trigger" handleTriggerAttribute ;;
  whenAttribute el "location" handleLocationAttribute ;;
  match getAttribute el "redirect" with
  | Some url => emit (SetLocationHref url) ;; ret false
  | None =>
      if match getAttribute el "refresh" with
         | Some v => negb (String.eqb v "false")
         | None => false
         end
      then emit LocationReload ;; ret false
      else
        whenAttribute el "push-url"
          (fun url =>
             saveCurrentPageToHistory ;;
             pushUrlIntoHistory (Some (JString url))) ;;
        whenAttribute el "replace-url"
          (fun url => saveCurrentPageToHistory ;; replaceUrlInHistory url) ;;
        ret true
  end.

(** Step 6 and the post-command event, which is not reached after
    [redirect] or [refresh]. *)
Definition immediatePhase (commandElt : command) (contextElt : live)
  : M unit :=
  continue <- immediateActions (snd commandElt) ;;
  if continue then
    triggerEvent contextElt "htmx:afterServerCommand"
      (CommandDetail commandElt None) ;;
    ret tt
  else ret tt.

(** The pipeline from its first [await] on.  The second [await], on
    [settlePromises.flat()], has nothing left to wait for. *)
Definition afterFirstAwait (commandElt : command) (contextElt : live)
           (swapPromises : list promise) : M unit :=
  forEach swapPromises awaitSwap ;;
  triggerEvent contextElt "htmx:afterSwap" (CommandDetail commandElt None) ;;
  whenAttribute (snd commandElt) "trigger-after-swap" handleTriggerAttribute ;;
  whenAttribute (snd commandElt) "trigger-after-settle" handleTriggerAttribute ;;
  immediatePhase commandElt contextElt.

(** The [catch] of the marker boundary. *)
Definition reportError (commandElt : command) (e : error) : M unit :=
  triggerErrorEvent DocumentBody "htmx:serverCommandError"
    (CommandErrorDetail e commandElt).

Definition processCommandFromElement (commandElt : command)
           (contextElt : live) : M unit :=
  tryCatch
    (r <- beforeFirstAwait commandElt contextElt ;;
     match r with
     | None => ret tt
     | Some swapPromises => afterFirstAwait commandElt contextElt swapPromises
     end)
    (reportError commandElt).

(** The same function cut at its first [await]: what runs when it is
    called, and what runs when it is resumed. *)
Definition processUntilAwait (commandElt : command) (contextElt : live)
  : M (option (list promise)) :=
  tryCatch (beforeFirstAwait commandElt contextElt)
    (fun e => reportError commandElt e ;; ret None).

Definition processFromAwait (commandElt : command) (contextElt : live)
           (swapPromises : list promise) : M unit :=
  tryCatch (afterFirstAwait commandElt contextElt swapPromises)
    (reportError commandElt).

(** [for (const el of topLevelCommandElements)
       await processCommandFromElement(el, elt, settleInfo)] *)
Definition processAll (els : list command) (contextElt : live) : M unit :=
  forEach els (fun el => processCommandFromElement el contextElt).

(** *** transformResponse *)

(** What [transformResponse] returns to htmx, the state when it
    returns, and the rest of the asynchronous loop, which runs
    afterwards. *)
Record transformed : Type := mkTransformed {
  returnedText : string;
  atReturn : state;
  continuation : M unit
}.

(** The call of the asynchronous function: it runs until the first
    [await] of the first marker and leaves the rest to be resumed. *)
Definition startLoop (topLevelCommandElements : list command) (elt : live)
           (s : state) : M unit * state :=
  match topLevelCommandElements with
  | [] => (ret tt, s)
  | el :: rest =>
      match processUntilAwait el elt s with
      | (Returned None, s') => (processAll rest elt, s')
      | (Returned (Some swapPromises), s') =>
          (processFromAwait el elt swapPromises ;; processAll rest elt, s')
      | (Thrown e, s') => (throw e, s')
      | (Stalled, s') => (stall, s')
      end
  end.

Definition transformResponse (text : string) (elt : live) (s : state)
  : transformed :=
  if Str.isEmpty text then mkTransformed text s (ret tt)
  else
    let fragment := makeFragment h text in
    match querySelector fragment with
    | None => mkTransformed text s (ret tt)
    | Some _ =>
        let allCommandElements := querySelectorAll fragment in
        let topLevelCommandElements :=
          filter parentIsFragment allCommandElements in
        let s1 :=
          if Nat.ltb (length topLevelCommandElements)
                     (length allCommandElements)
          then snd (emit (ConsoleWarn (NestedCommandsDiscarded elt))
                      (freshlyParsed s))
          else freshlyParsed s in
        let started := startLoop topLevelCommandElements elt s1 in
        mkTransformed (innerHTML h (removeMarkersList fragment))
                      (setMarkersRemoved (snd started))
                      (fst started)
    end.

(** The whole run for one response: the text returned, and the state
    once the loop has finished or stalled. *)
Definition runResponse (text : string) (elt : live) (s : state)
  : string * (outcome unit * state) :=
  let t := transformResponse text elt s in
  (returnedText t, continuation t (atReturn t)).

End Extension.

(** * Vocabulary of the statements *)

(** The state once the effects [d] have been performed. *)
Definition withEffects (s : state) (d : list effect) : state :=
  mkState (trace s ++ d) (thens s) (markersRemoved s).

(** The events at the ends of a pipeline and around its swap. *)
Definition beforeServerCommand (c : command) (ctx : live) : effect :=
  TriggerEvent ctx "htmx:beforeServerCommand" (CommandDetail c (Some ctx)).

Definition afterSwap (c : command) (ctx : live) : effect :=
  TriggerEvent ctx "htmx:afterSwap" (CommandDetail c None).

Definition afterServerCommand (c : command) (ctx : live) : effect :=
  TriggerEvent ctx "htmx:afterServerCommand" (CommandDetail c None).

Definition targetError (ctx : live) (selector : string) : effect :=
  TriggerErrorEvent ctx "htmx:targetError"
    (TargetErrorDetail (TargetDidNotMatch selector) selector).

Definition serverCommandError (c : command) (e : error) : effect :=
  TriggerErrorEvent DocumentBody "htmx:serverCommandError"
    (CommandErrorDetail e c).

(** ** The immediate phase in the words of the specification

    "[redirect]: set the browser location to the given URL; terminates
    processing of this marker", "[refresh] (and not the literal string
    "false"): reload the page; same termination". *)
Definition refreshes (el : node) : bool :=
  match getAttribute el "refresh" with
  | Some v => negb (String.eqb v "false")
  | None => false
  end.

(** What the trigger dispatcher may do. *)
Inductive dispatchEffect : effect -> Prop :=
| DE_payload t n j : dispatchEffect (TriggerEvent t n (Payload j))
| DE_bare n : dispatchEffect (TriggerEvent DocumentBody n NoDetail)
| DE_warn j : dispatchEffect (ConsoleWarn (TriggerTargetNotFound j)).

(** ** The trigger payload in the words of the specification

    "For each key: if the detail is an object carrying a [target] field,
    resolve that selector to an element (falling back to the document
    root with a diagnostic if unresolved) and remove the [target] field
    from the detail before firing; otherwise fire at the document root
    with the detail as-is." *)

(** The [target] a detail asks for: a truthy [target] member of an
    object. *)
Definition requestedTarget (detail : json) : option json :=
  match detail with
  | JObject m =>
      match getMember "target" m with
      | Some t => if truthy t then Some t else None
      | None => None
      end
  | _ => None
  end.

(** The detail without the [target] it asked for. *)
Definition stripTarget (detail : json) : json :=
  match detail, requestedTarget detail with
  | JObject m, Some _ => JObject (deleteMember "target" m)
  | _, _ => detail
  end.

(** The element an event is fired at, when the lookup is made after the
    effects [tr]. *)
Definition dispatchTarget (h : Host) (tr : list effect) (detail : json)
  : live :=
  match requestedTarget detail with
  | Some (JString selector) =>
      match documentQuerySelector h tr selector with
      | Found e => e
      | _ => DocumentBody
      end
  | _ => DocumentBody
  end.

(** Every [target] asked for in the payload is a selector whose lookup
    returns, with an element or without. *)
Definition lookupsReturn (h : Host) (m : list (string * json)) : Prop :=
  forall k d t,
    In (k, d) m -> requestedTarget d = Some t ->
    exists selector,
      t = JString selector /\
      forall tr e, documentQuerySelector h tr selector <> LookupThrows e.

Definition isEvent (e : effect) : bool :=
  match e with
  | TriggerEvent _ _ _ => true
  | _ => false
  end.

(** The bare events of a comma-separated value. *)
Definition bareEvents (value : string) : list effect :=
  map (fun eventName => TriggerEvent DocumentBody (Str.trim eventName) NoDetail)
      (Str.split Str.comma value).

(** ** What the dispatcher fires, as a list of effects

    The payload is read key by key.  A detail can be dispatched when
    [api.triggerEvent] takes it (an object, an array or [null]) and the
    target it asks for, if any, is a selector whose lookup returns.  At
    the first detail that cannot be dispatched the loop is left for the
    [catch] of the dispatcher, which reads the raw value as a
    comma-separated list. *)

Definition dispatchable (h : Host) (tr : list effect) (detail : json) : bool :=
  match requestedTarget detail with
  | Some (JString selector) =>
      match documentQuerySelector h tr selector with
      | LookupThrows _ => false
      | _ => true
      end
  | Some _ => false
  | None => takesElt (Payload detail)
  end.

(** The diagnostic for a target that is not found. *)
Definition targetWarnings (h : Host) (tr : list effect) (detail : json)
  : list effect :=
  match requestedTarget detail with
  | Some (JString selector) =>
      match documentQuerySelector h tr selector with
      | NotFound => [ConsoleWarn (TriggerTargetNotFound (JString selector))]
      | _ => []
      end
  | _ => []
  end.

(** What is done for one key, after the effects [tr]. *)
Definition keyEffects (h : Host) (tr : list effect) (kv : string * json)
  : list effect :=
  targetWarnings h tr (snd kv)
  ++ [TriggerEvent (dispatchTarget h tr (snd kv)) (fst kv)
        (Payload (stripTarget (snd kv)))].

(** What is done for the keys, in their order, up to the first detail
    that cannot be dispatched; [true] when there is none. *)
Fixpoint payloadEffects (h : Host) (tr : list effect)
         (m : list (string * json)) : list effect * bool :=
  match m with
  | [] => ([], true)
  | kv :: r =>
      if dispatchable h tr (snd kv) then
        let d := keyEffects h tr kv in
        let rest := payloadEffects h (tr ++ d) r in
        (d ++ fst rest, snd rest)
      else ([], false)
  end.

(** What the dispatcher does for a value, after the effects [tr]. *)
Definition dispatched (h : Host) (tr : list effect) (value : string)
  : list effect :=
  match JSON_parse h value with
  | None => bareEvents value
  | Some triggers =>
      let fired := payloadEffects h tr (forIn triggers) in
      if snd fired then fst fired else fst fired ++ bareEvents value
  end.

(** The payload of the attribute [name] of a marker, dispatched when
    the attribute is present. *)
Definition dispatchedFor (h : Host) (el : node) (name : string)
           (s : state) : state :=
  match getAttribute el name with
  | Some value => withEffects s (dispatched h (trace s) value)
  | None => s
  end.

(** ** The pipeline from its after-swap notification on, in the words
    of the specification

    "Fire a general post-swap notification event", "if
    [trigger-after-swap] is present, dispatch its trigger payload", "if
    [trigger-after-settle] is present, dispatch its trigger payload",
    then the "immediate phase, executed in this fixed order regardless
    of declaration order in the marker's attributes", and "fire a
    post-command event"; "any exception raised at any point in steps
    2-10 is caught at the marker boundary" and reported. *)

Inductive action : Type :=
| Trigger | Location | Redirect | Refresh | PushUrl | ReplaceUrl.

Definition immediateOrder : list action :=
  [Trigger; Location; Redirect; Refresh; PushUrl; ReplaceUrl].

Definition attributeOf (a : action) : string :=
  match a with
  | Trigger => "trigger"
  | Location => "location"
  | Redirect => "redirect"
  | Refresh => "refresh"
  | PushUrl => "push-url"
  | ReplaceUrl => "replace-url"
  end.

(** How an action leaves the pipeline of its marker: the next action
    follows, or the pipeline is terminated there ("[redirect]
    terminates processing of this marker and the rest of the pipeline
    for it"), or the action throws. *)
Inductive ending : Type :=
| Continues
| Terminates
| Fails (e : error).

(** "Save current page snapshot": the snapshot is announced, and the
    page may fail to write it. *)
Definition snapshot (h : Host) (s : state) : ending * state :=
  let s1 := withEffects s [SaveCurrentPageToHistory] in
  match saveInHistory h (trace s1) with
  | Some e => (Fails e, s1)
  | None => (Continues, s1)
  end.

(** The path and the options of a [location] value: "either a bare path
    or a JSON object with a [path] field plus navigation options";
    [None] for a value that starts with a brace and is not JSON. *)
Definition locationRequest (h : Host) (value : string)
  : option (jsval * list (string * json)) :=
  if Str.startsWith "{" value then
    match JSON_parse h value with
    | None => None
    | Some options =>
        Some (getMember "path" (membersOf options),
              deleteMember "path" (membersOf options))
    end
  else Some (Some (JString value), []).

(** One action, for the value [v] of its attribute: "[trigger]:
    dispatch trigger payload"; for [location], "save the current page
    to the history snapshot store before issuing the navigation
    request" and "issue a GET-equivalent content fetch for [path]",
    whose completion will push the path; "[push-url]: save current page
    snapshot, then push the given URL into history"; "[replace-url]:
    save current page snapshot, then replace the current history entry
    with the given URL". *)
Definition perform (h : Host) (a : action) (v : string) (s : state)
  : ending * state :=
  match a with
  | Trigger => (Continues, withEffects s (dispatched h (trace s) v))
  | Location =>
      match locationRequest h v with
      | None => (Fails (HostError "SyntaxError"), s)
      | Some (path, options) =>
          match snapshot h s with
          | (Continues, s1) =>
              (Continues,
               mkState (trace s1 ++ [AjaxGet path options])
                       (thens s1 ++ [path]) (markersRemoved s1))
          | stopped => stopped
          end
      end
  | Redirect => (Terminates, withEffects s [SetLocationHref v])
  | Refresh =>
      if String.eqb v "false" then (Continues, s)
      else (Terminates, withEffects s [LocationReload])
  | PushUrl =>
      match snapshot h s with
      | (Continues, s1) =>
          match pushInHistory h (trace s1) (Some (JString v)) with
          | Some e => (Fails e, s1)
          | None =>
              (Continues, withEffects s1 [PushUrlIntoHistory (Some (JString v))])
          end
      | stopped => stopped
      end
  | ReplaceUrl =>
      match snapshot h s with
      | (Continues, s1) =>
          match replaceInHistory h (trace s1) v with
          | Some e => (Fails e, s1)
          | None => (Continues, withEffects s1 [ReplaceUrlInHistory v])
          end
      | stopped => stopped
      end
  end.

(** The actions of a list, one after the other, each performed when the
    marker has its attribute; the first that does not continue ends the
    list. *)
Fixpoint performAll (h : Host) (el : node) (l : list action) (s : state)
  : ending * state :=
  match l with
  | [] => (Continues, s)
  | a :: r =>
      match getAttribute el (attributeOf a) with
      | None => performAll h el r s
      | Some v =>
          match perform h a v s with
          | (Continues, s') => performAll h el r s'
          | stopped => stopped
          end
      end
  end.

(** The post-command event after actions that continue, nothing after
    [redirect] or [refresh]. *)
Definition postCommand (c : command) (ctx : live) (r : ending * state)
  : ending * state :=
  match r with
  | (Continues, s) => (Continues, withEffects s [afterServerCommand c ctx])
  | stopped => stopped
  end.

(** The marker boundary: what was thrown is reported. *)
Definition atBoundary (c : command) (r : ending * state) : state :=
  match r with
  | (Fails e, s) => withEffects s [serverCommandError c e]
  | (_, s) => s
  end.

(** How the function is left: it returns after actions that continue
    or terminate, and throws what an action failed with. *)
Definition asOutcome (r : ending * state) : outcome unit * state :=
  match r with
  | (Fails e, s) => (Thrown e, s)
  | (_, s) => (Returned tt, s)
  end.

(** The effect with which [redirect], or a [refresh] other than
    "false", terminates the pipeline of a marker. *)
Definition terminator (el : node) : option effect :=
  match getAttribute el "redirect" with
  | Some url => Some (SetLocationHref url)
  | None => if refreshes el then Some LocationReload else None
  end.

(** The after-swap notification and the two timed payloads. *)
Definition timedSteps (h : Host) (c : command) (ctx : live) (s : state)
  : state :=
  dispatchedFor h (snd c) "trigger-after-settle"
    (dispatchedFor h (snd c) "trigger-after-swap"
       (withEffects s [afterSwap c ctx])).

(** The pipeline of a marker from its after-swap notification to its
    end. *)
Definition restOfPipeline (h : Host) (c : command) (ctx : live) (s : state)
  : state :=
  atBoundary c
    (postCommand c ctx
       (performAll h (snd c) immediateOrder (timedSteps h c ctx s))).

(** The command element an event is about, when it carries one. *)
Definition commandOf (e : effect) : option command :=
  match e with
  | TriggerEvent _ _ (CommandDetail c _)
  | TriggerEvent _ _ (CommandErrorDetail _ c)
  | TriggerErrorEvent _ _ (CommandDetail c _)
  | TriggerErrorEvent _ _ (CommandErrorDetail _ c) => Some c
  | _ => None
  end.

(** ** The grammar in the words of the specification

    "Error if zero attributes from the enumerated set are present",
    "one item per offending attribute, if any attribute outside the
    enumerated set is present", "error if ([swap] or [select] present)
    and [target] absent". *)
Inductive grammarViolation : Type :=
| UnknownAttribute (name : string)
| SwapOrSelectWithoutTarget
| NoEnumeratedAttribute.

Definition hasEnumeratedAttribute (el : node) : bool :=
  existsb (fun kv => isValidAttribute (fst kv)) (attributesOf el).

Definition grammarViolations (el : node) : list grammarViolation :=
  map (fun kv => UnknownAttribute (fst kv))
      (filter (fun kv => negb (isValidAttribute (fst kv))) (attributesOf el))
  ++ (if (hasAttribute el "swap" || hasAttribute el "select")
         && negb (hasAttribute el "target")
      then [SwapOrSelectWithoutTarget] else [])
  ++ (if hasEnumeratedAttribute el then [] else [NoEnumeratedAttribute]).

(** What a thrown validation error tells its reader. *)
Definition reportedViolations (e : error) : list grammarViolation :=
  match e with
  | NoCommandAttributes _ => [NoEnumeratedAttribute]
  | ValidationErrors _ errors =>
      map (fun v => match v with
                    | InvalidAttribute name => UnknownAttribute name
                    | SwapOrSelectRequiresTarget => SwapOrSelectWithoutTarget
                    end) errors
  | _ => []
  end.

(** "All violations for one marker are collected and raised together as
    a single error." *)
Definition collectsAllViolations (el : node) : Prop :=
  match validateCommandElement el with
  | Some e => reportedViolations e = grammarViolations el
  | None => grammarViolations el = []
  end.

(** * Vocabulary of the proofs *)

(** ** What a computation may add to the state

    [footprint P Q m]: [m] only appends to the trace, and every effect it
    appends satisfies [P]; it only appends to the pending [then]
    callbacks, each satisfying [Q]; it never touches the parsed tree. *)
Definition footprint {A} (P : effect -> Prop) (Q : jsval -> Prop) (m : M A)
  : Prop :=
  forall s, exists d ps,
    trace (snd (m s)) = trace s ++ d /\ Forall P d /\
    thens (snd (m s)) = thens s ++ ps /\ Forall Q ps /\
    markersRemoved (snd (m s)) = markersRemoved s.

(** How a computation may end. *)
Definition neverThrows {A} (m : M A) : Prop :=
  forall s e, fst (m s) <> Thrown e.

Definition neverStalls {A} (m : M A) : Prop :=
  forall s, fst (m s) <> Stalled.

(** [m] always returns. *)
Definition returns {A} (m : M A) : Prop :=
  forall s, exists a, fst (m s) = Returned a.

(** [m] returns only values that satisfy [R]. *)
Definition yields {A} (R : A -> Prop) (m : M A) : Prop :=
  forall s a s', m s = (Returned a, s') -> R a.

(** A promise of [swapAsync] whose [doSwap] has already run: it is
    settled, or will be by the settle timer. *)
Definition swapHasRun (p : promise) : Prop :=
  match p with
  | AwaitingSwap _ _ _ _ => False
  | _ => True
  end.

(** A page on which no swap is deferred: no view transitions, and no
    swap delay in any swap specification the pre-swap listeners leave. *)
Definition promptSwaps (h : Host) : Prop :=
  hasStartViewTransition h = false /\
  forall tr d, (swapDelay (bs_swapSpec (beforeSwapListeners h tr d)) <= 0)%Z.

(** A page on which the settle tasks do not throw. *)
Definition settleReturns (h : Host) : Prop :=
  forall tr target, settleInDom h tr target = None.

(** Every effect [processCommandFromElement] can perform for the command
    [c] with context element [ctx]; those of the last group belong to the
    steps that gather, start and await the swap job ([swaps]). *)
Inductive pipelineEffect (c : command) (ctx : live) (swaps : bool)
  : effect -> Prop :=
| PE_beforeServerCommand :
    pipelineEffect c ctx swaps
      (TriggerEvent ctx "htmx:beforeServerCommand" (CommandDetail c (Some ctx)))
| PE_afterSwap :
    pipelineEffect c ctx swaps
      (TriggerEvent ctx "htmx:afterSwap" (CommandDetail c None))
| PE_afterServerCommand :
    pipelineEffect c ctx swaps
      (TriggerEvent ctx "htmx:afterServerCommand" (CommandDetail c None))
| PE_payload t n j :
    pipelineEffect c ctx swaps (TriggerEvent t n (Payload j))
| PE_bare n :
    pipelineEffect c ctx swaps (TriggerEvent DocumentBody n NoDetail)
| PE_warn j :
    pipelineEffect c ctx swaps (ConsoleWarn (TriggerTargetNotFound j))
| PE_commandError e :
    pipelineEffect c ctx swaps
      (TriggerErrorEvent DocumentBody "htmx:serverCommandError"
         (CommandErrorDetail e c))
| PE_href url : pipelineEffect c ctx swaps (SetLocationHref url)
| PE_reload : pipelineEffect c ctx swaps LocationReload
| PE_save : pipelineEffect c ctx swaps SaveCurrentPageToHistory
| PE_push p : pipelineEffect c ctx swaps (PushUrlIntoHistory p)
| PE_replace p : pipelineEffect c ctx swaps (ReplaceUrlInHistory p)
| PE_ajax p o : pipelineEffect c ctx swaps (AjaxGet p o)
| PE_targetError sel :
    swaps = true ->
    pipelineEffect c ctx swaps
      (TriggerErrorEvent ctx "htmx:targetError"
         (TargetErrorDetail (TargetDidNotMatch sel) sel))
| PE_beforeSwap t d :
    swaps = true ->
    pipelineEffect c ctx swaps (TriggerEvent t "htmx:beforeSwap" (BeforeSwapDetail d))
| PE_beforeTransition :
    swaps = true ->
    pipelineEffect c ctx swaps
      (TriggerEvent ctx "htmx:beforeTransition" (EventInfo ctx))
| PE_swapError :
    swaps = true ->
    pipelineEffect c ctx swaps
      (TriggerErrorEvent ctx "htmx:swapError" (EventInfo ctx))
| PE_domSwap t content spec select :
    swaps = true -> pipelineEffect c ctx swaps (DomSwap t content spec select)
| PE_domSettle t :
    swaps = true -> pipelineEffect c ctx swaps (DomSettle t).

(** The [then] callbacks a pipeline may leave behind: those of its
    [location] attribute. *)
Definition fromLocation (c : command) (_ : jsval) : Prop :=
  hasAttribute (snd c) "location" = true.

(** The markers that are children of the fragment root, with their
    positions. *)
Fixpoint childMarkers (i : nat) (l : list node) : list command :=
  match l with
  | [] => []
  | x :: r =>
      (if is_htmx x then [([i], x)] else []) ++ childMarkers (S i) r
  end.

(** Induction on a node with the hypothesis for every child. *)
Section NodeInduction.

Variable P : node -> Prop.
Hypothesis P_Text : forall s, P (Text s).
Hypothesis P_Element : forall t a c, Forall P c -> P (Element t a c).

Fixpoint node_induction (n : node) : P n :=
  match n with
  | Text s => P_Text s
  | Element t a c =>
      P_Element t a c
        ((fix children (l : list node) : Forall P l :=
            match l with
            | [] => Forall_nil P
            | x :: r => Forall_cons x (node_induction x) (children r)
            end) c)
  end.

End NodeInduction.

(** * A page to run the extension on

    One concrete [Host], for evaluating the definitions: a page with an
    element [#t], listeners that cancel nothing and rewrite nothing, and
    htmx's defaults (no swap delay, a settle delay of 20ms, no view
    transitions).  Its parsers know the texts used below and nothing
    else. *)

Module Demo.

Definition dq : string := String (ascii_of_nat 34) EmptyString.

(** [s] between double quotes. *)
Definition q (s : string) : string := (dq ++ s ++ dq)%string.

Definition serializeAttribute (kv : string * string) : string :=
  (" " ++ fst kv ++ "=" ++ q (snd kv))%string.

Fixpoint serialize (n : node) : string :=
  match n with
  | Text s => s
  | Element t a c =>
      ("<" ++ t ++ String.concat "" (map serializeAttribute a) ++ ">"
       ++ (fix children (l : list node) : string :=
             match l with
             | [] => ""
             | x :: r => serialize x ++ children r
             end) c
       ++ "</" ++ t ++ ">")%string
  end.

Definition serializeAll (l : list node) : string :=
  String.concat "" (map serialize l).

Definition t1 : live := LiveElement 1.

Definition theTarget : node :=
  Element "div" [("id", "t")] [Text "Hi"].

(** [<htmx trigger=done></htmx>] *)
Definition triggerDone : node := Element "htmx" [("trigger", "done")] [].

(** [<htmx trigger-after-swap=swapped></htmx>] *)
Definition afterSwapOnly : node :=
  Element "htmx" [("trigger-after-swap", "swapped")] [].

(** [<htmx location=/a></htmx>] *)
Definition locationA : node := Element "htmx" [("location", "/a")] [].

(** [<htmx foo=1>x</htmx>] *)
Definition unknownOnly : node := Element "htmx" [("foo", "1")] [Text "x"].

(** [<htmx target=#nonexistent swap=innerHTML trigger=done>x</htmx>] *)
Definition missingTarget : node :=
  Element "htmx"
    [("target", "#nonexistent"); ("swap", "innerHTML"); ("trigger", "done")]
    [Text "x"].

(** [<htmx target=#nonexistent trigger-after-swap=swapped
     trigger-after-settle=settled location=/l push-url=/p>x</htmx>] *)
Definition missingTargetLocation : node :=
  Element "htmx"
    [("target", "#nonexistent"); ("trigger-after-swap", "swapped");
     ("trigger-after-settle", "settled"); ("location", "/l");
     ("push-url", "/p")]
    [Text "x"].

(** [<htmx target swap=innerHTML trigger=done>x</htmx>]: an empty
    target. *)
Definition emptyTarget : node :=
  Element "htmx" [("target", ""); ("swap", "innerHTML"); ("trigger", "done")]
    [Text "x"].

(** [<htmx target=#t swap="innerHTML swap:1s" select=[>x</htmx>]: a
    delayed swap whose [select] is not a valid selector. *)
Definition delayedBadSelect : node :=
  Element "htmx"
    [("target", "#t"); ("swap", "innerHTML swap:1s"); ("select", "[")]
    [Text "x"].

(** The same without the delay. *)
Definition promptBadSelect : node :=
  Element "htmx"
    [("target", "#t"); ("swap", "innerHTML"); ("select", "[")]
    [Text "x"].

(** [<htmx replace-url=/r push-url=/p refresh=false location=/l
     trigger=e>] and the same attributes in the opposite order. *)
Definition allImmediate : node :=
  Element "htmx"
    [("replace-url", "/r"); ("push-url", "/p"); ("refresh", "false");
     ("location", "/l"); ("trigger", "e")] [].

(** [<htmx push-url=/p redirect=/login trigger=e>] *)
Definition redirecting : node :=
  Element "htmx"
    [("push-url", "/p"); ("redirect", "/login"); ("trigger", "e")] [].

(** The response of the test "discards nested htmx tags", followed by
    a paragraph:
    [<htmx target=#t swap=outerHTML><div id=t>Updated!<htmx target=#t
     swap=innerHTML>Nested Command</htmx></div></htmx><p>tail</p>] *)
Definition nestedInner : node :=
  Element "htmx" [("target", "#t"); ("swap", "innerHTML")]
    [Text "Nested Command"].

Definition nestedOuter : node :=
  Element "htmx" [("target", "#t"); ("swap", "outerHTML")]
    [Element "div" [("id", "t")] [Text "Updated!"; nestedInner]].

Definition nestedResponse : fragment :=
  [nestedOuter; Element "p" [] [Text "tail"]].

Definition nestedText : string :=
  "<htmx target=#t swap=outerHTML><div id=t>Updated!<htmx target=#t swap=innerHTML>Nested Command</htmx></div></htmx><p>tail</p>".

Definition plainText : string := "<p>hi</p>".

Definition demoMakeFragment (text : string) : fragment :=
  if String.eqb text nestedText then nestedResponse
  else if String.eqb text plainText then [Element "p" [] [Text "hi"]]
  else [Text text].

(** [{"a":{"x":1}}] *)
Definition jsonPlain : string :=
  ("{" ++ q "a" ++ ":{" ++ q "x" ++ ":1}}")%string.

(** [{"a":{"target":"#t","x":1}}] *)
Definition jsonTargeted : string :=
  ("{" ++ q "a" ++ ":{" ++ q "target" ++ ":" ++ q "#t" ++ ","
       ++ q "x" ++ ":1}}")%string.

(** [{"a":{"target":"#nope","x":1}}] *)
Definition jsonUnresolved : string :=
  ("{" ++ q "a" ++ ":{" ++ q "target" ++ ":" ++ q "#nope" ++ ","
       ++ q "x" ++ ":1}}")%string.

(** [{"a":{"target":"["}}]: the target is not a valid selector. *)
Definition jsonBadTarget : string :=
  ("{" ++ q "a" ++ ":{" ++ q "target" ++ ":" ++ q "[" ++ "}}")%string.

(** [{"a":{"x":1},"n":5}]: the second detail is a number. *)
Definition jsonCounted : string :=
  ("{" ++ q "a" ++ ":{" ++ q "x" ++ ":1}," ++ q "n" ++ ":5}")%string.

Definition demoJSON (text : string) : option json :=
  if String.eqb text jsonCounted then
    Some (JObject [("a", JObject [("x", JNumber 1)]); ("n", JNumber 5)])
  else if String.eqb text jsonPlain then
    Some (JObject [("a", JObject [("x", JNumber 1)])])
  else if String.eqb text jsonTargeted then
    Some (JObject [("a", JObject [("target", JString "#t");
                                  ("x", JNumber 1)])])
  else if String.eqb text jsonUnresolved then
    Some (JObject [("a", JObject [("target", JString "#nope");
                                  ("x", JNumber 1)])])
  else if String.eqb text jsonBadTarget then
    Some (JObject [("a", JObject [("target", JString "[")])])
  else None.

Definition demoQuerySelector (_ : list effect) (selector : string) : lookup :=
  if String.eqb selector "#t" then Found t1
  else if String.eqb selector "[" then LookupThrows (HostError "SyntaxError")
  else NotFound.

Definition demoSwapSpec (_ : live) (style : string) : swapSpec :=
  if String.eqb style "innerHTML swap:1s"
  then mkSwapSpec "innerHTML" 1000 20 None
  else mkSwapSpec style 0 20 None.

(** [fragment.querySelectorAll(select)] inside [doSwap] throws on a
    selector that is not valid CSS. *)
Definition demoSwapInDom (_ : list effect) (_ : live) (_ : string)
           (_ : swapSpec) (select : option string) : option error :=
  match select with
  | Some sel =>
      if String.eqb sel "[" then Some (HostError "SyntaxError") else None
  | None => None
  end.

Definition page : Host :=
  {| makeFragment := demoMakeFragment;
     innerHTML := serializeAll;
     JSON_parse := demoJSON;
     documentQuerySelector := demoQuerySelector;
     dispatchEvent := fun _ _ _ _ => true;
     beforeSwapListeners := fun _ d => d;
     getSwapSpecification := demoSwapSpec;
     swapInDom := demoSwapInDom;
     settleInDom := fun _ _ => None;
     saveInHistory := fun _ => None;
     pushInHistory := fun _ _ => None;
     replaceInHistory := fun _ _ => None;
     globalViewTransitions := false;
     hasStartViewTransition := false |}.

(** [<htmx trigger='{"a":{"target":"["}}'></htmx>] *)
Definition badTriggerTarget : node :=
  Element "htmx" [("trigger", jsonBadTarget)] [].

(** The state before the response arrives. *)
Definition fresh : state := mkState [] [] false.

(** The element that issued the request. *)
Definition button : live := LiveElement 7.

End Demo.

(** * The helpers copied from htmx

    The second half of [server-commands.js] ("borrowed from htmx internal
    API") holds the functions [swapAsync] and the history actions rely
    on.  The ones below work on strings and attribute lists only. *)

Module Htmx.

(** ** Strings *)

(** [str.substring(start)]: a negative [start] counts as 0. *)
Definition substringFrom (str : string) (start : Z) : string :=
  let from := Z.to_nat (Z.max 0 start) in
  String.substring from (String.length str - from) str.

(** [str.slice(start, stop)] and [str.slice(start)] for positions that
    are not negative. *)
Definition slice (str : string) (start stop : nat) : string :=
  String.substring start (stop - start) str.

Definition sliceFrom (str : string) (start : nat) : string :=
  String.substring start (String.length str - start) str.

(** [str.indexOf(sub)]: -1 when [sub] does not occur. *)
Definition indexOf (str sub : string) : Z :=
  match String.index 0 sub str with
  | Some n => Z.of_nat n
  | None => (-1)%Z
  end.

(** [str.substring(0, prefix.length) === prefix] *)
Definition startsWith (str prefix : string) : bool :=
  String.eqb (String.substring 0 (String.length prefix) str) prefix.

(** [str.substring(str.length - suffix.length) === suffix] *)
Definition endsWith (str suffix : string) : bool :=
  String.eqb
    (substringFrom str
       (Z.of_nat (String.length str) - Z.of_nat (String.length suffix)))
    suffix.

(** ** The [hx-on] attributes *)

(** The test of the loop of [shouldProcessHxOn] on one attribute name. *)
Definition isHxOnName (attrName : string) : bool :=
  startsWith attrName "hx-on:" || startsWith attrName "data-hx-on:"
  || startsWith attrName "hx-on-" || startsWith attrName "data-hx-on-".

(** [asElement(node)] is [null] for a text node. *)
Definition shouldProcessHxOn (n : node) : bool :=
  match n with
  | Text _ => false
  | Element _ attributes _ =>
      existsb (fun kv => isHxOnName (fst kv)) attributes
  end.

(** The body of the loop of [processHxOnWildcard] for the attribute
    [name]: the event for which a handler is added, if any. *)
Definition hxOnEventName (name : string) : option string :=
  if startsWith name "hx-on" || startsWith name "data-hx-on" then
    let afterOnPosition := Z.to_nat (indexOf name "-on" + 3) in
    let nextChar := slice name afterOnPosition (afterOnPosition + 1) in
    if String.eqb nextChar "-" || String.eqb nextChar ":" then
      let eventName := sliceFrom name (afterOnPosition + 1) in
      Some (if startsWith eventName ":" then ("htmx" ++ eventName)%string
            else if startsWith eventName "-"
                 then ("htmx:" ++ sliceFrom eventName 1)%string
            else if startsWith eventName "htmx-"
                 then ("htmx:" ++ sliceFrom eventName 5)%string
            else eventName)
    else None
  else None.

(** [processHxOnWildcard(elt)]: the calls
    [addHxOnEventHandler(elt, eventName, value)] it makes, in the order
    of the attributes. *)
Definition processHxOnWildcard (elt : node) : list (string * string) :=
  flat_map (fun kv =>
              match hxOnEventName (fst kv) with
              | Some eventName => [(eventName, snd kv)]
              | None => []
              end)
           (attributesOf elt).

(** ** The attribute hash *)

(** [x | 0]: the 32-bit two's complement integer of [x]. *)
Definition toInt32 (x : Z) : Z := ((x + 2 ^ 31) mod 2 ^ 32 - 2 ^ 31)%Z.

(** [x << 5] *)
Definition shiftLeft5 (x : Z) : Z := toInt32 (Z.shiftl (toInt32 x) 5).

Definition charCode (c : ascii) : Z := Z.of_nat (nat_of_ascii c).

(** [stringHash(string, hash)]: one character of the model is one code
    unit of the JavaScript string. *)
Fixpoint stringHash (string : string) (hash : Z) : Z :=
  match string with
  | EmptyString => hash
  | String c rest =>
      stringHash rest (toInt32 (shiftLeft5 hash - hash + charCode c))
  end.

(** [attributeHash(elt)]: an attribute whose value is empty is passed
    over. *)
Definition attributeHash (elt : node) : Z :=
  fold_left
    (fun hash attribute =>
       if Str.isEmpty (snd attribute) then hash
       else stringHash (snd attribute) (stringHash (fst attribute) hash))
    (attributesOf elt) 0%Z.

(** The polynomial in 31 with the code units as coefficients, on the
    integers: [h] is the value carried in. *)
Fixpoint polynomial31 (s : string) (h : Z) : Z :=
  match s with
  | EmptyString => h
  | String c rest => polynomial31 rest (31 * h + charCode c)
  end.

(** The text [attributeHash] reads: the names and the values of the
    attributes whose value is not empty, one after the other. *)
Fixpoint hashedText (l : list (string * string)) : string :=
  match l with
  | [] => EmptyString
  | (name, value) :: r =>
      if Str.isEmpty value then hashedText r
      else (name ++ value ++ hashedText r)%string
  end.

(** ** Attribute lists of live elements *)

Definition attrs : Type := list (string * string).

Definition hasName (l : attrs) (name : string) : bool :=
  existsb (fun kv => String.eqb (fst kv) name) l.

(** [elt.removeAttribute(name)] *)
Definition removeAttribute (l : attrs) (name : string) : attrs :=
  filter (fun kv => negb (String.eqb (fst kv) name)) l.

(** [elt.setAttribute(name, value)]: the value of an attribute the
    element has is replaced where it stands, a new attribute comes
    last. *)
Fixpoint setAttribute (l : attrs) (name value : string) : attrs :=
  match l with
  | [] => [(name, value)]
  | (k, v) :: r =>
      if String.eqb k name then (k, value) :: r
      else (k, v) :: setAttribute r name value
  end.

(** The first loop of [cloneAttributes]:
    [forEach(mergeTo.attributes, attr => ...removeAttribute(attr.name))].
    [forEach] counts [i] up to the current length of the collection,
    and [mergeTo.attributes] is live: it shrinks while the loop runs.
    [fuel] bounds the number of rounds; the length of the list at the
    start is enough, since the loop only removes. *)
Fixpoint removeMissing (fuel i : nat) (mergeTo mergeFrom : attrs) : attrs :=
  match fuel with
  | O => mergeTo
  | S fuel' =>
      match nth_error mergeTo i with
      | None => mergeTo
      | Some attr =>
          if hasName mergeFrom (fst attr)
          then removeMissing fuel' (S i) mergeTo mergeFrom
          else removeMissing fuel' (S i)
                 (removeAttribute mergeTo (fst attr)) mergeFrom
      end
  end.

(** The second loop:
    [forEach(mergeFrom.attributes, attr => mergeTo.setAttribute(...))]. *)
Definition setAll (mergeFrom l : attrs) : attrs :=
  fold_left (fun l attr => setAttribute l (fst attr) (snd attr)) mergeFrom l.

(** [cloneAttributes(mergeTo, mergeFrom)]: the attributes of [mergeTo]
    afterwards. *)
Definition cloneAttributes (mergeTo mergeFrom : attrs) : attrs :=
  setAll mergeFrom (removeMissing (List.length mergeTo) 0 mergeTo mergeFrom).

(** What the first loop amounts to: after a removal the attribute that
    moves into the freed position is not looked at. *)
Fixpoint sweep (mergeFrom l : attrs) : attrs :=
  match l with
  | [] => []
  | a :: r =>
      if hasName mergeFrom (fst a) then a :: sweep mergeFrom r
      else match r with
           | [] => []
           | b :: r' => b :: sweep mergeFrom r'
           end
  end.

(** No two neighbours of [l] are both missing from [mergeFrom]. *)
Fixpoint noAdjacentMissing (mergeFrom l : attrs) : bool :=
  match l with
  | [] => true
  | a :: r =>
      (hasName mergeFrom (fst a)
       || match r with
          | [] => true
          | b :: _ => hasName mergeFrom (fst b)
          end)
      && noAdjacentMissing mergeFrom r
  end.

(** The attributes of [l] that [other] lacks. *)
Definition missingFrom (other l : attrs) : attrs :=
  filter (fun kv => negb (hasName other (fst kv))) l.

(** The second, the fourth, ... element. *)
Fixpoint everySecond {A : Type} (l : list A) : list A :=
  match l with
  | _ :: b :: r => b :: everySecond r
  | _ => []
  end.

(** [handleAttributes] for a new node and the old node of the same tag
    and id: [newAttributes = newNode.cloneNode()], then
    [cloneAttributes(newNode, oldNode)] at the swap, and the settle task
    [cloneAttributes(newNode, newAttributes)]. *)
Definition swappedInAttributes (newNode oldNode : attrs) : attrs :=
  cloneAttributes newNode oldNode.

Definition settledAttributes (newNode oldNode : attrs) : attrs :=
  let newAttributes := newNode in
  cloneAttributes (swappedInAttributes newNode oldNode) newAttributes.

End Htmx.

(** * The history helpers

    [saveCurrentPageToHistory], [pushUrlIntoHistory] and
    [replaceUrlInHistory] are what the [location], [push-url] and
    [replace-url] actions call.  They keep a cache of page snapshots in
    [sessionStorage] and remember the current path both in a variable
    and in [sessionStorage]. *)

Module History.

(** An entry of the history cache. *)
Record historyItem : Type := mkItem {
  url : string;
  content : string;
  title : string;
  scroll : Z
}.

(** What the helpers do to the page besides writing to the storage. *)
Inductive call : Type :=
| BeforeHistorySave (path : string)
    (* the event htmx:beforeHistorySave *)
| HistoryItemCreated (item : historyItem) (cache : list historyItem)
    (* the event htmx:historyItemCreated *)
| HistoryCacheError (cache : list historyItem)
    (* the error event htmx:historyCacheError *)
| PushState (url : string)
| ReplaceState (url : string).

(** The page and the configuration of htmx. *)
Record Page : Type := mkPage {
  historyCacheSize : Z;
  historyEnabled : bool;
  getCacheBusterParam : bool;
  storageWorks : bool;
    (* [canAccessLocalStorage()]: writing the test key succeeds *)
  storageAccepts : list historyItem -> bool;
    (* [sessionStorage.setItem] of the serialized cache succeeds *)
  parseURL : string -> option (string * string);
    (* [new URL(path, 'http://x')]: its pathname and search; [None]
       when it throws *)
  pathAndSearch : string -> string;
    (* [location.pathname + location.search] at a given [location.href] *)
  resolveURL : string -> string -> option string;
    (* the [location.href] after [pushState] or [replaceState] with a
       URL; [None] when the call throws *)
  documentTitle : string;
  scrollY : Z;
  historyElementHTML : string;
    (* [cleanInnerHtmlForHistory(getHistoryElement())] *)
  historyDisabled : bool;
    (* an element with [hx-history="false"] is on the page *)
  itemCreatedListeners :
    historyItem -> list historyItem -> historyItem * list historyItem
    (* what the listeners of htmx:historyItemCreated make of the item
       and of the cache they are handed *)
}.

(** The variable [currentPathForHistory], the two keys of
    [sessionStorage], [location.href], and the calls made so far. *)
Record browser : Type := mkBrowser {
  currentPathForHistory : string;
  storedPath : option string;
  storedCache : option (list historyItem);
  href : string;
  calls : list call
}.

(** A helper returns or throws. *)
Inductive result : Type :=
| Done (b : browser)
| Threw (b : browser).

Definition andThen (r : result) (k : browser -> result) : result :=
  match r with
  | Done b => k b
  | Threw b => Threw b
  end.

Definition record (c : call) (b : browser) : browser :=
  mkBrowser (currentPathForHistory b) (storedPath b) (storedCache b)
            (href b) (calls b ++ [c]).

Definition slash : ascii := ascii_of_nat 47.
Definition ampersand : ascii := ascii_of_nat 38.

(** [path.replace(/\/+$/, '')] *)
Fixpoint stripTrailingSlashes (path : string) : string :=
  match path with
  | EmptyString => EmptyString
  | String c r =>
      match stripTrailingSlashes r with
      | EmptyString =>
          if Ascii.eqb c slash then EmptyString else String c EmptyString
      | r' => String c r'
      end
  end.

Definition cacheBuster : string := "org.htmx.cache-buster=".

Fixpoint dropValue (s : string) : string :=
  match s with
  | EmptyString => EmptyString
  | String c r => if Ascii.eqb c ampersand then s else dropValue r
  end.

(** What is left of the text after the parameter name: the value
    ([[^&]*]) and one ampersand ([&?]) are dropped. *)
Definition afterParameter (s : string) : string :=
  match dropValue s with
  | String c r => if Ascii.eqb c ampersand then r else String c r
  | EmptyString => EmptyString
  end.

(** [path.replace(/org\.htmx\.cache-buster=[^&]*&?/, '')]: the first
    match is removed. *)
Definition removeCacheBuster (path : string) : string :=
  match String.index 0 cacheBuster path with
  | None => path
  | Some i =>
      (String.substring 0 i path
       ++ afterParameter
            (Htmx.sliceFrom path (i + String.length cacheBuster)))%string
  end.

(** The first block of [pushUrlIntoHistory]: the parameter is removed,
    and so is an ampersand or a question mark left at the end. *)
Definition withoutCacheBuster (path : string) : string :=
  let path := removeCacheBuster path in
  if Htmx.endsWith path "&" || Htmx.endsWith path "?"
  then Htmx.slice path 0 (String.length path - 1)
  else path.

(** No ampersand in [s]. *)
Fixpoint noAmpersand (s : string) : bool :=
  match s with
  | EmptyString => true
  | String c r => negb (Ascii.eqb c ampersand) && noAmpersand r
  end.

(** The [for] loop of [saveToHistoryCache]: the first entry with this
    URL is spliced out, and the loop ends there. *)
Fixpoint removeFirst (u : string) (historyCache : list historyItem)
  : list historyItem :=
  match historyCache with
  | [] => []
  | item :: r =>
      if String.eqb (url item) u then r else item :: removeFirst u r
  end.

(** [while (historyCache.length > size) historyCache.shift()] *)
Fixpoint shiftDownTo (size : Z) (historyCache : list historyItem)
  : list historyItem :=
  match historyCache with
  | [] => []
  | _ :: r =>
      if Z.ltb size (Z.of_nat (List.length historyCache))
      then shiftDownTo size r
      else historyCache
  end.

Section Helpers.

Variable page : Page.

(** [canAccessLocalStorage()] *)
Definition canAccessLocalStorage : bool := storageWorks page.

(** [normalizePath(path)]; [None] when [new URL] throws. *)
Definition normalizePath (path : string) : option string :=
  match parseURL page path with
  | None => None
  | Some (pathname, search) =>
      let path := (pathname ++ search)%string in
      Some (if String.eqb path "/" then path else stripTrailingSlashes path)
  end.

(** The last loop of [saveToHistoryCache]: the cache is written as it
    is, or without its oldest entries, as soon as the storage takes it;
    each refusal is reported and costs the oldest entry. *)
Fixpoint storeCache (historyCache : list historyItem) (b : browser)
  : browser :=
  match historyCache with
  | [] => b
  | _ :: r =>
      if storageAccepts page historyCache
      then mkBrowser (currentPathForHistory b) (storedPath b)
                     (Some historyCache) (href b) (calls b)
      else storeCache r (record (HistoryCacheError historyCache) b)
  end.

(** [saveToHistoryCache(url, rootElt)] *)
Definition saveToHistoryCache (u : string) (b : browser) : result :=
  if negb canAccessLocalStorage then Done b
  else
    let innerHTML := historyElementHTML page in
    let title := documentTitle page in
    let scroll := scrollY page in
    if Z.leb (historyCacheSize page) 0 then
      Done (mkBrowser (currentPathForHistory b) (storedPath b) None
                      (href b) (calls b))
    else
      match normalizePath u with
      | None => Threw b
      | Some u =>
          let historyCache :=
            removeFirst u
              (match storedCache b with Some c => c | None => [] end) in
          let newHistoryItem := mkItem u innerHTML title scroll in
          let heard := itemCreatedListeners page newHistoryItem historyCache in
          let b := record (HistoryItemCreated newHistoryItem historyCache) b in
          let historyCache := snd heard ++ [fst heard] in
          let historyCache := shiftDownTo (historyCacheSize page) historyCache in
          Done (storeCache historyCache b)
      end.

(** [saveCurrentPageToHistory()] *)
Definition saveCurrentPageToHistory (b : browser) : result :=
  let path := Some (currentPathForHistory b) in
  let path := if canAccessLocalStorage then storedPath b else path in
  let path := orElse path (pathAndSearch page (href b)) in
  andThen
    (if negb (historyDisabled page)
     then saveToHistoryCache path (record (BeforeHistorySave path) b)
     else Done b)
    (fun b =>
       Done (if historyEnabled page then record (ReplaceState (href b)) b
             else b)).

(** [setCurrentPathForHistory(path)] *)
Definition setCurrentPathForHistory (path : string) (b : browser) : browser :=
  mkBrowser path
            (if canAccessLocalStorage then Some path else storedPath b)
            (storedCache b) (href b) (calls b).

(** [history.pushState({htmx: true}, '', url)] and
    [history.replaceState({htmx: true}, '', url)] *)
Definition historyState (c : string -> call) (u : string) (b : browser)
  : result :=
  match resolveURL page (href b) u with
  | None => Threw b
  | Some href' =>
      Done (mkBrowser (currentPathForHistory b) (storedPath b)
                      (storedCache b) href' (calls b ++ [c u]))
  end.

(** [pushUrlIntoHistory(path)] for a path that is a string. *)
Definition pushUrlIntoHistory (path : string) (b : browser) : result :=
  let path :=
    if getCacheBusterParam page then withoutCacheBuster path else path in
  andThen
    (if historyEnabled page then historyState PushState path b else Done b)
    (fun b => Done (setCurrentPathForHistory path b)).

(** [replaceUrlInHistory(path)] *)
Definition replaceUrlInHistory (path : string) (b : browser) : result :=
  andThen
    (if historyEnabled page then historyState ReplaceState path b else Done b)
    (fun b => Done (setCurrentPathForHistory path b)).

End Helpers.

(** The caches the storage refused when the entries [dropped] had to go
    before [stored] was taken: each time the whole of what was left. *)
Fixpoint refusedCaches (dropped stored : list historyItem)
  : list (list historyItem) :=
  match dropped with
  | [] => []
  | _ :: r => (dropped ++ stored) :: refusedCaches r stored
  end.

(** The browser a helper leaves. *)
Definition browserOf (r : result) : browser :=
  match r with Done b | Threw b => b end.

(** A page for the examples: a cache of two snapshots, a storage that
    takes at most two entries, and URLs cut at the question mark. *)
Module Demo.

Fixpoint cutAtQuery (s : string) : string * string :=
  match s with
  | EmptyString => (EmptyString, EmptyString)
  | String c r =>
      if Ascii.eqb c (ascii_of_nat 63) then (EmptyString, s)
      else (String c (fst (cutAtQuery r)), snd (cutAtQuery r))
  end.

Definition page : Page :=
  mkPage 2 true true true
         (fun c => Nat.leb (List.length c) 2)
         (fun p => Some (cutAtQuery p))
         (fun href => href)
         (fun _ u => Some u)
         "Title" 0 "<p>now</p>" false
         (fun item cache => (item, cache)).

Definition start : browser :=
  mkBrowser "/start" (Some "/start")
            (Some [mkItem "/a" "<p>a</p>" "A" 0; mkItem "/b" "<p>b</p>" "B" 0])
            "/start" [].

End Demo.

End History.

(** * Pages whose listeners intervene *)

Module Pages.

(** The page of [Demo] with other listeners. *)
Definition withListeners
           (dispatch : list effect -> live -> string -> detail -> bool)
           (beforeSwap : list effect -> beforeSwapDetails -> beforeSwapDetails)
  : Host :=
  {| makeFragment := makeFragment Demo.page;
     innerHTML := innerHTML Demo.page;
     JSON_parse := JSON_parse Demo.page;
     documentQuerySelector := documentQuerySelector Demo.page;
     dispatchEvent := dispatch;
     beforeSwapListeners := beforeSwap;
     getSwapSpecification := getSwapSpecification Demo.page;
     swapInDom := swapInDom Demo.page;
     settleInDom := settleInDom Demo.page;
     saveInHistory := saveInHistory Demo.page;
     pushInHistory := pushInHistory Demo.page;
     replaceInHistory := replaceInHistory Demo.page;
     globalViewTransitions := false;
     hasStartViewTransition := false |}.

(** A listener cancels every htmx:beforeServerCommand. *)
Definition cancelling : Host :=
  withListeners
    (fun _ _ name _ => negb (String.eqb name "htmx:beforeServerCommand"))
    (fun _ d => d).

(** A listener cancels every htmx:beforeSwap. *)
Definition vetoing : Host :=
  withListeners
    (fun _ _ name _ => negb (String.eqb name "htmx:beforeSwap"))
    (fun _ d => d).

(** A listener of htmx:beforeSwap sends every swap to another element,
    with another content and without settle delay. *)
Definition elsewhere : live := LiveElement 2.

Definition retargeting : Host :=
  withListeners
    (fun _ _ _ _ => true)
    (fun _ d =>
       mkBeforeSwap (bs_elt d) elsewhere (mkSwapSpec "innerHTML" 0 0 None)
                    "rewritten" true).

(** A page that reads the JSON texts [5] and [["a","b"]]. *)
Definition names : string :=
  ("[" ++ Demo.q "a" ++ "," ++ Demo.q "b" ++ "]")%string.

Definition parsing : Host :=
  {| makeFragment := makeFragment Demo.page;
     innerHTML := innerHTML Demo.page;
     JSON_parse :=
       fun text =>
         if String.eqb text "5" then Some (JNumber 5)
         else if String.eqb text names
              then Some (JArray [JString "a"; JString "b"])
         else None;
     documentQuerySelector := documentQuerySelector Demo.page;
     dispatchEvent := fun _ _ _ _ => true;
     beforeSwapListeners := fun _ d => d;
     getSwapSpecification := getSwapSpecification Demo.page;
     swapInDom := swapInDom Demo.page;
     settleInDom := settleInDom Demo.page;
     saveInHistory := saveInHistory Demo.page;
     pushInHistory := pushInHistory Demo.page;
     replaceInHistory := replaceInHistory Demo.page;
     globalViewTransitions := false;
     hasStartViewTransition := false |}.

(** The page of [Demo] when a settle task throws. *)
Definition unsettled : Host :=
  {| makeFragment := makeFragment Demo.page;
     innerHTML := innerHTML Demo.page;
     JSON_parse := JSON_parse Demo.page;
     documentQuerySelector := documentQuerySelector Demo.page;
     dispatchEvent := dispatchEvent Demo.page;
     beforeSwapListeners := beforeSwapListeners Demo.page;
     getSwapSpecification := getSwapSpecification Demo.page;
     swapInDom := swapInDom Demo.page;
     settleInDom := fun _ _ => Some (HostError "ReferenceError");
     saveInHistory := saveInHistory Demo.page;
     pushInHistory := pushInHistory Demo.page;
     replaceInHistory := replaceInHistory Demo.page;
     globalViewTransitions := false;
     hasStartViewTransition := false |}.

(** [<htmx target=#t swap=innerHTML trigger-after-swap=swapped>x</htmx>] *)
Definition swapInto : node :=
  Element "htmx"
    [("target", "#t"); ("swap", "innerHTML");
     ("trigger-after-swap", "swapped")]
    [Text "x"].

End Pages.

(** ** The effects of a pipeline up to its after-swap notification *)

(** What [processCommandFromElement] can do for the command [c] before
    it fires htmx:afterSwap, and when it fails before that. *)
Inductive swapStageEffect (c : command) (ctx : live) : effect -> Prop :=
| SS_beforeServerCommand :
    swapStageEffect c ctx
      (TriggerEvent ctx "htmx:beforeServerCommand" (CommandDetail c (Some ctx)))
| SS_targetError sel :
    swapStageEffect c ctx
      (TriggerErrorEvent ctx "htmx:targetError"
         (TargetErrorDetail (TargetDidNotMatch sel) sel))
| SS_beforeSwap t d :
    swapStageEffect c ctx (TriggerEvent t "htmx:beforeSwap" (BeforeSwapDetail d))
| SS_beforeTransition :
    swapStageEffect c ctx
      (TriggerEvent ctx "htmx:beforeTransition" (EventInfo ctx))
| SS_swapError :
    swapStageEffect c ctx
      (TriggerErrorEvent ctx "htmx:swapError" (EventInfo ctx))
| SS_domSwap t content spec select :
    swapStageEffect c ctx (DomSwap t content spec select)
| SS_domSettle t : swapStageEffect c ctx (DomSettle t)
| SS_commandError e :
    swapStageEffect c ctx
      (TriggerErrorEvent DocumentBody "htmx:serverCommandError"
         (CommandErrorDetail e c)).

(** The events fired at the document body for the entries [l], each
    with its value as detail. *)
Definition plainEvents (l : list (string * json)) : list effect :=
  map (fun kv => TriggerEvent DocumentBody (fst kv) (Payload (snd kv))) l.

(** The DOM work of a swap. *)
Definition domWork (e : effect) : bool :=
  match e with
  | DomSwap _ _ _ _ | DomSettle _ => true
  | _ => false
  end.

(** * The superseded variant

    The file ends with the earlier version of the extension.  Its
    validation reads the attributes through htmx's [api.hasAttribute],
    which also accepts the [data-] spelling. *)

Module Legacy.

(** htmx's [api.hasAttribute(elt, name)]:
    [elt.hasAttribute(name) || elt.hasAttribute('data-' + name)]. *)
Definition apiHasAttribute (el : node) (name : string) : bool :=
  hasAttribute el name || hasAttribute el ("data-" ++ name)%string.

Definition invalidCombination (el : node) : list violation :=
  let hasSwapOrSelect :=
    apiHasAttribute el "swap" || apiHasAttribute el "select" in
  let hasTarget := apiHasAttribute el "target" in
  if hasSwapOrSelect && negb hasTarget then [SwapOrSelectRequiresTarget]
  else [].

(** [validateCommandElement(element)] of the superseded variant. *)
Definition validateCommandElement (element : node) : option error :=
  let hasCommandAttribute :=
    existsb (fun kv => isValidAttribute (fst kv)) (attributesOf element) in
  if negb hasCommandAttribute then Some (NoCommandAttributes element)
  else
    let errors := unknownAttributes element ++ invalidCombination element in
    if Nat.ltb 0 (List.length errors)
    then Some (ValidationErrors element errors)
    else None.

End Legacy.

(** * The swap procedures

    [swapWithStyle] and the procedures it selects move the nodes of the
    parsed content into the document, next to the target or into it.
    The model follows the nodes themselves: a node keeps its identity
    when it is moved, and the document is seen from the target (its
    child nodes, and the siblings before and after it).  What the
    procedures do to the attributes and to htmx's own bookkeeping is
    recorded as calls.  The listeners of htmx:beforeCleanupElement are
    taken not to touch the document, and [htmx.config.addedClass] to be
    a class name that [classList.add] accepts. *)

Module Swap.

Inductive kind : Type :=
| ElementNode (tagName : string)
| TextNode
| CommentNode
| OtherNode.
    (* any other node, such as a processing instruction *)

(** A node of the document or of the parsed content. *)
Inductive dnode : Type :=
| DNode (id : nat) (k : kind) (childNodes : list dnode).

Definition idOf (n : dnode) : nat := match n with DNode i _ _ => i end.
Definition kindOf (n : dnode) : kind := match n with DNode _ k _ => k end.
Definition childNodesOf (n : dnode) : list dnode :=
  match n with DNode _ _ c => c end.

(** [node instanceof Element] *)
Definition isElement (n : dnode) : bool :=
  match kindOf n with ElementNode _ => true | _ => false end.

Inductive call : Type :=
| AddClass (id : nat)
    (* [addClassToElement(child, htmx.config.addedClass)] on an element *)
| CleanUp (id : nat).
    (* htmx:beforeCleanupElement and [deInitNode] *)

(** The settle tasks: the attribute tasks of [handleAttributes], and
    [makeAjaxLoadTask(child)]. *)
Inductive task : Type :=
| RestoreAttributes (id : nat)
| Load (id : nat).

(** The target in its place, [settleInfo], and the calls made. *)
Record world : Type := mkWorld {
  parentElt : option nat;
    (* [parentElt(target)]: the parent element or shadow root *)
  previousSiblings : list dnode;
  target : dnode;
  removed : bool;
    (* the target has been taken out of its parent *)
  nextSiblings : list dnode;
  elts : list nat;
  tasks : list task;
  log : list call
}.

Inductive result : Type :=
| Returns (w : world)
| Throws (w : world).

(** What the search for the old nodes comes to: it returns, or a
    selector it builds is refused and [querySelector] throws; in both
    cases with the new nodes that have got an attribute task by then. *)
Inductive lookup : Type :=
| Found (newNodes : list nat)
| Failed (newNodes : list nat).

(** [cleanUpElement(element)]: the element, then its [children] (the
    child nodes that are elements), depth first. *)
Fixpoint cleanUpElement (element : dnode) : list call :=
  match element with
  | DNode i k c =>
      CleanUp i
      :: (fix each (l : list dnode) : list call :=
            match l with
            | [] => []
            | x :: r =>
                (if isElement x then cleanUpElement x else []) ++ each r
            end) c
  end.

Definition notTextOrComment (n : dnode) : bool :=
  match kindOf n with
  | TextNode | CommentNode => false
  | ElementNode _ | OtherNode => true
  end.

Section Procedures.

(** [handleAttributes(parentNode, fragment, settleInfo)] under a parent
    node: the new nodes for which it finds an old node of the same tag
    and id, each of which gets an attribute task. *)
Variable handleAttributes : nat -> list dnode -> lookup.

(** [htmx.config.defaultSwapStyle] *)
Variable defaultSwapStyle : string.

(** The loop of [insertNodesBefore]: the nodes of the fragment are
    moved one by one to the place before the reference node;
    [inserted] are those already there.  Without a parent node the
    first move throws. *)
Fixpoint moveNodes (parentNode : option nat) (fragment inserted : list dnode)
         (w : world) : list dnode * result :=
  match fragment with
  | [] => (inserted, Returns w)
  | child :: rest =>
      let w1 :=
        if isElement child
        then mkWorld (parentElt w) (previousSiblings w) (target w) (removed w)
                     (nextSiblings w) (elts w) (tasks w)
                     (log w ++ [AddClass (idOf child)])
        else w in
      match parentNode with
      | None => (inserted, Throws w1)
      | Some _ =>
          let w2 :=
            if notTextOrComment child
            then mkWorld (parentElt w1) (previousSiblings w1) (target w1)
                         (removed w1) (nextSiblings w1) (elts w1)
                         (tasks w1 ++ [Load (idOf child)]) (log w1)
            else w1 in
          moveNodes parentNode rest (inserted ++ [child]) w2
      end
  end.

(** [insertNodesBefore(parentNode, insertBefore, fragment, settleInfo)]:
    the nodes now standing before the reference node, in order. *)
Definition insertNodesBefore (parentNode : option nat)
           (fragment : list dnode) (w : world) : list dnode * result :=
  let withTasks (found : list nat) :=
    mkWorld (parentElt w) (previousSiblings w) (target w) (removed w)
            (nextSiblings w) (elts w)
            (tasks w ++ map RestoreAttributes found) (log w) in
  match match parentNode with
        | Some p => handleAttributes p fragment
        | None => Found []   (* nothing is looked up under [null] *)
        end with
  | Failed found => ([], Throws (withTasks found))
  | Found found => moveNodes parentNode fragment [] (withTasks found)
  end.

Definition withChildNodes (c : list dnode) (w : world) : world :=
  mkWorld (parentElt w) (previousSiblings w)
          (DNode (idOf (target w)) (kindOf (target w)) c)
          (removed w) (nextSiblings w) (elts w) (tasks w) (log w).

Definition withLog (l : list call) (w : world) : world :=
  mkWorld (parentElt w) (previousSiblings w) (target w) (removed w)
          (nextSiblings w) (elts w) (tasks w) (log w ++ l).

Definition withElts (e : list nat) (w : world) : world :=
  mkWorld (parentElt w) (previousSiblings w) (target w) (removed w)
          (nextSiblings w) e (tasks w) (log w).

Definition self (w : world) : option nat := Some (idOf (target w)).

(** [swapInnerHTML(target, fragment, settleInfo)] *)
Definition swapInnerHTML (fragment : list dnode) (w : world) : result :=
  let old := childNodesOf (target w) in
  match insertNodesBefore (self w) fragment w with
  | (_, Throws w') => Throws w'
  | (inserted, Returns w1) =>
      let w2 :=
        match old with
        | [] => withChildNodes inserted w1
        | firstChild :: siblings =>
            withChildNodes inserted
              (withLog (flat_map cleanUpElement siblings
                        ++ cleanUpElement firstChild) w1)
        end in
      Returns
        (if existsb (Nat.eqb (idOf (target w))) (elts w2) then w2
         else withElts (elts w2 ++ [idOf (target w)]) w2)
  end.

(** [swapOuterHTML(target, fragment, settleInfo)] *)
Definition swapOuterHTML (fragment : list dnode) (w : world) : result :=
  match kindOf (target w) with
  | ElementNode "BODY" => swapInnerHTML fragment w
  | _ =>
      match parentElt w with
      | None => Returns w
      | Some parentNode =>
          match insertNodesBefore (Some parentNode) fragment w with
          | (_, Throws w') => Throws w'
          | (inserted, Returns w1) =>
              let settled :=
                filter (fun e => negb (Nat.eqb e (idOf (target w))))
                       (elts w1)
                ++ map idOf (filter isElement inserted) in
              Returns
                (mkWorld (parentElt w1) (previousSiblings w1 ++ inserted)
                         (target w1) true (nextSiblings w1) settled
                         (tasks w1)
                         (log w1 ++ cleanUpElement (target w1)))
          end
      end
  end.

(** [swapAfterBegin(target, fragment, settleInfo)] *)
Definition swapAfterBegin (fragment : list dnode) (w : world) : result :=
  match insertNodesBefore (self w) fragment w with
  | (_, Throws w') => Throws w'
  | (inserted, Returns w1) =>
      Returns (withChildNodes (inserted ++ childNodesOf (target w)) w1)
  end.

(** [swapBeforeBegin(target, fragment, settleInfo)] *)
Definition swapBeforeBegin (fragment : list dnode) (w : world) : result :=
  match insertNodesBefore (parentElt w) fragment w with
  | (_, Throws w') => Throws w'
  | (inserted, Returns w1) =>
      Returns
        (mkWorld (parentElt w1) (previousSiblings w1 ++ inserted) (target w1)
                 (removed w1) (nextSiblings w1) (elts w1) (tasks w1) (log w1))
  end.

(** [swapBeforeEnd(target, fragment, settleInfo)] *)
Definition swapBeforeEnd (fragment : list dnode) (w : world) : result :=
  match insertNodesBefore (self w) fragment w with
  | (_, Throws w') => Throws w'
  | (inserted, Returns w1) =>
      Returns (withChildNodes (childNodesOf (target w) ++ inserted) w1)
  end.

(** [swapAfterEnd(target, fragment, settleInfo)] *)
Definition swapAfterEnd (fragment : list dnode) (w : world) : result :=
  match insertNodesBefore (parentElt w) fragment w with
  | (_, Throws w') => Throws w'
  | (inserted, Returns w1) =>
      Returns
        (mkWorld (parentElt w1) (previousSiblings w1) (target w1)
                 (removed w1) (inserted ++ nextSiblings w1) (elts w1)
                 (tasks w1) (log w1))
  end.

(** [swapDelete(target)] *)
Definition swapDelete (w : world) : result :=
  let w1 := withLog (cleanUpElement (target w)) w in
  Returns
    (match parentElt w1 with
     | Some _ =>
         mkWorld (parentElt w1) (previousSiblings w1) (target w1) true
                 (nextSiblings w1) (elts w1) (tasks w1) (log w1)
     | None => w1
     end).

(** [swapWithStyle(swapStyle, elt, target, fragment, settleInfo)].
    [getExtensions] is a mock that returns no extension, so the loop
    over the extensions does nothing; a style that is not known is
    handed over to the default style by a call of the function itself.
    [room] is the number of such calls the call stack still has room
    for: when there is none the engine throws a [RangeError], and
    nothing has been done. *)
Fixpoint swapWithStyle (room : nat) (swapStyle : string)
         (fragment : list dnode) (w : world) : result :=
  if String.eqb swapStyle "none" then Returns w
  else if String.eqb swapStyle "outerHTML" then swapOuterHTML fragment w
  else if String.eqb swapStyle "afterbegin" then swapAfterBegin fragment w
  else if String.eqb swapStyle "beforebegin" then swapBeforeBegin fragment w
  else if String.eqb swapStyle "beforeend" then swapBeforeEnd fragment w
  else if String.eqb swapStyle "afterend" then swapAfterEnd fragment w
  else if String.eqb swapStyle "delete" then swapDelete w
  else if String.eqb swapStyle "innerHTML" then swapInnerHTML fragment w
  else
    match room with
    | O => Throws w
    | S room' => swapWithStyle room' defaultSwapStyle fragment w
    end.

End Procedures.

(** The calls and the tasks that come with the insertion of a
    fragment: the class added to its elements, and a load task for each
    node that is neither a text nor a comment. *)
Definition classCalls (fragment : list dnode) : list call :=
  map (fun n => AddClass (idOf n)) (filter isElement fragment).

Definition loadTasks (fragment : list dnode) : list task :=
  map (fun n => Load (idOf n)) (filter notTextOrComment fragment).

(** The styles [swapWithStyle] has a procedure for. *)
Definition knownStyles : list string :=
  [ "none"; "outerHTML"; "afterbegin"; "beforebegin"; "beforeend";
    "afterend"; "delete"; "innerHTML" ].

Definition isKnownStyle (swapStyle : string) : bool :=
  existsb (String.eqb swapStyle) knownStyles.

(** The child nodes of the parent of the target, as far as they are
    seen from the target. *)
Definition siblingsAndSelf (w : world) : list dnode :=
  previousSiblings w ++ (if removed w then [] else [target w])
  ++ nextSiblings w.

(** An example: a list with two items and a text between them, under a
    section, and a fragment with an element and a text. *)
Module Demo.

Definition item1 : dnode := DNode 11 (ElementNode "LI") [DNode 12 TextNode []].
Definition gap : dnode := DNode 13 TextNode [].
Definition item2 : dnode := DNode 14 (ElementNode "LI") [].
Definition menu : dnode := DNode 10 (ElementNode "UL") [item1; gap; item2].
Definition heading : dnode := DNode 9 (ElementNode "H1") [].
Definition footer : dnode := DNode 15 (ElementNode "P") [].

Definition start : world :=
  mkWorld (Some 1) [heading] menu false [footer] [10] [] [].

(** The same list without a parent element. *)
Definition orphan : world :=
  mkWorld None [] menu false [] [10] [] [].

Definition newItem : dnode := DNode 21 (ElementNode "LI") [].
Definition newText : dnode := DNode 22 TextNode [].
Definition content : list dnode := [newItem; newText].

(** No old node has the tag and id of a new one. *)
Definition nothingFound (_ : nat) (_ : list dnode) : lookup := Found [].

End Demo.

End Swap.

(** * Reasoning about computations *)

(** ** What a computation may add to the state *)

Section Footprint.

Variable P : effect -> Prop.
Variable Q : jsval -> Prop.

Lemma footprint_same {A} (m : M A) :
  (forall s, snd (m s) = s) -> footprint P Q m.
Proof.
  intros E s. exists [], []. rewrite E, !app_nil_r. auto.
Qed.

Lemma footprint_ret {A} (a : A) : footprint P Q (ret a).
Proof. apply footprint_same. reflexivity. Qed.

Lemma footprint_throw {A} (e : error) : footprint P Q (@throw A e).
Proof. apply footprint_same. reflexivity. Qed.

Lemma footprint_stall {A} : footprint P Q (@stall A).
Proof. apply footprint_same. reflexivity. Qed.

Lemma footprint_ask {A} (f : list effect -> A) : footprint P Q (ask f).
Proof. apply footprint_same. reflexivity. Qed.

Lemma footprint_readMarkersRemoved : footprint P Q readMarkersRemoved.
Proof. apply footprint_same. reflexivity. Qed.

Lemma footprint_orThrow (r : option error) : footprint P Q (orThrow r).
Proof. apply footprint_same. now destruct r. Qed.

Lemma footprint_emit (e : effect) : P e -> footprint P Q (emit e).
Proof.
  intros He s. exists [e], []. cbn. rewrite app_nil_r.
  repeat split; auto.
Qed.

Lemma footprint_registerThen (p : jsval) :
  Q p -> footprint P Q (registerThen p).
Proof.
  intros Hp s. exists [], [p]. cbn. rewrite app_nil_r.
  repeat split; auto.
Qed.

(** Two steps in sequence, whatever passes from one to the other. *)
Lemma footprint_then (s s1 s2 : state) :
  (exists d ps, trace s1 = trace s ++ d /\ Forall P d /\
                thens s1 = thens s ++ ps /\ Forall Q ps /\
                markersRemoved s1 = markersRemoved s) ->
  (exists d ps, trace s2 = trace s1 ++ d /\ Forall P d /\
                thens s2 = thens s1 ++ ps /\ Forall Q ps /\
                markersRemoved s2 = markersRemoved s1) ->
  exists d ps, trace s2 = trace s ++ d /\ Forall P d /\
               thens s2 = thens s ++ ps /\ Forall Q ps /\
               markersRemoved s2 = markersRemoved s.
Proof.
  intros (d1 & p1 & T1 & F1 & U1 & G1 & R1) (d2 & p2 & T2 & F2 & U2 & G2 & R2).
  exists (d1 ++ d2), (p1 ++ p2).
  rewrite T2, T1, U2, U1, R2, R1, !app_assoc.
  repeat split; auto using Forall_app; apply Forall_app; auto.
Qed.

Lemma footprint_bind {A B} (m : M A) (k : A -> M B) :
  footprint P Q m -> (forall a, footprint P Q (k a)) ->
  footprint P Q (bind m k).
Proof.
  intros Hm Hk s. unfold bind.
  specialize (Hm s). destruct (m s) as [[a | e | ] s1]; cbn in *; auto.
  eapply footprint_then; eauto. apply Hk.
Qed.

Lemma footprint_tryCatch {A} (m : M A) (handler : error -> M A) :
  footprint P Q m -> (forall e, footprint P Q (handler e)) ->
  footprint P Q (tryCatch m handler).
Proof.
  intros Hm Hk s. unfold tryCatch.
  specialize (Hm s). destruct (m s) as [[a | e | ] s1]; cbn in *; auto.
  eapply footprint_then; eauto. apply Hk.
Qed.

Lemma footprint_forEach {A} (l : list A) (body : A -> M unit) :
  (forall x, In x l -> footprint P Q (body x)) ->
  footprint P Q (forEach l body).
Proof.
  induction l as [| x r IH]; intros Hb; cbn.
  - apply footprint_ret.
  - apply footprint_bind.
    + apply Hb. now left.
    + intros _. apply IH. intros y Hy. apply Hb. now right.
Qed.

End Footprint.

(** A stronger description of the effects gives a weaker one. *)
Lemma footprint_weaken {A} (P P' : effect -> Prop) (Q Q' : jsval -> Prop)
      (m : M A) :
  (forall e, P e -> P' e) -> (forall p, Q p -> Q' p) ->
  footprint P Q m -> footprint P' Q' m.
Proof.
  intros HP HQ Hm s. destruct (Hm s) as (d & ps & T & F & U & G & R).
  exists d, ps. repeat split; auto.
  - eapply Forall_impl; eauto.
  - eapply Forall_impl; eauto.
Qed.

(** ** How a computation may end *)

Lemma returns_neverThrows {A} (m : M A) : returns m -> neverThrows m.
Proof. intros H s e E. destruct (H s) as [a Ha]. congruence. Qed.

Lemma returns_neverStalls {A} (m : M A) : returns m -> neverStalls m.
Proof. intros H s E. destruct (H s) as [a Ha]. congruence. Qed.

Lemma returns_ret {A} (a : A) : returns (ret a).
Proof. intros s. now exists a. Qed.

Lemma returns_emit (e : effect) : returns (emit e).
Proof. intros s. now exists tt. Qed.

Lemma returns_ask {A} (f : list effect -> A) : returns (ask f).
Proof. intros s. now eexists. Qed.

Lemma returns_registerThen (p : jsval) : returns (registerThen p).
Proof. intros s. now exists tt. Qed.

Lemma returns_bind {A B} (m : M A) (k : A -> M B) :
  returns m -> (forall a, returns (k a)) -> returns (bind m k).
Proof.
  intros Hm Hk s. unfold bind. destruct (Hm s) as [a Ha].
  destruct (m s) as [[a' | e | ] s1]; cbn in Ha; try discriminate.
  apply Hk.
Qed.

Lemma returns_forEach {A} (l : list A) (body : A -> M unit) :
  (forall x, returns (body x)) -> returns (forEach l body).
Proof.
  intros Hb. induction l as [| x r IH]; cbn.
  - apply returns_ret.
  - apply returns_bind; auto.
Qed.

Lemma neverStalls_ret {A} (a : A) : neverStalls (ret a).
Proof. intros s. discriminate. Qed.

Lemma neverStalls_throw {A} (e : error) : neverStalls (@throw A e).
Proof. intros s. discriminate. Qed.

Lemma neverStalls_bind {A B} (m : M A) (k : A -> M B) :
  neverStalls m -> (forall a, neverStalls (k a)) -> neverStalls (bind m k).
Proof.
  intros Hm Hk s. unfold bind. specialize (Hm s).
  destruct (m s) as [[a | e | ] s1]; cbn in *; solve [congruence | apply Hk].
Qed.

Lemma neverStalls_tryCatch {A} (m : M A) (handler : error -> M A) :
  neverStalls m -> (forall e, neverStalls (handler e)) ->
  neverStalls (tryCatch m handler).
Proof.
  intros Hm Hk s. unfold tryCatch. specialize (Hm s).
  destruct (m s) as [[a | e | ] s1]; cbn in *; solve [congruence | apply Hk].
Qed.

(** A [try] whose handler returns leaves nothing thrown. *)
Lemma neverThrows_tryCatch {A} (m : M A) (handler : error -> M A) :
  (forall e, neverThrows (handler e)) -> neverThrows (tryCatch m handler).
Proof.
  intros Hk s e. unfold tryCatch.
  destruct (m s) as [[a | e' | ] s1]; cbn; solve [congruence | apply Hk].
Qed.

(** A [try] around a body that cannot stall, with a handler that
    returns, returns. *)
Lemma returns_tryCatch {A} (m : M A) (handler : error -> M A) :
  neverStalls m -> (forall e, returns (handler e)) ->
  returns (tryCatch m handler).
Proof.
  intros Hm Hk s. unfold tryCatch. specialize (Hm s).
  destruct (m s) as [[a | e | ] s1]; cbn in *;
    solve [congruence | now exists a | apply Hk].
Qed.

(** * The parsed tree *)

Lemma select_node_Element (p : path) (t : string)
      (a : list (string * string)) (c : list node) :
  select_node p (Element t a c) =
  (if String.eqb t "htmx" then [(p, Element t a c)] else [])
    ++ select_children p 0 c.
Proof.
  cbn [select_node]. f_equal.
  generalize 0. induction c as [| x r IH]; intros i; cbn.
  - reflexivity.
  - now rewrite IH.
Qed.

Lemma removeMarkers_Element (t : string) (a : list (string * string))
      (c : list node) :
  removeMarkers (Element t a c) = Element t a (removeMarkersList c).
Proof. reflexivity. Qed.

Lemma is_htmx_removeMarkers (n : node) :
  is_htmx (removeMarkers n) = is_htmx n.
Proof. destruct n; [reflexivity | now rewrite removeMarkers_Element]. Qed.

(** Once the markers are removed, a node that is not itself a marker
    contains none. *)
Lemma select_node_removeMarkers (n : node) :
  forall p, is_htmx n = false -> select_node p (removeMarkers n) = [].
Proof.
  induction n as [s | t a c IH] using node_induction; intros p Hn.
  - reflexivity.
  - rewrite removeMarkers_Element, select_node_Element.
    cbn in Hn. rewrite Hn. cbn [app].
    generalize 0. induction IH as [| x r Hx _ IHr]; intros i; cbn.
    + reflexivity.
    + destruct (is_htmx x) eqn:Ex.
      * apply IHr.
      * cbn. rewrite Hx by reflexivity. apply IHr.
Qed.

Lemma select_children_removeMarkersList (l : list node) :
  forall p i, select_children p i (removeMarkersList l) = [].
Proof.
  induction l as [| x r IH]; intros p i; cbn.
  - reflexivity.
  - destruct (is_htmx x) eqn:Ex.
    + (* the positions shift, the result stays empty *)
      apply IH.
    + cbn. rewrite select_node_removeMarkers by assumption. apply IH.
Qed.

(** No marker is left at any depth of the fragment that is
    serialized. *)
Lemma querySelectorAll_removeMarkersList (f : fragment) :
  querySelectorAll (removeMarkersList f) = [].
Proof. apply select_children_removeMarkersList. Qed.

(** Every marker found below a node lies at least as deep as the
    node. *)
Lemma select_node_depth (n : node) :
  forall p c, In c (select_node p n) ->
              c = (p, n) \/ length p < length (fst c).
Proof.
  induction n as [s | t a ch IH] using node_induction; intros p c Hc.
  - destruct Hc.
  - rewrite select_node_Element in Hc. apply in_app_or in Hc.
    destruct Hc as [Hc | Hc].
    + destruct (String.eqb t "htmx"); [| destruct Hc].
      destruct Hc as [<- | []]. now left.
    + right. revert Hc. generalize 0.
      induction IH as [| x r Hx _ IHr]; intros i Hc; cbn in Hc.
      * destruct Hc.
      * apply in_app_or in Hc. destruct Hc as [Hc | Hc].
        -- apply Hx in Hc. destruct Hc as [-> | Hc]; cbn.
           ++ rewrite length_app. cbn. lia.
           ++ rewrite length_app in Hc. cbn in Hc. lia.
        -- eapply IHr; eauto.
Qed.

Lemma filter_none {A} (f : A -> bool) (l : list A) :
  (forall x, In x l -> f x = false) -> filter f l = [].
Proof.
  intros H. rewrite (filter_ext_in f (fun _ => false) l H).
  apply filter_false.
Qed.

Lemma select_children_depth (l : list node) :
  forall p i c, In c (select_children p i l) -> length p < length (fst c).
Proof.
  induction l as [| x r IH]; intros p i c Hc; cbn in Hc.
  - destruct Hc.
  - apply in_app_or in Hc. destruct Hc as [Hc | Hc].
    + apply select_node_depth in Hc. destruct Hc as [-> | Hc]; cbn.
      * rewrite length_app. cbn. lia.
      * rewrite length_app in Hc. cbn in Hc. lia.
    + eapply IH; eauto.
Qed.

Lemma filter_top_of_node (n : node) (i : nat) :
  filter parentIsFragment (select_node [i] n) =
  if is_htmx n then [([i], n)] else [].
Proof.
  destruct n as [s | t a c]; [reflexivity |].
  rewrite select_node_Element, filter_app. cbn [is_htmx].
  rewrite (filter_none _ (select_children [i] 0 c)).
  - rewrite app_nil_r. destruct (String.eqb t "htmx"); reflexivity.
  - intros x Hx. apply select_children_depth in Hx.
    unfold parentIsFragment. apply Nat.eqb_neq. cbn in Hx. lia.
Qed.

(** The filter of [transformResponse] keeps exactly the markers that are
    children of the fragment root, in document order. *)
Lemma topLevel_childMarkers (f : fragment) :
  filter parentIsFragment (querySelectorAll f) = childMarkers 0 f.
Proof.
  unfold querySelectorAll. generalize 0.
  induction f as [| x r IH]; intros i; cbn.
  - reflexivity.
  - rewrite filter_app, IH. f_equal. apply filter_top_of_node.
Qed.

(** * The effects of one pipeline *)

Create HintDb pipeline.
#[export] Hint Constructors pipelineEffect : pipeline.
#[export] Hint Resolve footprint_ret footprint_throw footprint_stall
  footprint_ask footprint_readMarkersRemoved footprint_emit
  footprint_registerThen footprint_orThrow : pipeline.

(** One step through a computation written with the monad. *)
Ltac footprint_step :=
  lazymatch goal with
  | |- footprint _ _ (bind _ _) => apply footprint_bind; [| intros ?]
  | |- footprint _ _ (tryCatch _ _) => apply footprint_tryCatch; [| intros ?]
  | |- footprint _ _ (forEach _ _) => apply footprint_forEach; intros ? ?
  | |- footprint _ _ (match ?x with _ => _ end) => destruct x eqn:?
  | |- footprint _ _ _ => solve [eauto with pipeline]
  end.

Ltac footprint_auto := repeat footprint_step.

Section DispatcherFootprint.

Variable h : Host.
Variable P : effect -> Prop.
Variable Q : jsval -> Prop.
Hypothesis P_payload : forall t n j, P (TriggerEvent t n (Payload j)).
Hypothesis P_bare : forall n, P (TriggerEvent DocumentBody n NoDetail).
Hypothesis P_warn : forall j, P (ConsoleWarn (TriggerTargetNotFound j)).

Lemma footprint_triggerEvent (t : live) (n : string) (d : detail) :
  P (TriggerEvent t n d) -> footprint P Q (triggerEvent h t n d).
Proof. intros H. unfold triggerEvent. footprint_auto. Qed.

Lemma footprint_find (x : json) : footprint P Q (find h x).
Proof. unfold find. footprint_auto. Qed.

Lemma footprint_fireTrigger (entry : string * json) :
  footprint P Q (fireTrigger h entry).
Proof.
  unfold fireTrigger.
  footprint_auto;
    try (apply footprint_triggerEvent; auto);
    try apply footprint_find.
Qed.

Lemma footprint_fireNames (value : string) :
  footprint P Q (fireNames h value).
Proof.
  unfold fireNames.
  footprint_auto; apply footprint_triggerEvent; auto.
Qed.

Lemma footprint_handleTriggerAttribute (value : string) :
  footprint P Q (handleTriggerAttribute h value).
Proof.
  unfold handleTriggerAttribute.
  footprint_auto;
    solve [apply footprint_fireTrigger | apply footprint_fireNames].
Qed.

Lemma footprint_whenTrigger (el : node) (name : string) :
  footprint P Q (whenAttribute el name (handleTriggerAttribute h)).
Proof.
  unfold whenAttribute. footprint_auto. apply footprint_handleTriggerAttribute.
Qed.

End DispatcherFootprint.

Section PipelineFootprint.

Variable h : Host.
Variable c : command.
Variable ctx : live.
Variable swaps : bool.

Let P := pipelineEffect c ctx swaps.

Lemma footprint_pipeline_triggerEvent Q (t : live) (n : string) (d : detail) :
  P (TriggerEvent t n d) -> footprint P Q (triggerEvent h t n d).
Proof. intros H. unfold triggerEvent. footprint_auto. Qed.

Lemma footprint_pipeline_find Q (x : json) : footprint P Q (find h x).
Proof. unfold find. footprint_auto. Qed.

Lemma footprint_pipeline_whenTrigger Q (name : string) :
  footprint P Q (whenAttribute (snd c) name (handleTriggerAttribute h)).
Proof. apply footprint_whenTrigger; unfold P; auto with pipeline. Qed.

Lemma footprint_handleLocationAttribute (redirectPath : string) :
  hasAttribute (snd c) "location" = true ->
  footprint P (fromLocation c) (handleLocationAttribute h redirectPath).
Proof.
  intros H. unfold handleLocationAttribute, saveCurrentPageToHistory, P.
  footprint_auto.
Qed.

Lemma footprint_immediateActions :
  footprint P (fromLocation c) (immediateActions h (snd c)).
Proof.
  unfold immediateActions, P.
  footprint_auto; try apply footprint_pipeline_whenTrigger.
  - unfold whenAttribute. destruct (getAttribute (snd c) "location") eqn:E.
    + apply footprint_handleLocationAttribute. unfold hasAttribute.
      now rewrite E.
    + footprint_auto.
  - unfold whenAttribute, saveCurrentPageToHistory, pushUrlIntoHistory.
    footprint_auto.
  - unfold whenAttribute, saveCurrentPageToHistory, replaceUrlInHistory.
    footprint_auto.
Qed.

Lemma footprint_immediatePhase :
  footprint P (fromLocation c) (immediatePhase h c ctx).
Proof.
  unfold immediatePhase.
  footprint_auto;
    try apply footprint_immediateActions;
    try (apply footprint_pipeline_triggerEvent; unfold P; auto with pipeline).
Qed.

(** From the first [await] on, given the promises awaited there. *)
Lemma footprint_afterAwait (swapPromises : list promise) :
  (forall p, In p swapPromises ->
             footprint P (fromLocation c) (awaitSwap h p)) ->
  footprint P (fromLocation c) (afterFirstAwait h c ctx swapPromises).
Proof.
  intros H. unfold afterFirstAwait, immediatePhase.
  footprint_auto;
    try apply footprint_pipeline_whenTrigger;
    try apply footprint_immediateActions;
    try (apply footprint_pipeline_triggerEvent; unfold P; auto with pipeline).
Qed.

Lemma footprint_reportError Q (e : error) :
  footprint P Q (reportError c e).
Proof. unfold reportError, triggerErrorEvent, P. footprint_auto. Qed.

End PipelineFootprint.

(** Without a swap job nothing is awaited, and no effect of a swap
    occurs from the first [await] on. *)
Lemma footprint_afterFirstAwait_nil (h : Host) (c : command) (ctx : live) :
  footprint (pipelineEffect c ctx false) (fromLocation c)
            (afterFirstAwait h c ctx []).
Proof. apply footprint_afterAwait. intros p []. Qed.

Lemma footprint_processFromAwait_nil (h : Host) (c : command) (ctx : live) :
  footprint (pipelineEffect c ctx false) (fromLocation c)
            (processFromAwait h c ctx []).
Proof.
  unfold processFromAwait. apply footprint_tryCatch.
  - apply footprint_afterFirstAwait_nil.
  - intros e. apply footprint_reportError.
Qed.

Section SwapFootprint.

Variable h : Host.
Variable c : command.
Variable ctx : live.

Let P := pipelineEffect c ctx true.

Lemma footprint_doSwap Q t content spec select :
  footprint P Q (doSwap h t content spec select).
Proof. unfold doSwap, doSettle, P. footprint_auto. Qed.

Lemma footprint_swapAsync Q t content spec select :
  footprint P Q (swapAsync h t content spec select ctx).
Proof.
  unfold swapAsync, triggerErrorEvent.
  footprint_auto;
    try (apply footprint_pipeline_triggerEvent; unfold P; auto with pipeline);
    try apply footprint_doSwap; unfold P; footprint_auto.
Qed.

Lemma footprint_awaitSwap Q (p : promise) :
  footprint P Q (awaitSwap h p).
Proof. unfold awaitSwap, inCallback, doSettle, P. footprint_auto. Qed.

Lemma footprint_gatherSwapJobs Q :
  footprint P Q (gatherSwapJobs h c ctx).
Proof.
  unfold gatherSwapJobs, currentInnerHTML, triggerErrorEvent.
  footprint_auto; try apply footprint_pipeline_find; unfold P; footprint_auto.
Qed.

Lemma footprint_startSwapJobs Q jobs spec select :
  footprint P Q (startSwapJobs h jobs ctx spec select).
Proof.
  induction jobs as [| job rest IH]; cbn [startSwapJobs].
  - apply footprint_ret.
  - unfold triggerBeforeSwap.
    footprint_auto;
      try (apply footprint_pipeline_triggerEvent; unfold P; auto with pipeline);
      try apply footprint_swapAsync; try exact IH; unfold P; footprint_auto.
Qed.

Lemma footprint_beforeFirstAwait Q :
  footprint P Q (beforeFirstAwait h c ctx).
Proof.
  unfold beforeFirstAwait, validate.
  footprint_auto;
    try (apply footprint_pipeline_triggerEvent; unfold P; auto with pipeline);
    try apply footprint_gatherSwapJobs; try apply footprint_startSwapJobs;
    unfold P; footprint_auto.
Qed.

Lemma footprint_afterFirstAwait (swapPromises : list promise) :
  footprint P (fromLocation c) (afterFirstAwait h c ctx swapPromises).
Proof.
  apply footprint_afterAwait. intros p _. apply footprint_awaitSwap.
Qed.

(** Everything a pipeline does is one of the effects listed for its own
    command. *)
Lemma footprint_processCommandFromElement :
  footprint P (fromLocation c) (processCommandFromElement h c ctx).
Proof.
  unfold processCommandFromElement.
  footprint_auto;
    try apply footprint_beforeFirstAwait; try apply footprint_afterFirstAwait;
    try apply footprint_reportError; unfold P; footprint_auto.
Qed.

Lemma footprint_processUntilAwait :
  footprint P (fromLocation c) (processUntilAwait h c ctx).
Proof.
  unfold processUntilAwait.
  footprint_auto;
    try apply footprint_beforeFirstAwait; try apply footprint_reportError;
    unfold P; footprint_auto.
Qed.

Lemma footprint_processFromAwait (swapPromises : list promise) :
  footprint P (fromLocation c) (processFromAwait h c ctx swapPromises).
Proof.
  unfold processFromAwait.
  footprint_auto;
    try apply footprint_afterFirstAwait; try apply footprint_reportError.
Qed.

End SwapFootprint.

(** * How the pipeline ends *)

Lemma neverStalls_forEach {A} (l : list A) (body : A -> M unit) :
  (forall x, neverStalls (body x)) -> neverStalls (forEach l body).
Proof.
  intros Hb. induction l as [| x r IH]; cbn.
  - apply neverStalls_ret.
  - apply neverStalls_bind; auto.
Qed.

Lemma neverStalls_ask {A} (f : list effect -> A) : neverStalls (ask f).
Proof. apply returns_neverStalls, returns_ask. Qed.

Lemma neverStalls_emit (e : effect) : neverStalls (emit e).
Proof. apply returns_neverStalls, returns_emit. Qed.

Lemma neverStalls_registerThen (p : jsval) : neverStalls (registerThen p).
Proof. apply returns_neverStalls, returns_registerThen. Qed.

Lemma neverStalls_readMarkersRemoved : neverStalls readMarkersRemoved.
Proof. intros s. discriminate. Qed.

Lemma neverStalls_orThrow (r : option error) : neverStalls (orThrow r).
Proof. intros s. now destruct r. Qed.

Create HintDb outcome.
#[export] Hint Resolve neverStalls_ret neverStalls_throw neverStalls_ask
  neverStalls_emit neverStalls_registerThen neverStalls_readMarkersRemoved
  neverStalls_orThrow : outcome.

Ltac neverStalls_step :=
  lazymatch goal with
  | |- neverStalls (bind _ _) => apply neverStalls_bind; [| intros ?]
  | |- neverStalls (tryCatch _ _) => apply neverStalls_tryCatch; [| intros ?]
  | |- neverStalls (forEach _ _) => apply neverStalls_forEach; intros ?
  | |- neverStalls (match ?x with _ => _ end) => destruct x eqn:?
  | |- neverStalls _ => solve [eauto with outcome]
  end.

Ltac neverStalls_auto := repeat neverStalls_step.

Section Outcomes.

Variable h : Host.

(** An event whose detail is an object of the extension's own, or is
    missing, is fired. *)
Lemma returns_triggerEvent (t : live) (n : string) (d : detail) :
  takesElt d = true -> returns (triggerEvent h t n d).
Proof.
  intros T. unfold triggerEvent. rewrite T.
  repeat (apply returns_bind; [| intros ?]);
    auto using returns_ask, returns_emit, returns_ret.
Qed.

Lemma neverStalls_triggerEvent (t : live) (n : string) (d : detail) :
  neverStalls (triggerEvent h t n d).
Proof. unfold triggerEvent. neverStalls_auto. Qed.

Lemma neverStalls_find (x : json) : neverStalls (find h x).
Proof. unfold find. neverStalls_auto. Qed.

Hint Resolve neverStalls_triggerEvent neverStalls_find : outcome.

Lemma neverStalls_fireTrigger (entry : string * json) :
  neverStalls (fireTrigger h entry).
Proof. unfold fireTrigger. neverStalls_auto. Qed.

(** The fallback of the dispatcher returns: it only fires events. *)
Lemma returns_fireNames (value : string) : returns (fireNames h value).
Proof.
  unfold fireNames. apply returns_forEach. intros x.
  apply returns_bind;
    [now apply returns_triggerEvent | intros _; apply returns_ret].
Qed.

(** The dispatcher itself catches whatever its loop throws. *)
Lemma returns_handleTriggerAttribute (value : string) :
  returns (handleTriggerAttribute h value).
Proof.
  unfold handleTriggerAttribute. apply returns_tryCatch.
  - neverStalls_auto. apply neverStalls_fireTrigger.
  - intros _. apply returns_fireNames.
Qed.

Lemma neverStalls_handleTriggerAttribute (value : string) :
  neverStalls (handleTriggerAttribute h value).
Proof. apply returns_neverStalls, returns_handleTriggerAttribute. Qed.

Lemma neverStalls_handleLocationAttribute (redirectPath : string) :
  neverStalls (handleLocationAttribute h redirectPath).
Proof.
  unfold handleLocationAttribute, saveCurrentPageToHistory. neverStalls_auto.
Qed.

Hint Resolve neverStalls_handleTriggerAttribute
  neverStalls_handleLocationAttribute : outcome.

Lemma neverStalls_immediateActions (el : node) :
  neverStalls (immediateActions h el).
Proof.
  unfold immediateActions, whenAttribute, saveCurrentPageToHistory,
    pushUrlIntoHistory, replaceUrlInHistory.
  neverStalls_auto.
Qed.

Lemma returns_reportError (c : command) (e : error) :
  returns (reportError c e).
Proof. unfold reportError, triggerErrorEvent. apply returns_emit. Qed.

(** From the first [await] on, a pipeline that awaits nothing cannot
    stall. *)
Lemma neverStalls_afterFirstAwait_nil (c : command) (ctx : live) :
  neverStalls (afterFirstAwait h c ctx []).
Proof.
  unfold afterFirstAwait, immediatePhase, whenAttribute. cbn [forEach].
  neverStalls_auto. apply neverStalls_immediateActions.
Qed.

(** ... so it returns: whatever it throws is reported at the marker
    boundary. *)
Lemma returns_processFromAwait_nil (c : command) (ctx : live) :
  returns (processFromAwait h c ctx []).
Proof.
  unfold processFromAwait. apply returns_tryCatch.
  - apply neverStalls_afterFirstAwait_nil.
  - intros e. apply returns_reportError.
Qed.

Lemma neverStalls_doSwap t content spec select :
  neverStalls (doSwap h t content spec select).
Proof. unfold doSwap, doSettle. neverStalls_auto. Qed.

Lemma neverStalls_swapAsync t content spec select ctx :
  neverStalls (swapAsync h t content spec select ctx).
Proof.
  unfold swapAsync, triggerErrorEvent. neverStalls_auto.
  apply neverStalls_doSwap.
Qed.

Lemma neverStalls_startSwapJobs jobs ctx spec select :
  neverStalls (startSwapJobs h jobs ctx spec select).
Proof.
  induction jobs as [| job rest IH]; cbn [startSwapJobs].
  - apply neverStalls_ret.
  - unfold triggerBeforeSwap. neverStalls_auto;
      solve [apply neverStalls_swapAsync | exact IH].
Qed.

(** Up to its first [await] the pipeline cannot stall ... *)
Lemma neverStalls_beforeFirstAwait (c : command) (ctx : live) :
  neverStalls (beforeFirstAwait h c ctx).
Proof.
  unfold beforeFirstAwait, validate, gatherSwapJobs, currentInnerHTML,
    triggerErrorEvent.
  neverStalls_auto; apply neverStalls_startSwapJobs.
Qed.

(** ... so the call of the function returns. *)
Lemma returns_processUntilAwait (c : command) (ctx : live) :
  returns (processUntilAwait h c ctx).
Proof.
  unfold processUntilAwait. apply returns_tryCatch.
  - apply neverStalls_beforeFirstAwait.
  - intros e. apply returns_bind.
    + apply returns_reportError.
    + intros _. apply returns_ret.
Qed.

(** Nothing is thrown out of a pipeline. *)
Lemma neverThrows_processCommandFromElement (c : command) (ctx : live) :
  neverThrows (processCommandFromElement h c ctx).
Proof.
  unfold processCommandFromElement. apply neverThrows_tryCatch.
  intros e. apply returns_neverThrows, returns_reportError.
Qed.

Lemma neverThrows_processFromAwait (c : command) (ctx : live) ps :
  neverThrows (processFromAwait h c ctx ps).
Proof.
  unfold processFromAwait. apply neverThrows_tryCatch.
  intros e. apply returns_neverThrows, returns_reportError.
Qed.

(** The function cut at its first [await] is the function. *)
Lemma processCommandFromElement_cut (c : command) (ctx : live) (s : state) :
  processCommandFromElement h c ctx s =
  match processUntilAwait h c ctx s with
  | (Returned None, s') => (Returned tt, s')
  | (Returned (Some swapPromises), s') =>
      processFromAwait h c ctx swapPromises s'
  | (Thrown e, s') => (Thrown e, s')
  | (Stalled, s') => (Stalled, s')
  end.
Proof.
  unfold processCommandFromElement, processUntilAwait, processFromAwait,
    tryCatch, bind.
  destruct (beforeFirstAwait h c ctx s) as [[[ps |] | e |] s']; cbn;
    reflexivity.
Qed.

End Outcomes.

(** * The response without markers *)

(** C9. A response text that is empty, or in which no command marker is
    found, is returned as it is: the very same string, the state
    untouched (no marker extracted, no effect performed) and nothing
    left to run afterwards. *)
Theorem transformResponse_without_markers
        (h : Host) (text : string) (elt : live) (s : state) :
  text = "" \/ querySelectorAll (makeFragment h text) = [] ->
  returnedText (transformResponse h text elt s) = text /\
  atReturn (transformResponse h text elt s) = s /\
  continuation (transformResponse h text elt s) = ret tt /\
  runResponse h text elt s = (text, (Returned tt, s)).
Proof.
  intros H.
  assert (E : transformResponse h text elt s = mkTransformed text s (ret tt)).
  { unfold transformResponse. destruct H as [-> | H]; [reflexivity |].
    destruct (Str.isEmpty text); [reflexivity |].
    unfold querySelector. now rewrite H. }
  unfold runResponse. rewrite E. cbn. auto.
Qed.

Lemma transformResponse_without_markers_witness :
  runResponse Demo.page Demo.plainText Demo.button Demo.fresh
  = (Demo.plainText, (Returned tt, Demo.fresh)) /\
  runResponse Demo.page "" Demo.button Demo.fresh
  = ("", (Returned tt, Demo.fresh)).
Proof.
  split.
  - apply (transformResponse_without_markers Demo.page Demo.plainText).
    right. reflexivity.
  - apply (transformResponse_without_markers Demo.page "").
    left. reflexivity.
Defined.

(** * Validation *)

Lemma reported_unknown (el : node) :
  map (fun v => match v with
                | InvalidAttribute name => UnknownAttribute name
                | SwapOrSelectRequiresTarget => SwapOrSelectWithoutTarget
                end) (unknownAttributes el)
  = map (fun kv => UnknownAttribute (fst kv))
        (filter (fun kv => negb (isValidAttribute (fst kv))) (attributesOf el)).
Proof. unfold unknownAttributes. rewrite map_map. reflexivity. Qed.

Lemma reported_combination (el : node) :
  map (fun v => match v with
                | InvalidAttribute name => UnknownAttribute name
                | SwapOrSelectRequiresTarget => SwapOrSelectWithoutTarget
                end) (invalidCombination el)
  = if (hasAttribute el "swap" || hasAttribute el "select")
       && negb (hasAttribute el "target")
    then [SwapOrSelectWithoutTarget] else [].
Proof.
  unfold invalidCombination.
  destruct ((hasAttribute el "swap" || hasAttribute el "select")
            && negb (hasAttribute el "target")); reflexivity.
Qed.

(** The claim as the specification words it fails on
    [<htmx foo=1>x</htmx>]: the marker has an unknown attribute and no
    enumerated one, and the error names the second violation only. *)
Lemma validation_stops_at_missing_command_attribute :
  validateCommandElement Demo.unknownOnly
  = Some (NoCommandAttributes Demo.unknownOnly) /\
  grammarViolations Demo.unknownOnly
  = [UnknownAttribute "foo"; NoEnumeratedAttribute] /\
  ~ collectsAllViolations Demo.unknownOnly.
Proof.
  repeat split; try reflexivity.
  unfold collectsAllViolations. cbn. discriminate.
Qed.

(** C5, amended. A marker without any enumerated attribute is rejected
    at once with an error of its own, which lists nothing else.  For a
    marker that has one, validation collects every unknown attribute, in
    the order of the attributes, and the swap/select-without-target
    violation, and throws them together as one error; it returns exactly
    when there is no violation at all. *)
Theorem validateCommandElement_collects (el : node) :
  (if hasEnumeratedAttribute el
   then collectsAllViolations el
   else validateCommandElement el = Some (NoCommandAttributes el)) /\
  (validateCommandElement el = None <-> grammarViolations el = []).
Proof.
  unfold collectsAllViolations, validateCommandElement, grammarViolations,
    hasEnumeratedAttribute.
  destruct (existsb (fun kv => isValidAttribute (fst kv)) (attributesOf el))
    eqn:E; cbn [negb].
  - rewrite !app_nil_r.
    rewrite <- reported_unknown, <- reported_combination, <- map_app.
    destruct (unknownAttributes el ++ invalidCombination el) as [| v r] eqn:V;
      cbn.
    + split; [reflexivity |]. split; reflexivity.
    + split; [reflexivity |]. split; discriminate.
  - split; [reflexivity |]. split; [discriminate |].
    intros H. apply app_eq_nil in H. destruct H as [_ H].
    apply app_eq_nil in H. destruct H as [_ H]. discriminate.
Qed.

(** * The trigger dispatcher *)

Lemma footprint_trace {A} P Q (m : M A) (s : state) :
  footprint P Q m ->
  exists d, trace (snd (m s)) = trace s ++ d /\ Forall P d.
Proof. intros H. destruct (H s) as (d & ps & T & F & _). eauto. Qed.

Lemma returns_unit (m : M unit) (s : state) :
  returns m -> m s = (Returned tt, snd (m s)).
Proof.
  intros H. destruct (H s) as [[] E].
  destruct (m s) as [o s']. cbn in *. now subst.
Qed.

Lemma withEffects_app (s : state) (a b : list effect) :
  withEffects (withEffects s a) b = withEffects s (a ++ b).
Proof. unfold withEffects. cbn. now rewrite app_assoc. Qed.

Lemma withEffects_nil (s : state) : withEffects s [] = s.
Proof. unfold withEffects. rewrite app_nil_r. now destruct s. Qed.

Section Dispatcher.

Variable h : Host.

Lemma triggerEvent_run (t : live) (n : string) (d : detail) (s : state) :
  takesElt d = true ->
  triggerEvent h t n d s
  = (Returned (dispatchEvent h (trace s) t n d),
     withEffects s [TriggerEvent t n d]).
Proof. intros T. unfold triggerEvent. now rewrite T. Qed.

(** A detail that is a number, a string or a boolean: nothing is
    fired. *)
Lemma triggerEvent_throws (t : live) (n : string) (d : detail) (s : state) :
  takesElt d = false ->
  triggerEvent h t n d s = (Thrown (HostError "TypeError"), s).
Proof. intros T. unfold triggerEvent. now rewrite T. Qed.

(** The fallback fires one bare event for each piece of the value. *)
Lemma fireNames_run (value : string) (s : state) :
  fireNames h value s = (Returned tt, withEffects s (bareEvents value)).
Proof.
  unfold fireNames, bareEvents.
  generalize (Str.split Str.comma value) as names. intros names. revert s.
  induction names as [| n r IH]; intros s; cbn [forEach map].
  - unfold ret. now rewrite withEffects_nil.
  - unfold bind at 1 2. rewrite triggerEvent_run by reflexivity. cbn [ret].
    rewrite IH, withEffects_app. reflexivity.
Qed.

Lemma find_run (selector : string) (s : state) :
  find h (JString selector) s
  = match documentQuerySelector h (trace s) selector with
    | Found e => (Returned (Some e), s)
    | NotFound => (Returned None, s)
    | LookupThrows e => (Thrown e, s)
    end.
Proof.
  unfold find, bind, ask.
  now destruct (documentQuerySelector h (trace s) selector).
Qed.

(** One turn of the loop: the effects of the key when its detail can be
    dispatched; otherwise the turn throws and nothing has been done. *)
Lemma fireTrigger_run (kv : string * json) (s : state) :
  match fireTrigger h kv s with
  | (Returned _, s') =>
      dispatchable h (trace s) (snd kv) = true /\
      s' = withEffects s (keyEffects h (trace s) kv)
  | (Thrown _, s') => dispatchable h (trace s) (snd kv) = false /\ s' = s
  | (Stalled, _) => False
  end.
Proof.
  destruct kv as [k d].
  unfold fireTrigger, dispatchable, keyEffects, targetWarnings,
    dispatchTarget, stripTarget, requestedTarget.
  cbn [fst snd].
  destruct d as [| b | n | str | items | m]; cbn [takesElt isObject];
    try (unfold bind; rewrite triggerEvent_throws by reflexivity;
         split; reflexivity);
    try (split; reflexivity).
  destruct (getMember "target" m) as [t |] eqn:G; [| split; reflexivity].
  destruct (truthy t) eqn:T; [| split; reflexivity].
  destruct t as [| b | n | selector | items | m'];
    try (split; reflexivity).
  unfold bind at 1. rewrite find_run.
  destruct (documentQuerySelector h (trace s) selector) as [e | | e].
  - split; reflexivity.
  - cbn. split; [reflexivity |]. unfold withEffects. cbn.
    now rewrite <- app_assoc.
  - split; reflexivity.
Qed.

(** The loop over the keys: the effects of the keys that come before
    the first detail that cannot be dispatched. *)
Lemma forEach_fireTrigger_run (m : list (string * json)) (s : state) :
  match forEach m (fireTrigger h) s with
  | (Returned _, s') =>
      snd (payloadEffects h (trace s) m) = true /\
      s' = withEffects s (fst (payloadEffects h (trace s) m))
  | (Thrown _, s') =>
      snd (payloadEffects h (trace s) m) = false /\
      s' = withEffects s (fst (payloadEffects h (trace s) m))
  | (Stalled, _) => False
  end.
Proof.
  revert s. induction m as [| kv r IH]; intros s;
    cbn [payloadEffects forEach].
  - cbn. split; [reflexivity |]. now rewrite withEffects_nil.
  - assert (F := fireTrigger_run kv s). unfold bind at 1.
    destruct (fireTrigger h kv s) as [[[] | e |] s1].
    + destruct F as [D ->]. rewrite D. cbn [fst snd].
      specialize (IH (withEffects s (keyEffects h (trace s) kv))).
      cbn [trace withEffects] in IH.
      destruct (forEach r (fireTrigger h)
                  (withEffects s (keyEffects h (trace s) kv)))
        as [[[] | e |] s2]; [| | contradiction];
        destruct IH as [S ->]; (split; [exact S |]);
        now rewrite withEffects_app.
    + destruct F as [D ->]. rewrite D. cbn.
      split; [reflexivity |]. now rewrite withEffects_nil.
    + contradiction.
Qed.

(** The dispatcher always returns, and does what [dispatched] lists. *)
Lemma handleTriggerAttribute_run (value : string) (s : state) :
  handleTriggerAttribute h value s
  = (Returned tt, withEffects s (dispatched h (trace s) value)).
Proof.
  unfold handleTriggerAttribute, dispatched, tryCatch.
  destruct (JSON_parse h value) as [triggers |].
  - assert (F := forEach_fireTrigger_run (forIn triggers) s).
    destruct (forEach (forIn triggers) (fireTrigger h) s)
      as [[[] | e |] s1]; [| | contradiction]; destruct F as [S ->];
      rewrite S.
    + reflexivity.
    + rewrite fireNames_run, withEffects_app. reflexivity.
  - cbn [throw]. apply fireNames_run.
Qed.

Lemma whenTrigger_run (el : node) (name : string) (s : state) :
  whenAttribute el name (handleTriggerAttribute h) s
  = (Returned tt, dispatchedFor h el name s).
Proof.
  unfold whenAttribute, dispatchedFor.
  destruct (getAttribute el name);
    [apply handleTriggerAttribute_run | reflexivity].
Qed.

(** When every detail can be dispatched: one event for each key, in the
    order of the keys, and besides the events nothing but warnings. *)
Lemma payloadEffects_all (m : list (string * json)) :
  lookupsReturn h m ->
  Forall (fun kv => takesElt (Payload (snd kv)) = true) m ->
  forall tr,
    snd (payloadEffects h tr m) = true /\
    Forall2 (fun e kv =>
               exists tr',
                 e = TriggerEvent (dispatchTarget h tr' (snd kv)) (fst kv)
                       (Payload (stripTarget (snd kv))))
            (filter isEvent (fst (payloadEffects h tr m))) m /\
    Forall dispatchEffect (fst (payloadEffects h tr m)).
Proof.
  induction m as [| [k v] r IH]; intros L T tr; cbn [payloadEffects].
  - repeat split; constructor.
  - inversion T as [| ? ? Tv Tr]; subst. cbn [snd] in Tv.
    assert (D : dispatchable h tr v = true).
    { unfold dispatchable.
      destruct (requestedTarget v) as [t |] eqn:R; [| exact Tv].
      destruct (L k v t (or_introl eq_refl) R) as (selector & -> & NT).
      specialize (NT tr).
      destruct (documentQuerySelector h tr selector) as [e | | e];
        try reflexivity.
      exfalso. eapply NT. reflexivity. }
    cbn [snd]. rewrite D. cbn [fst snd].
    destruct (IH (fun k' d' t' H => L k' d' t' (or_intror H)) Tr
                 (tr ++ keyEffects h tr (k, v))) as (S & F2 & FD).
    split; [exact S |].
    assert (W : targetWarnings h tr v = []
                \/ exists j, targetWarnings h tr v
                             = [ConsoleWarn (TriggerTargetNotFound j)]).
    { unfold targetWarnings.
      destruct (requestedTarget v) as [[| | | selector | |] |]; auto.
      destruct (documentQuerySelector h tr selector); eauto. }
    unfold keyEffects at 1 3. cbn [fst snd]. split.
    + rewrite !filter_app. cbn [filter isEvent app].
      replace (filter isEvent (targetWarnings h tr v)) with (@nil effect)
        by (destruct W as [-> | [j ->]]; reflexivity).
      cbn [app]. constructor; [| exact F2].
      exists tr. reflexivity.
    + apply Forall_app. split; [| exact FD].
      apply Forall_app. split.
      * destruct W as [-> | [j ->]]; repeat constructor.
      * repeat constructor.
Qed.

(** The keys before the first detail that cannot be fired, when that
    detail is a number, a string or a boolean. *)
Lemma payloadEffects_upto (m r : list (string * json)) (k : string)
      (v : json) (tr : list effect) :
  snd (payloadEffects h tr m) = true ->
  takesElt (Payload v) = false ->
  payloadEffects h tr (m ++ (k, v) :: r)
  = (fst (payloadEffects h tr m), false).
Proof.
  intros S T. revert tr S.
  induction m as [| kv m IH]; intros tr S; cbn [payloadEffects app].
  - cbn [snd]. unfold dispatchable.
    destruct v; try discriminate; reflexivity.
  - cbn [payloadEffects] in S.
    destruct (dispatchable h tr (snd kv)); [| discriminate].
    cbn [fst snd] in *. now rewrite (IH _ S).
Qed.

End Dispatcher.


(** When the lookup of a target throws, the [catch] meant for
    [JSON.parse] takes over: the raw JSON text is read as a list of
    names, and an event named after it is fired; nothing reaches the
    marker boundary. *)
Lemma lookup_failure_is_taken_for_a_parse_failure :
  let c := ([0], Demo.badTriggerTarget) in
  handleTriggerAttribute Demo.page Demo.jsonBadTarget Demo.fresh
  = (Returned tt,
     withEffects Demo.fresh
       [TriggerEvent DocumentBody Demo.jsonBadTarget NoDetail]) /\
  trace (snd (processCommandFromElement Demo.page c Demo.button Demo.fresh))
  = [ beforeServerCommand c Demo.button;
      afterSwap c Demo.button;
      TriggerEvent DocumentBody Demo.jsonBadTarget NoDetail;
      afterServerCommand c Demo.button ].
Proof. split; reflexivity. Qed.

(** So does it when a detail is a number, a string or a boolean:
    [api.triggerEvent] cannot set [elt] on it and throws.  For
    [{"a":{"x":1},"n":5}] the event [a] is fired, no event [n] is, and
    the raw text is then read as a list of two names. *)
Lemma primitive_detail_is_taken_for_a_parse_failure :
  JSON_parse Demo.page Demo.jsonCounted
  = Some (JObject [("a", JObject [("x", JNumber 1)]); ("n", JNumber 5)]) /\
  handleTriggerAttribute Demo.page Demo.jsonCounted Demo.fresh
  = (Returned tt,
     withEffects Demo.fresh
       ([TriggerEvent DocumentBody "a" (Payload (JObject [("x", JNumber 1)]))]
        ++ bareEvents Demo.jsonCounted)) /\
  bareEvents Demo.jsonCounted
  = [ TriggerEvent DocumentBody
        ("{" ++ Demo.q "a" ++ ":{" ++ Demo.q "x" ++ ":1}") NoDetail;
      TriggerEvent DocumentBody (Demo.q "n" ++ ":5}") NoDetail ].
Proof. repeat split. Qed.



(** * The immediate phase *)

(** With distinct attribute names, looking an attribute up is finding
    its pair in the list. *)
Lemma lookupAttr_Some_iff (name v : string) (attrs : list (string * string)) :
  NoDup (map fst attrs) ->
  (lookupAttr name attrs = Some v <-> In (name, v) attrs).
Proof.
  induction attrs as [| [k w] r IH]; cbn; intros N.
  - split; [discriminate | contradiction].
  - inversion N as [| ? ? Hk Hr]; subst.
    destruct (String.eqb k name) eqn:E.
    + apply String.eqb_eq in E. subst k. split.
      * intros [= ->]. now left.
      * intros [[= ->] | H]; [reflexivity |].
        exfalso. apply Hk. apply (in_map fst) in H. exact H.
    + apply String.eqb_neq in E. rewrite (IH Hr). split.
      * intros H. now right.
      * intros [[= -> _] | H]; [congruence | exact H].
Qed.

(** The order in which the attributes were declared does not matter to
    [getAttribute]. *)
Lemma lookupAttr_Permutation (name : string) (a a' : list (string * string)) :
  NoDup (map fst a) -> Permutation a' a ->
  lookupAttr name a' = lookupAttr name a.
Proof.
  intros N Pm.
  assert (N' : NoDup (map fst a')).
  { eapply Permutation_NoDup; [| exact N].
    apply Permutation_map, Permutation_sym, Pm. }
  destruct (lookupAttr name a) as [v |] eqn:E.
  - apply (lookupAttr_Some_iff name v a N) in E.
    apply (lookupAttr_Some_iff name v a' N').
    eapply Permutation_in; [apply Permutation_sym, Pm | exact E].
  - destruct (lookupAttr name a') as [v |] eqn:E'; [| reflexivity].
    apply (lookupAttr_Some_iff name v a' N') in E'.
    eapply Permutation_in in E'; [| exact Pm].
    apply (lookupAttr_Some_iff name v a N) in E'. congruence.
Qed.

Section ImmediatePhase.

Variable h : Host.

(** A step of the dispatcher inside a longer computation. *)
Lemma bind_whenTrigger {B} (el : node) (name : string) (k : unit -> M B)
      (s : state) :
  bind (whenAttribute el name (handleTriggerAttribute h)) k s
  = k tt (dispatchedFor h el name s).
Proof. unfold bind. now rewrite whenTrigger_run. Qed.

(** What follows the payload of [trigger]. *)
Lemma afterTrigger_run (el : node) (s : state) :
  (whenAttribute el "location" (handleLocationAttribute h) ;;
   match getAttribute el "redirect" with
   | Some url => emit (SetLocationHref url) ;; ret false
   | None =>
       if match getAttribute el "refresh" with
          | Some v => negb (String.eqb v "false")
          | None => false
          end
       then emit LocationReload ;; ret false
       else
         whenAttribute el "push-url"
           (fun url =>
              saveCurrentPageToHistory h ;;
              pushUrlIntoHistory h (Some (JString url))) ;;
         whenAttribute el "replace-url"
           (fun url =>
              saveCurrentPageToHistory h ;; replaceUrlInHistory h url) ;;
         ret true
   end) s
  = match performAll h el [Location; Redirect; Refresh; PushUrl; ReplaceUrl] s
    with
    | (Continues, s') => (Returned true, s')
    | (Terminates, s') => (Returned false, s')
    | (Fails e, s') => (Thrown e, s')
    end.
Proof.
  unfold whenAttribute, handleLocationAttribute, saveCurrentPageToHistory,
    pushUrlIntoHistory, replaceUrlInHistory.
  cbn [performAll attributeOf perform].
  unfold locationRequest, snapshot, bind, emit, ask, orThrow, ret, throw,
    registerThen, withEffects.
  repeat
    match goal with
    | _ => progress cbn
    | |- context [getAttribute el ?n] => destruct (getAttribute el n)
    | |- context [Str.startsWith ?a ?b] => destruct (Str.startsWith a b)
    | |- context [JSON_parse h ?v] => destruct (JSON_parse h v)
    | |- context [String.eqb ?a ?b] => destruct (String.eqb a b)
    | |- context [saveInHistory h ?t] => destruct (saveInHistory h t)
    | |- context [pushInHistory h ?t ?p] => destruct (pushInHistory h t p)
    | |- context [replaceInHistory h ?t ?p] => destruct (replaceInHistory h t p)
    end;
    reflexivity.
Qed.

(** The immediate actions are the actions of the marker in the fixed
    order. *)
Lemma immediateActions_run (el : node) (s : state) :
  immediateActions h el s
  = match performAll h el immediateOrder s with
    | (Continues, s') => (Returned true, s')
    | (Terminates, s') => (Returned false, s')
    | (Fails e, s') => (Thrown e, s')
    end.
Proof.
  unfold immediateActions. rewrite bind_whenTrigger. cbv beta.
  rewrite afterTrigger_run.
  unfold immediateOrder, dispatchedFor. cbn [performAll attributeOf].
  destruct (getAttribute el "trigger"); reflexivity.
Qed.

Lemma immediatePhase_run (c : command) (ctx : live) (s : state) :
  immediatePhase h c ctx s
  = asOutcome (postCommand c ctx (performAll h (snd c) immediateOrder s)).
Proof.
  unfold immediatePhase, bind. rewrite immediateActions_run.
  destruct (performAll h (snd c) immediateOrder s) as [[| | e] s'];
    reflexivity.
Qed.

(** The actions of two lists in a row. *)
Lemma performAll_app (el : node) (l1 l2 : list action) (s : state) :
  performAll h el (l1 ++ l2) s
  = match performAll h el l1 s with
    | (Continues, s') => performAll h el l2 s'
    | stopped => stopped
    end.
Proof.
  revert s. induction l1 as [| a l1 IH]; intros s; cbn [performAll app].
  - reflexivity.
  - destruct (getAttribute el (attributeOf a)) as [v |]; [| apply IH].
    destruct (perform h a v s) as [[| | e] s']; [apply IH | |]; reflexivity.
Qed.

(** The immediate actions read the marker through [getAttribute]
    only. *)
Lemma immediateActions_ext (el el' : node) :
  (forall name, getAttribute el' name = getAttribute el name) ->
  immediateActions h el' = immediateActions h el.
Proof.
  intros E. unfold immediateActions, whenAttribute. now rewrite !E.
Qed.

(** The same for the actions in the words of the specification. *)
Lemma performAll_ext (el el' : node) (l : list action) (s : state) :
  (forall name, getAttribute el' name = getAttribute el name) ->
  performAll h el' l s = performAll h el l s.
Proof.
  intros E. revert s. induction l as [| a l IH]; intros s; cbn [performAll].
  - reflexivity.
  - rewrite E. destruct (getAttribute el (attributeOf a)) as [v |]; [| apply IH].
    destruct (perform h a v s) as [[| | e] s']; [apply IH | |]; reflexivity.
Qed.

(** The pipeline from its first [await] on: once the swaps awaited are
    over, the rest of the pipeline; a rejected swap is reported at the
    marker boundary; a swap that never settles stalls the function. *)
Lemma processFromAwait_run (c : command) (ctx : live) (ps : list promise)
      (s : state) :
  processFromAwait h c ctx ps s
  = match forEach ps (awaitSwap h) s with
    | (Returned _, s1) => (Returned tt, restOfPipeline h c ctx s1)
    | (Thrown e, s1) => (Returned tt, withEffects s1 [serverCommandError c e])
    | (Stalled, s1) => (Stalled, s1)
    end.
Proof.
  unfold processFromAwait, afterFirstAwait, tryCatch. unfold bind at 1.
  destruct (forEach ps (awaitSwap h) s) as [[[] | e |] s1]; try reflexivity.
  unfold bind at 1. rewrite triggerEvent_run by reflexivity.
  rewrite !bind_whenTrigger, immediatePhase_run.
  unfold restOfPipeline, timedSteps, afterSwap.
  destruct (performAll h (snd c) immediateOrder _) as [[| | e] s'];
    reflexivity.
Qed.

End ImmediatePhase.

Lemma processAll_cons (h : Host) (c : command) (rest : list command)
      (ctx : live) (s : state) :
  fst (processCommandFromElement h c ctx s) = Returned tt ->
  processAll h (c :: rest) ctx s
  = processAll h rest ctx (snd (processCommandFromElement h c ctx s)).
Proof.
  intros E. unfold processAll. cbn [forEach]. unfold bind at 1.
  destruct (processCommandFromElement h c ctx s) as [o s'].
  cbn in E. now subst o.
Qed.



(** * A marker without a swap job *)

Section NoSwapJob.

Variable h : Host.

(** Once the first [await] is reached the rest of the function is
    [processFromAwait]. *)
Lemma process_from_first_await c ctx s ps s' :
  beforeFirstAwait h c ctx s = (Returned (Some ps), s') ->
  processCommandFromElement h c ctx s = processFromAwait h c ctx ps s'.
Proof.
  intros E. rewrite processCommandFromElement_cut.
  unfold processUntilAwait, tryCatch. now rewrite E.
Qed.

(** The first steps, when the pre-command event is not cancelled and
    validation passes. *)
Lemma beforeFirstAwait_validated c ctx s :
  dispatchEvent h (trace s) ctx "htmx:beforeServerCommand"
    (CommandDetail c (Some ctx)) = true ->
  validateCommandElement (snd c) = None ->
  beforeFirstAwait h c ctx s =
  (swapJobs <- gatherSwapJobs h c ctx ;;
   swapPromises <-
     startSwapJobs h swapJobs ctx
       (getSwapSpecification h ctx
          (orElse (getAttributeValue (snd c) "swap") "outerHTML"))
       (getAttributeValue (snd c) "select") ;;
   ret (Some swapPromises))
    (withEffects s [beforeServerCommand c ctx]).
Proof.
  intros D V.
  unfold beforeFirstAwait, triggerEvent, validate, bind at 1 2 3 4, ask, emit, ret.
  cbn. rewrite D, V. cbn. reflexivity.
Qed.

(** Without promises, the pipeline goes on with the after-swap
    notification, the two timed triggers and the immediate phase. *)
Lemma afterFirstAwait_nil c ctx s :
  afterFirstAwait h c ctx [] s =
  immediatePhase h c ctx
    (snd (whenAttribute (snd c) "trigger-after-settle" (handleTriggerAttribute h)
       (snd (whenAttribute (snd c) "trigger-after-swap" (handleTriggerAttribute h)
          (withEffects s [afterSwap c ctx]))))).
Proof.
  assert (R : forall name, returns (whenAttribute (snd c) name
                                      (handleTriggerAttribute h))).
  { intros name. unfold whenAttribute.
    destruct (getAttribute (snd c) name);
      [apply returns_handleTriggerAttribute | apply returns_ret]. }
  unfold afterFirstAwait. cbn [forEach].
  unfold bind at 1 2. cbn.
  unfold bind at 1.
  rewrite (returns_unit _ _ (R "trigger-after-swap")).
  unfold bind at 1.
  rewrite (returns_unit _ _ (R "trigger-after-settle")).
  reflexivity.
Qed.

(** Without promises nothing is awaited: what is left is the rest of
    the pipeline. *)
Lemma processFromAwait_nil_run c ctx s :
  processFromAwait h c ctx [] s = (Returned tt, restOfPipeline h c ctx s).
Proof. now rewrite processFromAwait_run. Qed.

(** The rest of the pipeline starts with the after-swap notification
    and has none of the effects of a swap. *)
Lemma restOfPipeline_effects c ctx s :
  exists d,
    trace (restOfPipeline h c ctx s) = trace s ++ afterSwap c ctx :: d /\
    Forall (pipelineEffect c ctx false) d.
Proof.
  set (m := tryCatch
              (whenAttribute (snd c) "trigger-after-swap"
                 (handleTriggerAttribute h) ;;
               whenAttribute (snd c) "trigger-after-settle"
                 (handleTriggerAttribute h) ;;
               immediatePhase h c ctx)
              (reportError c)).
  assert (E : restOfPipeline h c ctx s
              = snd (m (withEffects s [afterSwap c ctx]))).
  { unfold m, tryCatch. rewrite !bind_whenTrigger, immediatePhase_run.
    unfold restOfPipeline, timedSteps.
    destruct (performAll h (snd c) immediateOrder _) as [[| | e] s'];
      reflexivity. }
  destruct (footprint_trace (pipelineEffect c ctx false) (fromLocation c) m
              (withEffects s [afterSwap c ctx])) as (d & T & F).
  { unfold m. apply footprint_tryCatch.
    - repeat (apply footprint_bind; [| intros _]);
        solve [apply footprint_pipeline_whenTrigger
              | apply footprint_immediatePhase].
    - intros e. apply footprint_reportError. }
  exists d. rewrite E, T. cbn. now rewrite <- app_assoc.
Qed.

End NoSwapJob.

(** What the effects listed without the swap steps exclude. *)
Lemma pipelineEffect_without_swap (c : command) (ctx : live) (e : effect) :
  pipelineEffect c ctx false e ->
  (forall t content spec select, e <> DomSwap t content spec select) /\
  (forall t, e <> DomSettle t) /\
  (forall t d, e <> TriggerEvent t "htmx:beforeSwap" (BeforeSwapDetail d)) /\
  (forall selector, e <> targetError ctx selector).
Proof.
  intros H. inversion H; subst; try discriminate;
    repeat split; intros; discriminate.
Qed.

Lemma isEmpty_false (s : string) : s <> "" -> Str.isEmpty s = false.
Proof. intros H. destruct s; [contradiction | reflexivity]. Qed.

Lemma lookupAttr_invalid (name : string) (attrs : list (string * string)) :
  isValidAttribute name = false ->
  (forall kv, In kv attrs -> isValidAttribute (fst kv) = true) ->
  lookupAttr name attrs = None.
Proof.
  intros Hn. induction attrs as [| [k v] r IH]; intros Hv; cbn.
  - reflexivity.
  - destruct (String.eqb k name) eqn:E.
    + apply String.eqb_eq in E. subst k.
      specialize (Hv (name, v) (or_introl eq_refl)).
      change (isValidAttribute name = true) in Hv. congruence.
    + apply IH. intros kv Hkv. apply Hv. now right.
Qed.

Lemma lookupAttr_In (name v : string) (attrs : list (string * string)) :
  lookupAttr name attrs = Some v -> In (name, v) attrs.
Proof.
  induction attrs as [| [k w] r IH]; cbn; [discriminate |].
  destruct (String.eqb k name) eqn:E.
  - apply String.eqb_eq in E. intros [= ->]. left. now subst.
  - intros H. right. auto.
Qed.

(** A marker whose attributes are all enumerated and that has a
    [target], even an empty one, passes validation. *)
Lemma validate_with_target (el : node) (v : string) :
  getAttribute el "target" = Some v ->
  (forall kv, In kv (attributesOf el) -> isValidAttribute (fst kv) = true) ->
  validateCommandElement el = None.
Proof.
  intros T V. unfold validateCommandElement.
  assert (E : existsb (fun kv => isValidAttribute (fst kv)) (attributesOf el)
              = true).
  { apply existsb_exists. exists ("target", v). split; [| reflexivity].
    now apply lookupAttr_In. }
  rewrite E. cbn [negb].
  assert (U : unknownAttributes el = []).
  { unfold unknownAttributes. rewrite filter_none; [reflexivity |].
    intros kv Hkv. now rewrite V. }
  assert (C : invalidCombination el = []).
  { unfold invalidCombination, hasAttribute. rewrite T.
    now rewrite andb_false_r. }
  now rewrite U, C.
Qed.





(** The marker [<htmx trigger-after-swap=swapped></htmx>] has no target,
    so no swap job; the after-swap notification fires all the same and
    the payload of [trigger-after-swap] is dispatched. *)
Lemma after_swap_phase_runs_without_swap_job :
  let c := ([0], Demo.afterSwapOnly) in
  let run := processCommandFromElement Demo.page c Demo.button Demo.fresh in
  fst (beforeFirstAwait Demo.page c Demo.button Demo.fresh)
  = Returned (Some []) /\
  trace (snd run)
  = [ beforeServerCommand c Demo.button;
      afterSwap c Demo.button;
      TriggerEvent DocumentBody "swapped" NoDetail;
      afterServerCommand c Demo.button ].
Proof. split; reflexivity. Qed.

(** C4, amended. A marker that produces no swap job (nothing to await
    after its first steps) swaps nothing and waits for nothing, but its
    after-swap and after-settle steps are not skipped: the after-swap
    notification fires first, then the payload of [trigger-after-swap]
    is dispatched when the attribute is present, then the payload of
    [trigger-after-settle], and the pipeline goes on from there ([s1],
    [s2] and [s3] are the states after each of the three steps).  None
    of the effects of a swap occurs in all this. *)
Theorem no_swap_job_keeps_the_timed_steps
        (h : Host) (c : command) (ctx : live) (s s' : state) :
  beforeFirstAwait h c ctx s = (Returned (Some []), s') ->
  let s1 := withEffects s' [afterSwap c ctx] in
  let s2 := snd (whenAttribute (snd c) "trigger-after-swap"
                   (handleTriggerAttribute h) s1) in
  let s3 := snd (whenAttribute (snd c) "trigger-after-settle"
                   (handleTriggerAttribute h) s2) in
  let final := snd (processCommandFromElement h c ctx s) in
  (exists d, trace final = trace s' ++ afterSwap c ctx :: d /\
             Forall (pipelineEffect c ctx false) d) /\
  (forall v, getAttribute (snd c) "trigger-after-swap" = Some v ->
             s2 = snd (handleTriggerAttribute h v s1)) /\
  (forall v, getAttribute (snd c) "trigger-after-settle" = Some v ->
             s3 = snd (handleTriggerAttribute h v s2)) /\
  (exists d2 d3 d4,
     trace s2 = trace s1 ++ d2 /\ trace s3 = trace s2 ++ d3 /\
     trace final = trace s3 ++ d4).
Proof.
  intros A s1 s2 s3 final.
  assert (W : forall name s0, exists d,
               trace (snd (whenAttribute (snd c) name
                             (handleTriggerAttribute h) s0))
               = trace s0 ++ d /\ Forall (pipelineEffect c ctx false) d).
  { intros name s0. eapply footprint_trace.
    apply (footprint_pipeline_whenTrigger h c ctx false (fun _ => True)). }
  destruct (W "trigger-after-swap" s1) as (d2 & T2 & F2). fold s2 in T2.
  destruct (W "trigger-after-settle" s2) as (d3 & T3 & F3). fold s3 in T3.
  assert (F : exists d4, trace final = trace s3 ++ d4 /\
                         Forall (pipelineEffect c ctx false) d4).
  { assert (E : final = snd (tryCatch (immediatePhase h c ctx)
                               (reportError c) s3)).
    { unfold final. rewrite (process_from_first_await h c ctx s [] s' A).
      unfold processFromAwait, tryCatch. now rewrite afterFirstAwait_nil. }
    rewrite E. eapply footprint_trace. apply footprint_tryCatch.
    - apply footprint_immediatePhase.
    - intros e. apply footprint_reportError. }
  destruct F as (d4 & T4 & F4).
  split; [| split; [| split]].
  - exists (d2 ++ d3 ++ d4). split.
    + rewrite T4, T3, T2. unfold s1, withEffects. cbn.
      now rewrite <- !app_assoc.
    + repeat (apply Forall_app; split); assumption.
  - intros v Hv. unfold s2, whenAttribute. now rewrite Hv.
  - intros v Hv. unfold s3, whenAttribute. now rewrite Hv.
  - exists d2, d3, d4. auto.
Qed.

Lemma no_swap_job_keeps_the_timed_steps_witness :
  let c := ([0], Demo.afterSwapOnly) in
  exists d,
    trace (snd (processCommandFromElement Demo.page c Demo.button Demo.fresh))
    = trace (withEffects Demo.fresh [beforeServerCommand c Demo.button])
        ++ afterSwap c Demo.button :: d /\
    Forall (pipelineEffect c Demo.button false) d.
Proof.
  intros c.
  apply (no_swap_job_keeps_the_timed_steps Demo.page c Demo.button Demo.fresh
           (withEffects Demo.fresh [beforeServerCommand c Demo.button])).
  reflexivity.
Defined.

(** * Nested markers *)

Lemma filter_length_lt {A} (f : A -> bool) (l : list A) (x : A) :
  In x l -> f x = false -> length (filter f l) < length l.
Proof.
  induction l as [| y r IH]; intros Hx Hf; [destruct Hx |].
  cbn. destruct Hx as [-> | Hx].
  - rewrite Hf. pose proof (filter_length_le f r). lia.
  - specialize (IH Hx Hf). destruct (f y); cbn; lia.
Qed.

(** An effect of a pipeline is about the command of that pipeline or
    about none. *)
Lemma pipelineEffect_commandOf (c : command) (ctx : live) (b : bool)
      (e : effect) :
  pipelineEffect c ctx b e -> commandOf e = None \/ commandOf e = Some c.
Proof. intros H. destruct H; cbn; auto. Qed.

Section Loop.

Variable h : Host.
Variable top : list command.
Variable elt : live.

(** The effects of the pipelines of the markers in [top]. *)
Let ofTop (e : effect) : Prop :=
  exists c, In c top /\ pipelineEffect c elt true e.

Let any (_ : jsval) : Prop := True.

Lemma footprint_of_top {A} (c : command) (m : M A) :
  In c top ->
  footprint (pipelineEffect c elt true) (fromLocation c) m ->
  footprint ofTop any m.
Proof.
  intros Hc. apply footprint_weaken.
  - intros e He. exists c. auto.
  - intros p _. exact I.
Qed.

Lemma footprint_processAll (l : list command) :
  incl l top -> footprint ofTop any (processAll h l elt).
Proof.
  intros Hl. unfold processAll. apply footprint_forEach. intros c Hc.
  apply (footprint_of_top c); [auto |].
  apply footprint_processCommandFromElement.
Qed.

(** The call of the loop and what it leaves to be resumed perform
    effects of the pipelines of the markers they were given, and no
    other. *)
Lemma startLoop_footprint (l : list command) (s : state) :
  incl l top ->
  (exists d, trace (snd (startLoop h l elt s)) = trace s ++ d /\
             Forall ofTop d) /\
  footprint ofTop any (fst (startLoop h l elt s)).
Proof.
  intros Hl. destruct l as [| c rest]; cbn [startLoop].
  - split; [| apply footprint_ret].
    exists []. now rewrite app_nil_r.
  - assert (Hc : In c top) by (apply Hl; now left).
    assert (Hr : incl rest top) by (intros x Hx; apply Hl; now right).
    destruct (footprint_trace _ _ (processUntilAwait h c elt) s
                (footprint_of_top c _ Hc
                   (footprint_processUntilAwait h c elt)))
      as (d & T & F).
    destruct (processUntilAwait h c elt s) as [[[ps |] | e |] s'];
      cbn [fst snd] in *; (split; [eauto |]).
    + apply footprint_bind; [| intros _; now apply footprint_processAll].
      apply (footprint_of_top c); [exact Hc |].
      apply footprint_processFromAwait.
    + now apply footprint_processAll.
    + apply footprint_throw.
    + apply footprint_stall.
Qed.

End Loop.

(** C8. For a response in which a marker [c] is nested (its parent is
    not the fragment root), at whatever depth: the markers handed to the
    loop are the markers that are children of the fragment root, [c] is
    not among them, and no event of the whole run, before or after
    [transformResponse] returns, is about [c]; the text returned
    is the serialization of the fragment from which every marker has
    been removed, which contains no marker at any depth; and the warning
    about discarded nested markers is the first thing the run does. *)
Theorem nested_markers_are_discarded
        (h : Host) (text : string) (elt : live) (s : state) (c : command) :
  text <> "" ->
  In c (querySelectorAll (makeFragment h text)) ->
  parentIsFragment c = false ->
  let fragment := makeFragment h text in
  let t := transformResponse h text elt s in
  let final := snd (continuation t (atReturn t)) in
  filter parentIsFragment (querySelectorAll fragment)
  = childMarkers 0 fragment /\
  ~ In c (childMarkers 0 fragment) /\
  (exists d, trace final = trace s ++ d /\
             Forall (fun e => commandOf e <> Some c) d) /\
  returnedText t = innerHTML h (removeMarkersList fragment) /\
  querySelectorAll (removeMarkersList fragment) = [] /\
  markersRemoved (atReturn t) = true /\
  (exists d, trace (atReturn t)
             = trace s ++ ConsoleWarn (NestedCommandsDiscarded elt) :: d).
Proof.
  intros Ht Hc Hn fragment t final.
  assert (Q : exists c0, querySelector fragment = Some c0).
  { unfold querySelector, fragment.
    destruct (querySelectorAll (makeFragment h text));
      [destruct Hc | cbn; eauto]. }
  destruct Q as [c0 Q].
  fold fragment in Hc.
  set (all := querySelectorAll fragment) in *.
  set (top := filter parentIsFragment all).
  assert (Nc : ~ In c top).
  { unfold top. rewrite filter_In. intros [_ H]. congruence. }
  assert (Lt : Nat.ltb (length top) (length all) = true).
  { apply Nat.ltb_lt. now apply (filter_length_lt _ _ c). }
  set (s1 := snd (emit (ConsoleWarn (NestedCommandsDiscarded elt))
                    (freshlyParsed s))).
  assert (E : t = mkTransformed (innerHTML h (removeMarkersList fragment))
                    (setMarkersRemoved (snd (startLoop h top elt s1)))
                    (fst (startLoop h top elt s1))).
  { unfold t, transformResponse. rewrite (isEmpty_false _ Ht).
    fold fragment. rewrite Q. fold all. fold top. rewrite Lt. reflexivity. }
  destruct (startLoop_footprint h top elt top s1 (incl_refl _))
    as ((d1 & T1 & F1) & K).
  destruct (footprint_trace _ _ (fst (startLoop h top elt s1))
              (setMarkersRemoved (snd (startLoop h top elt s1))) K)
    as (d2 & T2 & F2).
  assert (About : forall d,
            Forall (fun e => exists c', In c' top /\
                                        pipelineEffect c' elt true e) d ->
            Forall (fun e => commandOf e <> Some c) d).
  { intros d. apply Forall_impl. intros e (c' & Hc' & He) Eq.
    destruct (pipelineEffect_commandOf _ _ _ _ He) as [H | H];
      rewrite H in Eq; [discriminate |].
    injection Eq as ->. contradiction. }
  split; [apply topLevel_childMarkers |].
  split; [now rewrite <- topLevel_childMarkers |].
  unfold final. rewrite E. cbn [atReturn continuation returnedText].
  split; [| split; [reflexivity | split; [| split; [reflexivity |]]]].
  - exists (ConsoleWarn (NestedCommandsDiscarded elt) :: d1 ++ d2). split.
    + rewrite T2. cbn [setMarkersRemoved trace]. rewrite T1. unfold s1. cbn.
      now rewrite <- !app_assoc.
    + constructor; [discriminate |]. apply Forall_app. split; auto.
  - apply querySelectorAll_removeMarkersList.
  - exists d1. cbn [setMarkersRemoved trace]. rewrite T1. unfold s1. cbn.
    now rewrite <- app_assoc.
Qed.

Lemma nested_markers_are_discarded_witness :
  let c := ([0; 0; 1], Demo.nestedInner) in
  let t := transformResponse Demo.page Demo.nestedText Demo.button Demo.fresh in
  ~ In c (childMarkers 0 Demo.nestedResponse) /\
  returnedText t = "<p>tail</p>" /\
  exists d, trace (atReturn t)
            = ConsoleWarn (NestedCommandsDiscarded Demo.button) :: d.
Proof.
  intros c t.
  assert (Ne : Demo.nestedText <> "") by discriminate.
  assert (Hc : In c (querySelectorAll
                       (makeFragment Demo.page Demo.nestedText)))
    by (right; left; reflexivity).
  destruct (nested_markers_are_discarded Demo.page Demo.nestedText
              Demo.button Demo.fresh c Ne Hc eq_refl)
    as (_ & N & _ & R & _ & _ & W).
  split; [exact N |]. split; [exact R | exact W].
Defined.

(** * The loop over the markers *)

Lemma forEach_app {A} (l1 l2 : list A) (body : A -> M unit) (s : state) :
  forEach (l1 ++ l2) body s =
  match forEach l1 body s with
  | (Returned _, s1) => forEach l2 body s1
  | (Thrown e, s1) => (Thrown e, s1)
  | (Stalled, s1) => (Stalled, s1)
  end.
Proof.
  revert s. induction l1 as [| x r IH]; intros s; cbn [forEach app].
  - reflexivity.
  - unfold bind. destruct (body x s) as [[[] | e |] s']; auto.
Qed.

(** What is thrown inside a pipeline is reported at its boundary, and
    the pipeline returns. *)
Lemma thrown_is_reported (h : Host) (c : command) (ctx : live)
      (s s' : state) (e : error) :
  (r <- beforeFirstAwait h c ctx ;;
   match r with
   | None => ret tt
   | Some swapPromises => afterFirstAwait h c ctx swapPromises
   end) s = (Thrown e, s') ->
  processCommandFromElement h c ctx s
  = (Returned tt, withEffects s' [serverCommandError c e]).
Proof.
  intros E. unfold processCommandFromElement, tryCatch. now rewrite E.
Qed.


(** The trace of the loop, marker by marker: one block of effects for
    each marker begun, in document order, each block made of effects of
    the pipeline of its own marker. *)
Lemma processAll_blocks (h : Host) (ctx : live) (els : list command) :
  forall s, exists blocks,
    trace (snd (processAll h els ctx s)) = trace s ++ concat blocks /\
    Forall2 (fun c d => Forall (pipelineEffect c ctx true) d)
            (firstn (length blocks) els) blocks /\
    (fst (processAll h els ctx s) = Returned tt ->
     length blocks = length els).
Proof.
  induction els as [| c r IH]; intros s.
  - exists []. cbn. rewrite app_nil_r. repeat split; constructor.
  - destruct (footprint_trace _ _ (processCommandFromElement h c ctx) s
                (footprint_processCommandFromElement h c ctx))
      as (d & T & F).
    unfold processAll in *. cbn [forEach].
    change ((processCommandFromElement h c ctx ;;
             forEach r (fun el => processCommandFromElement h el ctx)) s)
      with (match processCommandFromElement h c ctx s with
            | (Returned _, s') =>
                forEach r (fun el => processCommandFromElement h el ctx) s'
            | (Thrown e, s') => (Thrown e, s')
            | (Stalled, s') => (Stalled, s')
            end).
    destruct (processCommandFromElement h c ctx s) as [[[] | e |] s1];
      cbn [fst snd] in *.
    + destruct (IH s1) as (blocks & T' & F' & L').
      exists (d :: blocks). cbn [concat length firstn]. split; [| split].
      * rewrite T', T. now rewrite <- app_assoc.
      * constructor; assumption.
      * intros E. now rewrite (L' E).
    + exists [d]. cbn. rewrite app_nil_r. split; [exact T |].
      split; [repeat constructor; exact F | discriminate].
    + exists [d]. cbn. rewrite app_nil_r. split; [exact T |].
      split; [repeat constructor; exact F | discriminate].
Qed.


(** * A swap that fails behind the swap timer *)

(** Whatever the page: when the DOM work of a deferred swap throws, the
    pipeline that awaits it stalls there, without any further effect. *)
Lemma deferred_swap_failure_stalls
      (h : Host) (c : command) (ctx : live) (s : state)
      (t : live) (content : string) (spec : swapSpec)
      (select : option string) (ps : list promise) (e : error) :
  swapInDom h (trace s) t content spec select = Some e ->
  processFromAwait h c ctx (AwaitingSwap t content spec select :: ps) s
  = (Stalled, s).
Proof.
  intros E.
  unfold processFromAwait, afterFirstAwait. cbn [forEach].
  unfold awaitSwap, inCallback, tryCatch, bind, ask, orThrow. cbn.
  now rewrite E.
Qed.

(** So does it when the settle phase of a swap that has been done
    throws behind the settle timer: the [resolve] of the timer callback
    is not reached. *)
Lemma deferred_settle_failure_stalls
      (h : Host) (c : command) (ctx : live) (s : state)
      (t : live) (ps : list promise) (e : error) :
  settleInDom h (trace s) t = Some e ->
  processFromAwait h c ctx (AwaitingSettle t :: ps) s = (Stalled, s).
Proof.
  intros E.
  unfold processFromAwait, afterFirstAwait. cbn [forEach].
  unfold awaitSwap, inCallback, doSettle, tryCatch, bind, ask, orThrow. cbn.
  now rewrite E.
Qed.

(** C2. The response
    [<htmx target=#t swap="innerHTML swap:1s" select=[>x</htmx>
     <htmx trigger=done></htmx>]
    on a page that has [#t]: the swap of the first marker is handed to
    the swap timer, where the invalid [select] makes it throw outside
    every [try].  Its promise is never settled: the pipeline stalls at
    its first [await], no command-error event is fired and the second
    marker is never begun. *)
Theorem delayed_swap_failure_stalls_the_run :
  let c0 := ([0], Demo.delayedBadSelect) in
  let c1 := ([1], Demo.triggerDone) in
  let run := processAll Demo.page [c0; c1] Demo.button Demo.fresh in
  fst run = Stalled /\
  trace (snd run)
  = [ beforeServerCommand c0 Demo.button;
      TriggerEvent Demo.t1 "htmx:beforeSwap"
        (BeforeSwapDetail
           (mkBeforeSwap Demo.button Demo.t1
              (mkSwapSpec "innerHTML" 1000 20 None) "x" true)) ] /\
  (forall e, ~ In (serverCommandError c0 e) (trace (snd run))) /\
  ~ In (beforeServerCommand c1 Demo.button) (trace (snd run)).
Proof.
  repeat split.
  - cbn. intros e [H | [H | []]]; discriminate.
  - cbn. intros [H | [H | []]]; discriminate.
Qed.

(** The same marker without the delay: the swap throws inside the [try]
    of [swapAsync], the promise is rejected, the error is reported at the
    marker boundary and the second marker runs. *)
Lemma prompt_swap_failure_is_reported :
  let c0 := ([0], Demo.promptBadSelect) in
  let c1 := ([1], Demo.triggerDone) in
  let run := processAll Demo.page [c0; c1] Demo.button Demo.fresh in
  fst run = Returned tt /\
  In (serverCommandError c0 (HostError "SyntaxError")) (trace (snd run)) /\
  In (afterServerCommand c1 Demo.button) (trace (snd run)).
Proof.
  repeat split.
  - cbn. do 3 right. left. reflexivity.
  - cbn. do 7 right. left. reflexivity.
Qed.

(** * Isolation when no swap is deferred and the settle tasks return *)

Lemma yields_ret {A} (R : A -> Prop) (a : A) : R a -> yields R (ret a).
Proof. intros H s a' s' [= <- _]. exact H. Qed.

Lemma yields_bind {A B} (R1 : A -> Prop) (R : B -> Prop)
      (m : M A) (k : A -> M B) :
  yields R1 m -> (forall a, R1 a -> yields R (k a)) -> yields R (bind m k).
Proof.
  intros Hm Hk s b s' E. unfold bind in E.
  destruct (m s) as [[a | e |] s1] eqn:Em; try discriminate.
  eapply Hk; eauto.
Qed.

Lemma yields_tryCatch {A} (R : A -> Prop) (m : M A) (handler : error -> M A) :
  yields R m -> (forall e, yields R (handler e)) -> yields R (tryCatch m handler).
Proof.
  intros Hm Hk s a s' E. unfold tryCatch in E.
  destruct (m s) as [[a' | e |] s1] eqn:Em; try discriminate.
  - injection E as <- <-. eauto.
  - eapply Hk; eauto.
Qed.

Lemma yields_any {A} (m : M A) : yields (fun _ => True) m.
Proof. intros s a s' _. exact I. Qed.

(** A step that cannot stall, followed by steps that cannot stall on
    what it returns. *)
Lemma neverStalls_bind_yields {A B} (R : A -> Prop) (m : M A) (k : A -> M B) :
  neverStalls m -> yields R m -> (forall a, R a -> neverStalls (k a)) ->
  neverStalls (bind m k).
Proof.
  intros Hm Hy Hk s. unfold bind. specialize (Hm s).
  destruct (m s) as [[a | e |] s1] eqn:Em; cbn in *; try congruence.
  eapply Hk; eauto.
Qed.

Lemma neverStalls_inCallback (m : M unit) :
  neverStalls m -> neverThrows m -> neverStalls (inCallback m).
Proof.
  intros S T s. unfold inCallback, tryCatch.
  specialize (S s). specialize (T s).
  destruct (m s) as [[a | e |] s1]; cbn in *;
    solve [discriminate | congruence | now elim (T e)].
Qed.

Section PromptSwaps.

Variable h : Host.
Hypothesis prompt : promptSwaps h.
Hypothesis settles : settleReturns h.

(** Without view transitions and without a swap delay, [doSwap] has run
    when [swapAsync] returns. *)
Lemma swapAsync_has_run t content spec select ctx :
  (swapDelay spec <= 0)%Z ->
  yields swapHasRun (swapAsync h t content spec select ctx).
Proof.
  intros Hd. destruct prompt as [Hv _]. unfold swapAsync. rewrite Hv.
  assert (D : Z.ltb 0 (swapDelay spec) = false) by (apply Z.ltb_ge; lia).
  rewrite D.
  eapply yields_bind with (R1 := fun b => b = false).
  - destruct (match transition spec with
              | Some b => b
              | None => globalViewTransitions h
              end).
    + eapply yields_bind; [apply yields_any |].
      intros b _. apply yields_ret. apply andb_false_r.
    + now apply yields_ret.
  - intros b ->. cbn [orb]. apply yields_tryCatch.
    + unfold doSwap.
      do 3 (eapply yields_bind; [apply yields_any |]; intros ? _).
      destruct (Z.ltb 0 (settleDelay spec)).
      * now apply yields_ret.
      * eapply yields_bind; [apply yields_any |]. intros _ _.
        now apply yields_ret.
    + intros e. eapply yields_bind; [apply yields_any |]. intros _ _.
      now apply yields_ret.
Qed.

Lemma startSwapJobs_have_run jobs ctx spec select :
  yields (Forall swapHasRun) (startSwapJobs h jobs ctx spec select).
Proof.
  induction jobs as [| job rest IH]; cbn [startSwapJobs].
  - now apply yields_ret.
  - eapply yields_bind with
      (R1 := fun r => exists tr d, snd r = beforeSwapListeners h tr d).
    + unfold triggerBeforeSwap. intros s r s' E.
      unfold bind, ask, triggerEvent, emit, ret in E. cbn in E.
      injection E as <- _. cbn. eauto.
    + intros r (tr & d & Er).
      eapply yields_bind with (R1 := Forall swapHasRun).
      * destruct (negb (fst r)); [now apply yields_ret |].
        destruct (bs_shouldSwap (snd r)); [| now apply yields_ret].
        eapply yields_bind.
        -- apply swapAsync_has_run. rewrite Er. apply prompt.
        -- intros p Hp. apply yields_ret. auto.
      * intros ps Hps. eapply yields_bind; [exact IH |].
        intros qs Hqs. apply yields_ret. now apply Forall_app.
Qed.

Lemma beforeFirstAwait_have_run c ctx :
  yields (fun r => match r with
                   | Some ps => Forall swapHasRun ps
                   | None => True
                   end)
         (beforeFirstAwait h c ctx).
Proof.
  unfold beforeFirstAwait.
  eapply yields_bind; [apply yields_any |]. intros b _.
  destruct (negb b); [now apply yields_ret |].
  eapply yields_bind; [apply yields_any |]. intros _ _.
  eapply yields_bind; [apply yields_any |]. intros jobs _.
  eapply yields_bind; [apply startSwapJobs_have_run |].
  intros ps Hps. now apply yields_ret.
Qed.

(** Awaiting a promise whose [doSwap] has run cannot stall, when no
    settle task throws. *)
Lemma neverStalls_awaitSwap (p : promise) :
  swapHasRun p -> neverStalls (awaitSwap h p).
Proof.
  destruct p; cbn; intros H; try contradiction; neverStalls_auto.
  apply neverStalls_inCallback.
  - unfold doSettle. neverStalls_auto.
  - intros s e. unfold doSettle, bind, ask, orThrow, emit.
    rewrite settles. discriminate.
Qed.

Lemma neverStalls_afterFirstAwait c ctx ps :
  Forall swapHasRun ps -> neverStalls (afterFirstAwait h c ctx ps).
Proof.
  intros H. unfold afterFirstAwait, immediatePhase, whenAttribute.
  apply neverStalls_bind.
  - induction H as [| p r Hp _ IH]; cbn [forEach].
    + apply neverStalls_ret.
    + apply neverStalls_bind; [now apply neverStalls_awaitSwap | auto].
  - intros _.
    pose proof (neverStalls_triggerEvent h).
    pose proof (neverStalls_handleTriggerAttribute h).
    pose proof (neverStalls_immediateActions h).
    neverStalls_auto; auto.
Qed.

(** On a page where no swap is deferred and no settle task throws,
    every pipeline returns: whatever is thrown in it, the swap
    included, is caught at the marker boundary ... *)
Lemma pipeline_returns_with_prompt_swaps (c : command) (ctx : live) :
  returns (processCommandFromElement h c ctx).
Proof.
  unfold processCommandFromElement. apply returns_tryCatch.
  - eapply neverStalls_bind_yields.
    + apply neverStalls_beforeFirstAwait.
    + apply beforeFirstAwait_have_run.
    + intros [ps |] H; [now apply neverStalls_afterFirstAwait |].
      apply neverStalls_ret.
  - intros e. apply returns_reportError.
Qed.

(** ... and the loop goes through all the markers. *)
Lemma loop_returns_with_prompt_swaps (els : list command) (ctx : live) :
  returns (processAll h els ctx).
Proof.
  unfold processAll. apply returns_forEach. intros c.
  apply pipeline_returns_with_prompt_swaps.
Qed.

End PromptSwaps.

(** * The scenarios of the specification, evaluated *)

(** [trigger='{"a":{"x":1}}'] fires one event named [a] with detail
    [{x:1}] at the document body. *)
Example trigger_json_scenario :
  handleTriggerAttribute Demo.page Demo.jsonPlain Demo.fresh
  = (Returned tt,
     withEffects Demo.fresh
       [TriggerEvent DocumentBody "a" (Payload (JObject [("x", JNumber 1)]))]).
Proof. reflexivity. Qed.

(** [<htmx trigger=done></htmx>]: the event [done] is fired once, without
    detail, between the after-swap notification and the post-command
    event. *)
Example trigger_done_scenario :
  let c := ([0], Demo.triggerDone) in
  processCommandFromElement Demo.page c Demo.button Demo.fresh
  = (Returned tt,
     withEffects Demo.fresh
       [ beforeServerCommand c Demo.button;
         afterSwap c Demo.button;
         TriggerEvent DocumentBody "done" NoDetail;
         afterServerCommand c Demo.button ]).
Proof. reflexivity. Qed.

(** [<htmx foo=1>x</htmx>]: validation fails, the command-error event is
    fired and nothing else happens. *)
Example unknown_attribute_scenario :
  let c := ([0], Demo.unknownOnly) in
  processCommandFromElement Demo.page c Demo.button Demo.fresh
  = (Returned tt,
     withEffects Demo.fresh
       [ beforeServerCommand c Demo.button;
         serverCommandError c (NoCommandAttributes Demo.unknownOnly) ]).
Proof. reflexivity. Qed.

(** [<htmx push-url=/p redirect=/login trigger=e>]: the trigger, then
    the redirect, and nothing after it. *)
Example redirect_scenario :
  let c := ([0], Demo.redirecting) in
  processCommandFromElement Demo.page c Demo.button Demo.fresh
  = (Returned tt,
     withEffects Demo.fresh
       [ beforeServerCommand c Demo.button;
         afterSwap c Demo.button;
         TriggerEvent DocumentBody "e" NoDetail;
         SetLocationHref "/login" ]).
Proof. reflexivity. Qed.

(** The response of the test "discards nested htmx tags": one pipeline
    is begun, that of the outer marker, and the text handed back to htmx
    is what remains without the markers. *)
Example nested_scenario :
  let run := runResponse Demo.page Demo.nestedText Demo.button Demo.fresh in
  fst run = "<p>tail</p>" /\
  fst (snd run) = Returned tt /\
  filter (fun e => match e with
                   | TriggerEvent _ "htmx:beforeServerCommand" _ => true
                   | _ => false
                   end) (trace (snd (snd run)))
  = [beforeServerCommand ([0], Demo.nestedOuter) Demo.button].
Proof. repeat split. Qed.

(** * The helpers copied from htmx *)

(** ** Strings *)

Lemma substring_all (s : string) : String.substring 0 (String.length s) s = s.
Proof. induction s; cbn; congruence. Qed.

Lemma substring_prefix (p r : string) :
  String.substring 0 (String.length p) (p ++ r)%string = p.
Proof. induction p; cbn; [now destruct r | congruence]. Qed.

Lemma substring_is_prefix (p s : string) :
  String.substring 0 (String.length p) s = p ->
  exists r, s = (p ++ r)%string.
Proof.
  revert s. induction p as [| c p IH]; intros s E.
  - now exists s.
  - destruct s as [| d s]; cbn in E; [discriminate |].
    injection E as -> E. destruct (IH _ E) as [r ->]. now exists r.
Qed.

Lemma substring_skip (a b : string) (m : nat) :
  String.substring (String.length a) m (a ++ b)%string
  = String.substring 0 m b.
Proof. induction a; cbn; auto. Qed.

Lemma substring_split (n : nat) (s : string) :
  n <= String.length s ->
  s = (String.substring 0 n s
       ++ String.substring n (String.length s - n) s)%string.
Proof.
  revert s. induction n as [| n IH]; intros s L.
  - rewrite Nat.sub_0_r, substring_all. now destruct s.
  - destruct s as [| c s]; cbn in *; [lia |].
    f_equal. apply IH. lia.
Qed.

Lemma length_append (a b : string) :
  String.length (a ++ b)%string = String.length a + String.length b.
Proof. induction a; cbn; auto. Qed.

Lemma startsWith_spec (str prefix : string) :
  Htmx.startsWith str prefix = true <-> exists r, str = (prefix ++ r)%string.
Proof.
  unfold Htmx.startsWith. rewrite String.eqb_eq. split.
  - apply substring_is_prefix.
  - intros [r ->]. apply substring_prefix.
Qed.

Lemma endsWith_spec (str suffix : string) :
  Htmx.endsWith str suffix = true <-> exists r, str = (r ++ suffix)%string.
Proof.
  unfold Htmx.endsWith, Htmx.substringFrom. rewrite String.eqb_eq.
  replace (Z.to_nat
             (Z.max 0 (Z.of_nat (String.length str)
                       - Z.of_nat (String.length suffix))))
    with (String.length str - String.length suffix) by lia.
  split.
  - intros E.
    destruct (Nat.le_gt_cases (String.length suffix) (String.length str))
      as [L | L].
    + exists (String.substring 0 (String.length str - String.length suffix) str).
      pose proof (substring_split
                    (String.length str - String.length suffix) str) as S.
      rewrite E in S. apply S. lia.
    + replace (String.length str - String.length suffix) with 0 in E by lia.
      rewrite Nat.sub_0_r, substring_all in E. subst. lia.
  - intros [r ->]. rewrite length_append.
    replace (String.length r + String.length suffix - String.length suffix)
      with (String.length r) by lia.
    replace (String.length r + String.length suffix - String.length r)
      with (String.length suffix) by lia.
    rewrite substring_skip. apply substring_all.
Qed.

(** X1. [startsWith] and [endsWith] decide the prefix and the suffix
    relation, also when the affix is longer than the string or empty. *)
Theorem startsWith_endsWith_decide (str affix : string) :
  (Htmx.startsWith str affix = true <-> exists r, str = (affix ++ r)%string) /\
  (Htmx.endsWith str affix = true <-> exists r, str = (r ++ affix)%string) /\
  (String.length str < String.length affix ->
   Htmx.startsWith str affix = false /\ Htmx.endsWith str affix = false).
Proof.
  split; [apply startsWith_spec | split; [apply endsWith_spec |]].
  intros L. split.
  - destruct (Htmx.startsWith str affix) eqn:E; [| reflexivity].
    apply startsWith_spec in E. destruct E as [r ->].
    rewrite length_append in L. lia.
  - destruct (Htmx.endsWith str affix) eqn:E; [| reflexivity].
    apply endsWith_spec in E. destruct E as [r ->].
    rewrite length_append in L. lia.
Qed.

(** ** The [hx-on] attributes *)

Lemma startsWith_longer (name p q : string) :
  Htmx.startsWith name p = false ->
  (forall r, Htmx.startsWith (q ++ r)%string p = true) ->
  Htmx.startsWith name q = false.
Proof.
  intros F H. destruct (Htmx.startsWith name q) eqn:E; [| reflexivity].
  apply startsWith_spec in E. destruct E as [r ->].
  rewrite H in F. discriminate.
Qed.

Lemma hxOnEventName_isHxOnName (name : string) :
  Htmx.isHxOnName name
  = match Htmx.hxOnEventName name with Some _ => true | None => false end.
Proof.
  destruct (Htmx.startsWith name "hx-on") eqn:A.
  - apply startsWith_spec in A. destruct A as [r ->].
    destruct r as [| c r]; [reflexivity |].
    destruct r; destruct c as [[] [] [] [] [] [] [] []];
      vm_compute; reflexivity.
  - destruct (Htmx.startsWith name "data-hx-on") eqn:B.
    + apply startsWith_spec in B. destruct B as [r ->].
      destruct r as [| c r]; [reflexivity |].
      destruct r; destruct c as [[] [] [] [] [] [] [] []];
        vm_compute; reflexivity.
    + unfold Htmx.isHxOnName, Htmx.hxOnEventName. rewrite A, B. cbn [orb].
      rewrite (startsWith_longer name "hx-on" "hx-on:" A),
        (startsWith_longer name "hx-on" "hx-on-" A),
        (startsWith_longer name "data-hx-on" "data-hx-on:" B),
        (startsWith_longer name "data-hx-on" "data-hx-on-" B);
        reflexivity.
Qed.

(** X2. [shouldProcessHxOn] and [processHxOnWildcard] agree: an element
    is picked for its [hx-on] attributes exactly when a handler is added
    for one of them. *)
Theorem shouldProcessHxOn_iff_handler (elt : node) :
  Htmx.shouldProcessHxOn elt = true <-> Htmx.processHxOnWildcard elt <> [].
Proof.
  unfold Htmx.processHxOnWildcard.
  destruct elt as [s | t a ch]; cbn [Htmx.shouldProcessHxOn attributesOf].
  - cbn. split; [discriminate | congruence].
  - induction a as [| [k v] a IH]; cbn [existsb flat_map fst snd].
    + split; [discriminate | congruence].
    + rewrite hxOnEventName_isHxOnName.
      destruct (Htmx.hxOnEventName k); cbn [orb app].
      * split; [discriminate | reflexivity].
      * exact IH.
Qed.

Lemma substring_0_0 (s : string) : String.substring 0 0 s = "".
Proof. now destruct s. Qed.

Lemma sliceFrom_cons (c : ascii) (s : string) (n : nat) :
  Htmx.sliceFrom (String c s) (S n) = Htmx.sliceFrom s n.
Proof. reflexivity. Qed.

Lemma sliceFrom_0 (s : string) : Htmx.sliceFrom s 0 = s.
Proof. unfold Htmx.sliceFrom. rewrite Nat.sub_0_r. apply substring_all. Qed.

Lemma slice_cons (c : ascii) (s : string) (n m : nat) :
  Htmx.slice (String c s) (S n) (S m) = Htmx.slice s n m.
Proof. reflexivity. Qed.

Lemma slice_0_1 (c : ascii) (s : string) :
  Htmx.slice (String c s) 0 1 = String c "".
Proof. unfold Htmx.slice. cbn. now rewrite substring_0_0. Qed.

Lemma startsWith_cons (c d : ascii) (s p : string) :
  Htmx.startsWith (String c s) (String d p)
  = (Ascii.eqb c d && Htmx.startsWith s p)%bool.
Proof. reflexivity. Qed.

Lemma startsWith_empty (s : string) : Htmx.startsWith s "" = true.
Proof. unfold Htmx.startsWith. cbn. now rewrite substring_0_0. Qed.

(** The event of an attribute name from what follows [on:] or [on-]. *)
Lemma hxOnEventName_hx (sep : ascii) (e : string) :
  sep = ":"%char \/ sep = "-"%char ->
  Htmx.hxOnEventName ("hx-on" ++ String sep e)
  = Some (if Htmx.startsWith e ":" then ("htmx" ++ e)%string
          else if Htmx.startsWith e "-"
               then ("htmx:" ++ Htmx.sliceFrom e 1)%string
          else if Htmx.startsWith e "htmx-"
               then ("htmx:" ++ Htmx.sliceFrom e 5)%string
          else e).
Proof.
  intros S. unfold Htmx.hxOnEventName.
  replace (Htmx.indexOf ("hx-on" ++ String sep e) "-on") with 2%Z
    by reflexivity.
  change (Z.to_nat (2 + 3)) with 5. change (5 + 1) with 6.
  cbn [append].
  rewrite !startsWith_cons, !startsWith_empty.
  rewrite !slice_cons, slice_0_1, !sliceFrom_cons, sliceFrom_0.
  destruct S as [-> | ->]; reflexivity.
Qed.

Lemma hxOnEventName_data (sep : ascii) (e : string) :
  sep = ":"%char \/ sep = "-"%char ->
  Htmx.hxOnEventName ("data-hx-on" ++ String sep e)
  = Some (if Htmx.startsWith e ":" then ("htmx" ++ e)%string
          else if Htmx.startsWith e "-"
               then ("htmx:" ++ Htmx.sliceFrom e 1)%string
          else if Htmx.startsWith e "htmx-"
               then ("htmx:" ++ Htmx.sliceFrom e 5)%string
          else e).
Proof.
  intros S. unfold Htmx.hxOnEventName.
  replace (Htmx.indexOf ("data-hx-on" ++ String sep e) "-on") with 7%Z
    by reflexivity.
  change (Z.to_nat (7 + 3)) with 10. change (10 + 1) with 11.
  cbn [append].
  rewrite !startsWith_cons, !startsWith_empty.
  rewrite !slice_cons, slice_0_1, !sliceFrom_cons, sliceFrom_0.
  destruct S as [-> | ->]; reflexivity.
Qed.

(** X3. the spellings of an [hx-on] attribute name the same event: with
    or without [data-], with a colon or a dash after [on]; and the three
    short forms of an htmx event, [::x], [--x] and [-htmx-x], all stand
    for [htmx:x]. *)
Theorem hxOn_spellings (e : string) :
  let ev := Htmx.hxOnEventName ("hx-on:" ++ e) in
  Htmx.hxOnEventName ("hx-on-" ++ e) = ev /\
  Htmx.hxOnEventName ("data-hx-on:" ++ e) = ev /\
  Htmx.hxOnEventName ("data-hx-on-" ++ e) = ev /\
  Htmx.hxOnEventName ("hx-on::" ++ e) = Some ("htmx:" ++ e)%string /\
  Htmx.hxOnEventName ("hx-on--" ++ e) = Some ("htmx:" ++ e)%string /\
  Htmx.hxOnEventName ("hx-on-htmx-" ++ e) = Some ("htmx:" ++ e)%string.
Proof.
  cbv zeta.
  change ("hx-on:" ++ e)%string with ("hx-on" ++ String ":" e)%string.
  change ("hx-on-" ++ e)%string with ("hx-on" ++ String "-" e)%string.
  change ("data-hx-on:" ++ e)%string
    with ("data-hx-on" ++ String ":" e)%string.
  change ("data-hx-on-" ++ e)%string
    with ("data-hx-on" ++ String "-" e)%string.
  change ("hx-on::" ++ e)%string
    with ("hx-on" ++ String ":" (":" ++ e))%string.
  change ("hx-on--" ++ e)%string
    with ("hx-on" ++ String "-" ("-" ++ e))%string.
  change ("hx-on-htmx-" ++ e)%string
    with ("hx-on" ++ String "-" ("htmx-" ++ e))%string.
  rewrite !hxOnEventName_hx, !hxOnEventName_data by auto.
  repeat split.
  - cbn [append]. now rewrite startsWith_cons, startsWith_empty.
  - cbn [append]. rewrite !startsWith_cons, startsWith_empty.
    cbn -[Htmx.sliceFrom]. now rewrite sliceFrom_cons, sliceFrom_0.
  - cbn [append]. rewrite !startsWith_cons, startsWith_empty.
    cbn -[Htmx.sliceFrom Htmx.startsWith].
    now rewrite ?startsWith_cons, ?startsWith_empty, !sliceFrom_cons,
      sliceFrom_0.
Qed.

(** ** The attribute hash *)

Lemma toInt32_decomp (x : Z) :
  exists k, (Htmx.toInt32 x = x + k * 2 ^ 32)%Z.
Proof.
  exists (- ((x + 2 ^ 31) / 2 ^ 32))%Z. unfold Htmx.toInt32.
  rewrite Z.mod_eq by lia. lia.
Qed.

Lemma toInt32_congr (a b k : Z) :
  (a = b + k * 2 ^ 32)%Z -> Htmx.toInt32 a = Htmx.toInt32 b.
Proof.
  intros ->. unfold Htmx.toInt32. f_equal.
  replace (b + k * 2 ^ 32 + 2 ^ 31)%Z with (b + 2 ^ 31 + k * 2 ^ 32)%Z by lia.
  apply Z_mod_plus_full.
Qed.

Lemma toInt32_range (x : Z) : (- 2 ^ 31 <= Htmx.toInt32 x < 2 ^ 31)%Z.
Proof.
  unfold Htmx.toInt32.
  pose proof (Z.mod_pos_bound (x + 2 ^ 31) (2 ^ 32)). lia.
Qed.

Lemma stringHash_step (h c : Z) :
  Htmx.toInt32 (Htmx.shiftLeft5 (Htmx.toInt32 h) - Htmx.toInt32 h + c)
  = Htmx.toInt32 (31 * h + c).
Proof.
  unfold Htmx.shiftLeft5. rewrite Z.shiftl_mul_pow2 by lia.
  change (2 ^ 5)%Z with 32%Z.
  destruct (toInt32_decomp (Htmx.toInt32 (Htmx.toInt32 h) * 32)) as [k2 E2].
  destruct (toInt32_decomp (Htmx.toInt32 h)) as [k1 E1].
  destruct (toInt32_decomp h) as [k0 E0].
  rewrite E2, E1, E0.
  apply (toInt32_congr _ _ (31 * k0 + 32 * k1 + k2)%Z). lia.
Qed.

Lemma stringHash_app (a b : string) (h : Z) :
  Htmx.stringHash (a ++ b) h = Htmx.stringHash b (Htmx.stringHash a h).
Proof.
  revert h. induction a; intros h; cbn [append Htmx.stringHash]; auto.
Qed.

Lemma stringHash_cons (c : ascii) (r : string) (h : Z) :
  Htmx.stringHash (String c r) h
  = Htmx.stringHash r
      (Htmx.toInt32 (Htmx.shiftLeft5 h - h + Htmx.charCode c)).
Proof. reflexivity. Qed.

Lemma stringHash_toInt32 (s : string) (h : Z) :
  Htmx.stringHash s (Htmx.toInt32 h) = Htmx.toInt32 (Htmx.polynomial31 s h).
Proof.
  revert h. induction s as [| c r IH]; intros h; [reflexivity |].
  rewrite stringHash_cons, stringHash_step. apply IH.
Qed.

(** X4. [stringHash] is the polynomial hash in 31 of the code units,
    reduced to a 32-bit integer: started from a 32-bit value, the result
    is the two's complement value of the polynomial, whatever overflows
    on the way. *)
Theorem stringHash_polynomial (s : string) (h : Z) :
  Htmx.stringHash s (Htmx.toInt32 h) = Htmx.toInt32 (Htmx.polynomial31 s h) /\
  (- 2 ^ 31 <= Htmx.stringHash s (Htmx.toInt32 h) < 2 ^ 31)%Z.
Proof.
  split; [apply stringHash_toInt32 |].
  rewrite stringHash_toInt32. apply toInt32_range.
Qed.

Lemma attributeHash_fold (l : list (string * string)) (h : Z) :
  fold_left
    (fun hash attribute =>
       if Str.isEmpty (snd attribute) then hash
       else Htmx.stringHash (snd attribute)
              (Htmx.stringHash (fst attribute) hash)) l h
  = Htmx.stringHash (Htmx.hashedText l) h.
Proof.
  revert h. induction l as [| [k v] l IH]; intros h;
    cbn [fold_left Htmx.hashedText fst snd]; [reflexivity |].
  rewrite IH. destruct (Str.isEmpty v); [reflexivity |].
  now rewrite !stringHash_app.
Qed.

(** X5. [attributeHash] sees the attributes as one text: it is the
    32-bit polynomial hash of the names and values written one after the
    other, without the attributes whose value is empty.  So it is a
    32-bit integer, an attribute with an empty value does not count, and
    two attribute lists that spell the same text have the same hash. *)
Theorem attributeHash_of_text (elt : node) :
  Htmx.attributeHash elt
  = Htmx.toInt32 (Htmx.polynomial31 (Htmx.hashedText (attributesOf elt)) 0) /\
  (- 2 ^ 31 <= Htmx.attributeHash elt < 2 ^ 31)%Z /\
  (forall other,
     Htmx.hashedText (attributesOf other) = Htmx.hashedText (attributesOf elt) ->
     Htmx.attributeHash other = Htmx.attributeHash elt).
Proof.
  assert (E : forall e,
             Htmx.attributeHash e
             = Htmx.toInt32
                 (Htmx.polynomial31 (Htmx.hashedText (attributesOf e)) 0)).
  { intros e. unfold Htmx.attributeHash. rewrite attributeHash_fold.
    apply (stringHash_toInt32 _ 0). }
  split; [apply E | split].
  - rewrite E. apply toInt32_range.
  - intros other H. now rewrite !E, H.
Qed.

(** ** cloneAttributes *)

Lemma hasName_In (l : Htmx.attrs) (name : string) :
  Htmx.hasName l name = true <-> In name (map fst l).
Proof.
  unfold Htmx.hasName. rewrite existsb_exists. split.
  - intros [kv [I E]]. apply String.eqb_eq in E. subst. now apply in_map.
  - intros I. apply in_map_iff in I. destruct I as [kv [E I]].
    exists kv. split; [assumption |]. now apply String.eqb_eq.
Qed.

Lemma hasName_lookupAttr (l : Htmx.attrs) (name : string) :
  Htmx.hasName l name = false <-> lookupAttr name l = None.
Proof.
  induction l as [| [k v] l IH]; cbn; [tauto |].
  destruct (String.eqb k name); cbn; [split; discriminate | exact IH].
Qed.

Lemma removeAttribute_absent (l : Htmx.attrs) (name : string) :
  ~ In name (map fst l) -> Htmx.removeAttribute l name = l.
Proof.
  induction l as [| [k v] l IH]; cbn; intros N; [reflexivity |].
  destruct (String.eqb_spec k name) as [-> | D]; cbn.
  - exfalso. apply N. now left.
  - f_equal. apply IH. tauto.
Qed.

Lemma removeAttribute_at (pre : Htmx.attrs) (a : string * string)
      (r : Htmx.attrs) :
  NoDup (map fst (pre ++ a :: r)) ->
  Htmx.removeAttribute (pre ++ a :: r) (fst a) = pre ++ r.
Proof.
  intros N. unfold Htmx.removeAttribute. rewrite filter_app. cbn.
  rewrite String.eqb_refl. cbn.
  rewrite map_app in N. cbn in N.
  assert (N1 := NoDup_remove_2 _ _ _ N).
  fold (Htmx.removeAttribute pre (fst a)).
  fold (Htmx.removeAttribute r (fst a)).
  rewrite !removeAttribute_absent; [reflexivity | |];
    intros I; apply N1, in_or_app; auto.
Qed.

Lemma nth_error_at {A} (pre : list A) (a : A) (r : list A) :
  nth_error (pre ++ a :: r) (List.length pre) = Some a.
Proof. induction pre; cbn; auto. Qed.

Lemma nth_error_past {A} (pre : list A) :
  nth_error (pre ++ []) (List.length pre) = None.
Proof. induction pre; cbn; auto. Qed.

Lemma NoDup_drop_middle (pre : Htmx.attrs) (a : string * string)
      (r : Htmx.attrs) :
  NoDup (map fst (pre ++ a :: r)) -> NoDup (map fst (pre ++ r)).
Proof.
  rewrite !map_app. cbn. apply NoDup_remove_1.
Qed.

Lemma snoc_app {A} (pre : list A) (a : A) (r : list A) :
  pre ++ a :: r = (pre ++ [a]) ++ r.
Proof. now rewrite <- app_assoc. Qed.

(** The first loop of [cloneAttributes], attribute by attribute. *)
Lemma removeMissing_sweep (mergeFrom : Htmx.attrs) (fuel : nat) :
  forall pre suf,
    NoDup (map fst (pre ++ suf)) -> List.length suf <= fuel ->
    Htmx.removeMissing fuel (List.length pre) (pre ++ suf) mergeFrom
    = pre ++ Htmx.sweep mergeFrom suf.
Proof.
  induction fuel as [| fuel IH]; intros pre suf N L.
  - destruct suf; [reflexivity | cbn in L; lia].
  - destruct suf as [| a r]; cbn [Htmx.removeMissing Htmx.sweep].
    + now rewrite nth_error_past.
    + rewrite nth_error_at. cbn in L.
      destruct (Htmx.hasName mergeFrom (fst a)).
      * rewrite (snoc_app pre a r) in *.
        replace (S (List.length pre)) with (List.length (pre ++ [a]))
          by (rewrite length_app; cbn; lia).
        rewrite IH by (assumption || lia).
        now rewrite <- app_assoc.
      * rewrite removeAttribute_at by assumption.
        apply NoDup_drop_middle in N.
        destruct r as [| b r'].
        -- destruct fuel; [reflexivity |].
           cbn [Htmx.removeMissing].
           replace (nth_error (pre ++ []) (S (List.length pre)))
             with (@None (string * string)); [reflexivity |].
           symmetry. apply nth_error_None. rewrite length_app. cbn. lia.
        -- rewrite (snoc_app pre b r') in *.
           replace (S (List.length pre)) with (List.length (pre ++ [b]))
             by (rewrite length_app; cbn; lia).
           cbn in L. rewrite IH by (assumption || lia).
           now rewrite <- app_assoc.
Qed.

Lemma removeMissing_is_sweep (mergeTo mergeFrom : Htmx.attrs) :
  NoDup (map fst mergeTo) ->
  Htmx.removeMissing (List.length mergeTo) 0 mergeTo mergeFrom
  = Htmx.sweep mergeFrom mergeTo.
Proof.
  intros N. apply (removeMissing_sweep mergeFrom _ [] mergeTo); auto.
Qed.

Lemma lookupAttr_setAttribute (l : Htmx.attrs) (k v name : string) :
  lookupAttr name (Htmx.setAttribute l k v)
  = if String.eqb k name then Some v else lookupAttr name l.
Proof.
  induction l as [| [k' v'] l IH]; cbn.
  - reflexivity.
  - destruct (String.eqb_spec k' k) as [-> | D]; cbn.
    + now destruct (String.eqb k name).
    + rewrite IH. destruct (String.eqb_spec k' name) as [-> | D'];
        [| reflexivity].
      destruct (String.eqb_spec k name); [congruence | reflexivity].
Qed.

Lemma lookupAttr_None_iff (name : string) (l : Htmx.attrs) :
  lookupAttr name l = None <-> ~ In name (map fst l).
Proof.
  rewrite <- hasName_lookupAttr, <- hasName_In.
  destruct (Htmx.hasName l name); split; congruence.
Qed.

(** The second loop of [cloneAttributes]: afterwards every attribute of
    [mergeFrom] is there with its value, and the others are as
    before. *)
Lemma lookupAttr_fold_setAttribute (mergeFrom l : Htmx.attrs) (name : string) :
  NoDup (map fst mergeFrom) ->
  lookupAttr name (Htmx.setAll mergeFrom l)
  = match lookupAttr name mergeFrom with
    | Some v => Some v
    | None => lookupAttr name l
    end.
Proof.
  unfold Htmx.setAll.
  revert l. induction mergeFrom as [| [k v] r IH]; intros l N;
    cbn [fold_left lookupAttr fst snd]; [reflexivity |].
  inversion N as [| ? ? Hk Hr]; subst.
  rewrite IH by assumption. rewrite lookupAttr_setAttribute.
  destruct (String.eqb_spec k name) as [-> | D]; [| reflexivity].
  apply lookupAttr_None_iff in Hk. now rewrite Hk.
Qed.

Lemma sweep_incl (mergeFrom : Htmx.attrs) :
  forall l kv, In kv (Htmx.sweep mergeFrom l) -> In kv l.
Proof.
  assert (H : forall l,
             (forall kv, In kv (Htmx.sweep mergeFrom l) -> In kv l) /\
             (forall a kv, In kv (Htmx.sweep mergeFrom (a :: l))
                           -> In kv (a :: l))).
  { induction l as [| b l [IH1 IH2]].
    - split; [cbn; tauto |]. intros a kv. cbn.
      destruct (Htmx.hasName mergeFrom (fst a)); cbn; tauto.
    - split; [apply IH2 |]. intros a kv. cbn [Htmx.sweep].
      destruct (Htmx.hasName mergeFrom (fst a)).
      + intros [-> | I]; [now left | right; now apply IH2].
      + intros [-> | I]; [right; now left | right; right; now apply IH1]. }
  intros l. apply H.
Qed.

Lemma lookupAttr_sublist (l l' : Htmx.attrs) (name v : string) :
  NoDup (map fst l) -> (forall kv, In kv l' -> In kv l) ->
  lookupAttr name l' = Some v -> lookupAttr name l = Some v.
Proof.
  intros N I E. apply lookupAttr_Some_iff; [assumption |].
  apply I. now apply lookupAttr_In.
Qed.

(** X6. [cloneAttributes] copies every attribute of [mergeFrom] and
    invents nothing: afterwards an attribute that [mergeFrom] has is on
    [mergeTo] with the value of [mergeFrom], and an attribute that
    [mergeFrom] lacks is either gone or as it was on [mergeTo]. *)
Theorem cloneAttributes_copies (mergeTo mergeFrom : Htmx.attrs)
        (name : string) :
  NoDup (map fst mergeTo) -> NoDup (map fst mergeFrom) ->
  match lookupAttr name mergeFrom with
  | Some v => lookupAttr name (Htmx.cloneAttributes mergeTo mergeFrom) = Some v
  | None =>
      lookupAttr name (Htmx.cloneAttributes mergeTo mergeFrom) = None \/
      lookupAttr name (Htmx.cloneAttributes mergeTo mergeFrom)
      = lookupAttr name mergeTo
  end.
Proof.
  intros Nt Nf. unfold Htmx.cloneAttributes.
  rewrite lookupAttr_fold_setAttribute by assumption.
  destruct (lookupAttr name mergeFrom) as [v |]; [reflexivity |].
  rewrite removeMissing_is_sweep by assumption.
  destruct (lookupAttr name (Htmx.sweep mergeFrom mergeTo)) as [v |] eqn:E;
    [right | now left].
  symmetry.
  exact (lookupAttr_sublist mergeTo _ name v Nt (sweep_incl mergeFrom mergeTo) E).
Qed.

Lemma cloneAttributes_copies_witness :
  lookupAttr "class"
    (Htmx.cloneAttributes [("id", "a"); ("class", "old")]
                          [("class", "new"); ("title", "t")])
  = Some "new".
Proof.
  apply (cloneAttributes_copies [("id", "a"); ("class", "old")]
           [("class", "new"); ("title", "t")] "class").
  - repeat constructor; cbn; intuition discriminate.
  - repeat constructor; cbn; intuition discriminate.
Defined.

Lemma sweep_keeps (mergeFrom pre rest : Htmx.attrs) :
  forallb (fun kv => Htmx.hasName mergeFrom (fst kv)) pre = true ->
  Htmx.sweep mergeFrom (pre ++ rest) = pre ++ Htmx.sweep mergeFrom rest.
Proof.
  induction pre as [| a pre IH]; cbn [forallb app Htmx.sweep];
    [reflexivity |].
  intros H. apply andb_prop in H. destruct H as [Ha Hp].
  rewrite Ha. f_equal. now apply IH.
Qed.

Lemma lookupAttr_app (name : string) (a b : Htmx.attrs) :
  lookupAttr name (a ++ b)
  = match lookupAttr name a with
    | Some v => Some v
    | None => lookupAttr name b
    end.
Proof.
  induction a as [| [k v] a IH]; cbn; [reflexivity |].
  now destruct (String.eqb k name).
Qed.

Lemma lookupAttr_not_In (name : string) (l : Htmx.attrs) :
  ~ In name (map fst l) -> lookupAttr name l = None.
Proof. apply lookupAttr_None_iff. Qed.

(** X7. the first loop of [cloneAttributes] walks a collection that
    shrinks under it.  When it removes an attribute, the next one moves
    into the position just visited and is never looked at: it stays on
    [mergeTo] with its value even though [mergeFrom] lacks it. *)
Theorem cloneAttributes_skips_after_removal
        (pre : Htmx.attrs) (a b : string * string) (rest mergeFrom : Htmx.attrs) :
  NoDup (map fst (pre ++ a :: b :: rest)) ->
  NoDup (map fst mergeFrom) ->
  forallb (fun kv => Htmx.hasName mergeFrom (fst kv)) pre = true ->
  Htmx.hasName mergeFrom (fst a) = false ->
  Htmx.hasName mergeFrom (fst b) = false ->
  let result := Htmx.cloneAttributes (pre ++ a :: b :: rest) mergeFrom in
  lookupAttr (fst a) result = None /\
  lookupAttr (fst b) result = Some (snd b).
Proof.
  intros N Nf Hp Ha Hb result. subst result. unfold Htmx.cloneAttributes.
  rewrite !lookupAttr_fold_setAttribute by assumption.
  apply hasName_lookupAttr in Ha, Hb. rewrite Ha, Hb.
  rewrite removeMissing_is_sweep by assumption.
  rewrite sweep_keeps by assumption.
  cbn [Htmx.sweep]. apply hasName_lookupAttr in Ha. rewrite Ha.
  rewrite map_app in N. cbn [map] in N.
  assert (Na := NoDup_remove_2 _ _ _ N).
  apply NoDup_remove_1 in N.
  assert (Nb := NoDup_remove_2 _ _ _ N).
  rewrite !lookupAttr_app.
  rewrite (lookupAttr_not_In (fst a) pre),
    (lookupAttr_not_In (fst b) pre);
    [| intros I; apply Nb, in_or_app; now left
     | intros I; apply Na, in_or_app; now left].
  destruct b as [kb vb]. cbn [lookupAttr fst snd] in *.
  rewrite String.eqb_refl. split; [| reflexivity].
  destruct (String.eqb_spec kb (fst a)) as [E | D].
  - exfalso. apply Na, in_or_app. right. left. exact E.
  - apply lookupAttr_not_In. intros I. apply in_map_iff in I.
    destruct I as [kv [E I]]. apply sweep_incl in I.
    apply Na, in_or_app. right. right. rewrite <- E. now apply in_map.
Qed.

Lemma cloneAttributes_skips_after_removal_witness :
  let result :=
    Htmx.cloneAttributes
      [("id", "x"); ("class", "a"); ("style", "b")] [("id", "y")] in
  lookupAttr "class" result = None /\
  lookupAttr "style" result = Some "b".
Proof.
  apply (cloneAttributes_skips_after_removal
           [("id", "x")] ("class", "a") ("style", "b") [] [("id", "y")]).
  - repeat constructor; cbn; intuition discriminate.
  - repeat constructor; cbn; intuition discriminate.
  - reflexivity.
  - reflexivity.
  - reflexivity.
Defined.

Lemma sweep_filter (mergeFrom l : Htmx.attrs) :
  Htmx.noAdjacentMissing mergeFrom l = true ->
  Htmx.sweep mergeFrom l
  = filter (fun kv => Htmx.hasName mergeFrom (fst kv)) l.
Proof.
  induction l as [| a r IH]; cbn [Htmx.noAdjacentMissing Htmx.sweep filter];
    [reflexivity |].
  intros H. apply andb_prop in H. destruct H as [H1 H2].
  specialize (IH H2).
  destruct (Htmx.hasName mergeFrom (fst a)); [now rewrite IH |].
  destruct r as [| b r']; [reflexivity |].
  cbn [orb] in H1. cbn [Htmx.sweep filter] in IH |- *.
  rewrite H1 in IH |- *. exact IH.
Qed.

Lemma lookupAttr_filter_out (mergeFrom l : Htmx.attrs) (name : string) :
  Htmx.hasName mergeFrom name = false ->
  lookupAttr name (filter (fun kv => Htmx.hasName mergeFrom (fst kv)) l)
  = None.
Proof.
  intros H. induction l as [| [k v] l IH]; cbn; [reflexivity |].
  destruct (Htmx.hasName mergeFrom k) eqn:E; [| exact IH].
  cbn. destruct (String.eqb_spec k name) as [-> | D]; [congruence | exact IH].
Qed.

(** X8. when no two neighbouring attributes of [mergeTo] are both
    missing from [mergeFrom], [cloneAttributes] makes [mergeTo] carry
    exactly the attributes of [mergeFrom]: the same names with the same
    values. *)
Theorem cloneAttributes_exact (mergeTo mergeFrom : Htmx.attrs) :
  NoDup (map fst mergeTo) -> NoDup (map fst mergeFrom) ->
  Htmx.noAdjacentMissing mergeFrom mergeTo = true ->
  forall name,
    lookupAttr name (Htmx.cloneAttributes mergeTo mergeFrom)
    = lookupAttr name mergeFrom.
Proof.
  intros Nt Nf A name. unfold Htmx.cloneAttributes.
  rewrite lookupAttr_fold_setAttribute by assumption.
  destruct (lookupAttr name mergeFrom) as [v |] eqn:E; [reflexivity |].
  rewrite removeMissing_is_sweep, sweep_filter by assumption.
  apply lookupAttr_filter_out. now apply hasName_lookupAttr.
Qed.

Lemma cloneAttributes_exact_witness :
  lookupAttr "style"
    (Htmx.cloneAttributes
       [("id", "x"); ("class", "a"); ("href", "/"); ("style", "b")]
       [("href", "/new"); ("id", "y")])
  = lookupAttr "style" [("href", "/new"); ("id", "y")].
Proof.
  apply (cloneAttributes_exact
           [("id", "x"); ("class", "a"); ("href", "/"); ("style", "b")]
           [("href", "/new"); ("id", "y")]).
  - repeat constructor; cbn; intuition discriminate.
  - repeat constructor; cbn; intuition discriminate.
  - reflexivity.
Defined.

(** *** Swapping the old attributes in and settling the new ones *)

Lemma hasName_names (a b : Htmx.attrs) (name : string) :
  map fst a = map fst b -> Htmx.hasName a name = Htmx.hasName b name.
Proof.
  intros E.
  destruct (Htmx.hasName a name) eqn:A, (Htmx.hasName b name) eqn:B;
    try reflexivity.
  - apply hasName_In in A. rewrite E in A. apply hasName_In in A. congruence.
  - apply hasName_In in B. rewrite <- E in B. apply hasName_In in B.
    congruence.
Qed.

Lemma hasName_app (a b : Htmx.attrs) (name : string) :
  Htmx.hasName (a ++ b) name = (Htmx.hasName a name || Htmx.hasName b name)%bool.
Proof. unfold Htmx.hasName. apply existsb_app. Qed.

Lemma setAttribute_present_names (l : Htmx.attrs) (k v : string) :
  Htmx.hasName l k = true ->
  map fst (Htmx.setAttribute l k v) = map fst l.
Proof.
  induction l as [| [k' v'] l IH]; cbn; [discriminate |].
  destruct (String.eqb k' k); cbn; [reflexivity |].
  intros H. f_equal. now apply IH.
Qed.

Lemma setAttribute_absent (l : Htmx.attrs) (k v : string) :
  Htmx.hasName l k = false -> Htmx.setAttribute l k v = l ++ [(k, v)].
Proof.
  induction l as [| [k' v'] l IH]; cbn; [reflexivity |].
  destruct (String.eqb k' k); cbn; [discriminate |].
  intros H. f_equal. now apply IH.
Qed.

Lemma setAttribute_app_present (l t : Htmx.attrs) (k v : string) :
  Htmx.hasName l k = true ->
  Htmx.setAttribute (l ++ t) k v = Htmx.setAttribute l k v ++ t.
Proof.
  induction l as [| [k' v'] l IH]; cbn; [discriminate |].
  destruct (String.eqb k' k); cbn; [reflexivity |].
  intros H. f_equal. now apply IH.
Qed.

Lemma forallb_ext {A} (f g : A -> bool) (l : list A) :
  (forall x, f x = g x) -> forallb f l = forallb g l.
Proof. intros E. induction l; cbn; [reflexivity |]. now rewrite E, IHl. Qed.

Lemma setAll_names (l s : Htmx.attrs) :
  forallb (fun kv => Htmx.hasName s (fst kv)) l = true ->
  map fst (Htmx.setAll l s) = map fst s.
Proof.
  revert s. induction l as [| [k v] l IH]; intros s; cbn; [reflexivity |].
  intros H. apply andb_prop in H. destruct H as [Hk Hl].
  unfold Htmx.setAll in IH. rewrite IH.
  - now apply setAttribute_present_names.
  - rewrite <- Hl. apply forallb_ext.
    intros kv. apply hasName_names.
    now apply setAttribute_present_names.
Qed.

Lemma setAll_app (l s t : Htmx.attrs) :
  forallb (fun kv => Htmx.hasName s (fst kv)) l = true ->
  Htmx.setAll l (s ++ t) = Htmx.setAll l s ++ t.
Proof.
  revert s. induction l as [| [k v] l IH]; intros s; cbn; [reflexivity |].
  intros H. apply andb_prop in H. destruct H as [Hk Hl].
  rewrite setAttribute_app_present by assumption.
  apply IH. rewrite <- Hl. apply forallb_ext.
  intros kv. apply hasName_names.
  now apply setAttribute_present_names.
Qed.

Lemma filter_hasName_absent (s l : Htmx.attrs) (k v : string) (keep : bool) :
  ~ In k (map fst l) ->
  filter (fun kv => Bool.eqb (Htmx.hasName (s ++ [(k, v)]) (fst kv)) keep) l
  = filter (fun kv => Bool.eqb (Htmx.hasName s (fst kv)) keep) l.
Proof.
  intros N. apply filter_ext_in. intros kv I. f_equal.
  rewrite hasName_app. cbn.
  destruct (String.eqb_spec k (fst kv)) as [-> | D].
  - exfalso. apply N. now apply in_map.
  - now rewrite !orb_false_r.
Qed.

(** The second loop of [cloneAttributes]: the attributes the element
    has are updated where they stand, the others come after them in the
    order of [l]. *)
Lemma setAll_split (l s : Htmx.attrs) :
  NoDup (map fst l) ->
  Htmx.setAll l s
  = Htmx.setAll (filter (fun kv => Bool.eqb (Htmx.hasName s (fst kv)) true) l) s
    ++ filter (fun kv => Bool.eqb (Htmx.hasName s (fst kv)) false) l.
Proof.
  revert s. induction l as [| [k v] l IH]; intros s N;
    [cbn; now rewrite app_nil_r |].
  inversion N as [| ? ? Hk Hl]; subst.
  cbn [Htmx.setAll fold_left filter fst snd].
  fold (Htmx.setAll l (Htmx.setAttribute s k v)).
  destruct (Htmx.hasName s k) eqn:E; cbn [Bool.eqb].
  - cbn [fold_left fst snd].
    fold (Htmx.setAll (filter (fun kv => Bool.eqb (Htmx.hasName s (fst kv)) true) l)
                 (Htmx.setAttribute s k v)).
    rewrite IH by assumption.
    assert (X : forall b,
              filter (fun kv => Bool.eqb
                         (Htmx.hasName (Htmx.setAttribute s k v) (fst kv)) b) l
              = filter (fun kv => Bool.eqb (Htmx.hasName s (fst kv)) b) l).
    { intros b. apply filter_ext. intros kv. f_equal.
      apply hasName_names. now apply setAttribute_present_names. }
    now rewrite !X.
  - rewrite setAttribute_absent by assumption.
    rewrite IH by assumption.
    rewrite !filter_hasName_absent by assumption.
    rewrite setAll_app.
    + now rewrite <- app_assoc.
    + apply forallb_forall. intros kv I. apply filter_In in I.
      destruct I as [_ I]. now apply Bool.eqb_prop in I.
Qed.

Lemma sweep_all_missing (mergeFrom l : Htmx.attrs) :
  forallb (fun kv => negb (Htmx.hasName mergeFrom (fst kv))) l = true ->
  Htmx.sweep mergeFrom l = Htmx.everySecond l.
Proof.
  assert (H : forall l,
             (forallb (fun kv => negb (Htmx.hasName mergeFrom (fst kv))) l
              = true -> Htmx.sweep mergeFrom l = Htmx.everySecond l) /\
             (forall a,
                forallb (fun kv => negb (Htmx.hasName mergeFrom (fst kv)))
                        (a :: l) = true ->
                Htmx.sweep mergeFrom (a :: l) = Htmx.everySecond (a :: l))).
  { clear l. induction l as [| b l [IH1 IH2]].
    - split; [reflexivity |]. intros a. cbn.
      now destruct (Htmx.hasName mergeFrom (fst a)).
    - split; [apply IH2 |]. intros a H. cbn [forallb] in H.
      apply andb_prop in H. destruct H as [Ha H].
      apply andb_prop in H. destruct H as [Hb H].
      cbn [Htmx.sweep Htmx.everySecond].
      apply negb_true_iff in Ha. rewrite Ha. f_equal. now apply IH1. }
  apply H.
Qed.

Lemma sweep_kept_in (mergeFrom : Htmx.attrs) (kv : string * string) :
  Htmx.hasName mergeFrom (fst kv) = true ->
  forall l, In kv l -> In kv (Htmx.sweep mergeFrom l).
Proof.
  intros K.
  assert (H : forall l,
             (In kv l -> In kv (Htmx.sweep mergeFrom l)) /\
             (forall a, In kv (a :: l)
                        -> In kv (Htmx.sweep mergeFrom (a :: l)))).
  { induction l as [| b l [IH1 IH2]].
    - split; [tauto |]. intros a [-> | []]. cbn. rewrite K. now left.
    - split; [apply IH2 |]. intros a I. cbn [Htmx.sweep].
      destruct (Htmx.hasName mergeFrom (fst a)) eqn:E.
      + destruct I as [-> | I]; [now left | right; now apply IH2].
      + destruct I as [-> | [-> | I]]; [congruence | now left |].
        right. now apply IH1. }
  intros l. apply H.
Qed.

Lemma sweep_step (mergeFrom : Htmx.attrs) (a b : string * string)
      (l : Htmx.attrs) :
  Htmx.sweep mergeFrom (a :: b :: l)
  = if Htmx.hasName mergeFrom (fst a)
    then a :: Htmx.sweep mergeFrom (b :: l)
    else b :: Htmx.sweep mergeFrom l.
Proof. reflexivity. Qed.

Lemma sweep_NoDup (mergeFrom : Htmx.attrs) :
  forall l, NoDup (map fst l) -> NoDup (map fst (Htmx.sweep mergeFrom l)).
Proof.
  assert (Out : forall l name,
             ~ In name (map fst l) ->
             ~ In name (map fst (Htmx.sweep mergeFrom l))).
  { intros l name N I. apply N. apply in_map_iff in I.
    destruct I as [kv [E I]]. apply sweep_incl in I.
    rewrite <- E. now apply in_map. }
  assert (H : forall l,
             (NoDup (map fst l) -> NoDup (map fst (Htmx.sweep mergeFrom l))) /\
             (forall a, NoDup (map fst (a :: l)) ->
                        NoDup (map fst (Htmx.sweep mergeFrom (a :: l))))).
  { induction l as [| b l [IH1 IH2]].
    - split; [auto |]. intros a N. cbn.
      destruct (Htmx.hasName mergeFrom (fst a)); [assumption | constructor].
    - split; [apply IH2 |]. intros a N. rewrite sweep_step.
      inversion N as [| ? ? Ha Nb]; subst.
      destruct (Htmx.hasName mergeFrom (fst a)).
      + cbn [map]. constructor; [now apply Out | now apply IH2].
      + inversion Nb as [| ? ? Hb Nl]; subst.
        cbn [map]. constructor; [now apply Out | now apply IH1]. }
  intros l. apply H.
Qed.

Lemma filter_names_NoDup (f : string * string -> bool) (l : Htmx.attrs) :
  NoDup (map fst l) -> NoDup (map fst (filter f l)).
Proof.
  induction l as [| a l IH]; cbn; intros N; [constructor |].
  inversion N as [| ? ? Ha Nl]; subst.
  destruct (f a); cbn; [constructor |]; auto.
  intros I. apply Ha. apply in_map_iff in I. destruct I as [kv [E I]].
  apply filter_In in I. rewrite <- E. apply in_map. tauto.
Qed.

(** The attributes of the new node once swapped in: those it shares
    with the old node and those the first loop skipped, then the
    attributes only the old node has, in the order of the old node. *)
Lemma swappedInAttributes_shape (newNode oldNode : Htmx.attrs) :
  NoDup (map fst newNode) -> NoDup (map fst oldNode) ->
  exists kept,
    Htmx.swappedInAttributes newNode oldNode
    = kept ++ Htmx.missingFrom newNode oldNode /\
    map fst kept = map fst (Htmx.sweep oldNode newNode).
Proof.
  intros Nn No. unfold Htmx.swappedInAttributes, Htmx.cloneAttributes.
  rewrite removeMissing_is_sweep by assumption.
  rewrite setAll_split by assumption.
  set (s := Htmx.sweep oldNode newNode).
  exists (Htmx.setAll
            (filter (fun kv => Bool.eqb (Htmx.hasName s (fst kv)) true) oldNode)
            s).
  split.
  - f_equal. unfold Htmx.missingFrom. apply filter_ext_in. intros kv I.
    assert (E : Htmx.hasName s (fst kv) = Htmx.hasName newNode (fst kv)).
    { destruct (Htmx.hasName newNode (fst kv)) eqn:E.
      - apply hasName_In. apply hasName_In in E.
        apply in_map_iff in E. destruct E as [kv' [E I']].
        rewrite <- E. apply in_map. apply sweep_kept_in; [| assumption].
        rewrite E. apply hasName_In. now apply in_map.
      - destruct (Htmx.hasName s (fst kv)) eqn:E'; [| reflexivity].
        apply hasName_In in E'. apply in_map_iff in E'.
        destruct E' as [kv' [E' I']]. apply sweep_incl in I'.
        assert (X : Htmx.hasName newNode (fst kv) = true).
        { apply hasName_In. rewrite <- E'. now apply in_map. }
        congruence. }
    rewrite E. now destruct (Htmx.hasName newNode (fst kv)).
  - apply setAll_names. apply forallb_forall. intros kv I.
    apply filter_In in I. destruct I as [_ I]. now apply Bool.eqb_prop in I.
Qed.

(** X9. what a swapped-in node carries once it has settled.
    [handleAttributes] puts the attributes of the old node on the new
    one for the swap and restores the new ones in a settle task, both
    with [cloneAttributes].  After the settle task the node has every
    attribute the server sent, with the value sent; of the attributes
    only the old node had, the second, the fourth, ... are still on
    it. *)
Theorem settledAttributes_keep_every_second
        (newNode oldNode : Htmx.attrs) (name : string) :
  NoDup (map fst newNode) -> NoDup (map fst oldNode) ->
  lookupAttr name (Htmx.settledAttributes newNode oldNode)
  = match lookupAttr name newNode with
    | Some v => Some v
    | None =>
        lookupAttr name
          (Htmx.everySecond (Htmx.missingFrom newNode oldNode))
    end.
Proof.
  intros Nn No.
  destruct (swappedInAttributes_shape newNode oldNode Nn No)
    as [kept [Sh Names]].
  assert (InNew : forall kv, In kv kept ->
                             Htmx.hasName newNode (fst kv) = true).
  { intros kv I. apply hasName_In. apply (in_map fst) in I.
    rewrite Names in I. apply in_map_iff in I.
    destruct I as [kv' [E I]]. apply sweep_incl in I.
    rewrite <- E. now apply in_map. }
  assert (Missing : forallb
                      (fun kv => negb (Htmx.hasName newNode (fst kv)))
                      (Htmx.missingFrom newNode oldNode) = true).
  { apply forallb_forall. intros kv I. apply filter_In in I. tauto. }
  assert (Ns : NoDup (map fst (Htmx.swappedInAttributes newNode oldNode))).
  { rewrite Sh, map_app. apply NoDup_app.
    - rewrite Names. now apply sweep_NoDup.
    - now apply filter_names_NoDup.
    - intros k I1 I2. apply in_map_iff in I1, I2.
      destruct I1 as [kv1 [E1 I1]]. destruct I2 as [kv2 [E2 I2]].
      apply InNew in I1. apply filter_In in I2. destruct I2 as [_ I2].
      rewrite E1 in I1. rewrite E2 in I2. rewrite I1 in I2. discriminate. }
  unfold Htmx.settledAttributes. cbv zeta. unfold Htmx.cloneAttributes at 1.
  rewrite lookupAttr_fold_setAttribute by assumption.
  destruct (lookupAttr name newNode) as [v |] eqn:E; [reflexivity |].
  rewrite removeMissing_is_sweep by assumption.
  rewrite Sh, sweep_keeps, sweep_all_missing by
    (assumption || (apply forallb_forall; exact InNew)).
  rewrite lookupAttr_app.
  rewrite (lookupAttr_not_In name kept); [reflexivity |].
  intros I. apply in_map_iff in I. destruct I as [kv [E' I]].
  apply InNew in I. rewrite E' in I.
  apply hasName_lookupAttr in E. congruence.
Qed.

Lemma settledAttributes_keep_every_second_witness :
  lookupAttr "style"
    (Htmx.settledAttributes
       [("id", "x")] [("id", "x"); ("class", "a"); ("style", "b")])
  = Some "b".
Proof.
  apply (settledAttributes_keep_every_second
           [("id", "x")] [("id", "x"); ("class", "a"); ("style", "b")]
           "style").
  - repeat constructor; cbn; intuition discriminate.
  - repeat constructor; cbn; intuition discriminate.
Defined.

(** * The history helpers *)

Lemma stripTrailingSlashes_end (s r : string) :
  History.stripTrailingSlashes s <> (r ++ "/")%string.
Proof.
  revert r. induction s as [| c s IH]; intros r;
    cbn [History.stripTrailingSlashes].
  - destruct r; discriminate.
  - destruct (History.stripTrailingSlashes s) as [| d t] eqn:E.
    + destruct (Ascii.eqb_spec c History.slash) as [-> | D].
      * destruct r; discriminate.
      * destruct r as [| c' r]; cbn [append].
        -- intros [= ->]. now apply D.
        -- intros [= -> H]. destruct r; discriminate.
    + destruct r as [| c' r]; cbn [append]; [discriminate |].
      intros [= -> H]. now apply (IH r).
Qed.

(** X10. a normalized path has no trailing slash, unless it is the root
    path itself: [normalizePath] strips every slash at the end of the
    pathname followed by the search. *)
Theorem normalizePath_no_trailing_slash
        (page : History.Page) (path p : string) :
  History.normalizePath page path = Some p ->
  p = "/" \/ Htmx.endsWith p "/" = false.
Proof.
  unfold History.normalizePath.
  destruct (History.parseURL page path) as [[pathname search] |];
    [| discriminate].
  destruct (String.eqb_spec (pathname ++ search) "/") as [E | D];
    intros [= <-]; [now left | right].
  destruct (Htmx.endsWith _ "/") eqn:W; [| reflexivity].
  apply endsWith_spec in W. destruct W as [r W].
  now apply stripTrailingSlashes_end in W.
Qed.

Lemma normalizePath_no_trailing_slash_witness :
  History.normalizePath History.Demo.page "/items//?page=2/" = Some "/items//?page=2"
  /\ ("/items//?page=2" = "/" \/ Htmx.endsWith "/items//?page=2" "/" = false).
Proof.
  split; [reflexivity |].
  apply (normalizePath_no_trailing_slash History.Demo.page "/items//?page=2/").
  reflexivity.
Defined.

(** The storing loop: some of the oldest entries are dropped, each drop
    after a refusal that is reported, and what is left is stored as
    soon as the storage takes it. *)
Lemma storeCache_spec (page : History.Page) (cache : list History.historyItem) :
  forall b,
  exists dropped stored,
    cache = dropped ++ stored /\
    History.storeCache page cache b
    = History.mkBrowser
        (History.currentPathForHistory b) (History.storedPath b)
        (match stored with
         | [] => History.storedCache b
         | _ => Some stored
         end)
        (History.href b)
        (History.calls b
         ++ map History.HistoryCacheError
              (History.refusedCaches dropped stored)) /\
    Forall (fun c => History.storageAccepts page c = false)
           (History.refusedCaches dropped stored) /\
    (stored <> [] -> History.storageAccepts page stored = true).
Proof.
  induction cache as [| x r IH]; intros b.
  - exists [], []. cbn. rewrite app_nil_r. destruct b.
    repeat split; auto; congruence.
  - cbn [History.storeCache].
    destruct (History.storageAccepts page (x :: r)) eqn:A.
    + exists [], (x :: r). cbn. rewrite app_nil_r. repeat split; auto.
    + destruct (IH (History.record (History.HistoryCacheError (x :: r)) b))
        as (dropped & stored & E & S & F & K).
      exists (x :: dropped), stored. subst r. repeat split; auto.
      * rewrite S. cbn. now rewrite <- app_assoc.
      * cbn. constructor; assumption.
Qed.

Lemma shiftDownTo_spec (size : Z) (cache : list History.historyItem) :
  (0 < size)%Z ->
  exists shifted,
    cache = shifted ++ History.shiftDownTo size cache /\
    (Z.of_nat (List.length (History.shiftDownTo size cache)) <= size)%Z /\
    (cache <> [] -> History.shiftDownTo size cache <> []).
Proof.
  intros P. induction cache as [| x r IH].
  - exists []. cbn. repeat split; auto; lia.
  - cbn [History.shiftDownTo].
    destruct (Z.ltb_spec size (Z.of_nat (List.length (x :: r)))) as [L | L].
    + destruct IH as (shifted & E & B & N).
      exists (x :: shifted). repeat split.
      * cbn. now rewrite <- E.
      * exact B.
      * intros _. apply N. destruct r; [cbn in L; lia | discriminate].
    + exists []. repeat split; auto.
Qed.

Lemma last_suffix {A} (a b : list A) (x d : A) :
  b <> [] -> last (a ++ b) d = x -> last b d = x.
Proof.
  intros N. induction a as [| y a IH]; cbn; [auto |].
  destruct (a ++ b) eqn:E; [| exact IH].
  apply app_eq_nil in E. tauto.
Qed.



Lemma saveToHistoryCache_run
      (page : History.Page) (u u' : string) (b : History.browser) :
  History.storageWorks page = true ->
  (0 < History.historyCacheSize page)%Z ->
  History.normalizePath page u = Some u' ->
  let old := match History.storedCache b with Some c => c | None => [] end in
  let item :=
    History.mkItem u' (History.historyElementHTML page)
                   (History.documentTitle page) (History.scrollY page) in
  let heard :=
    History.itemCreatedListeners page item (History.removeFirst u' old) in
  exists shifted dropped stored,
    snd heard ++ [fst heard] = shifted ++ dropped ++ stored /\
    History.storedCache
      (History.browserOf (History.saveToHistoryCache page u b))
    = match stored with
      | [] => History.storedCache b
      | _ => Some stored
      end /\
    exists rest,
      History.saveToHistoryCache page u b
      = History.Done
          (History.mkBrowser
             (History.currentPathForHistory b) (History.storedPath b)
             (match stored with
              | [] => History.storedCache b
              | _ => Some stored
              end)
             (History.href b) (History.calls b ++ rest)).
Proof.
  intros W P N old item heard.
  unfold History.saveToHistoryCache, History.canAccessLocalStorage.
  rewrite W, N. cbn [negb].
  destruct (Z.leb_spec (History.historyCacheSize page) 0) as [L | _];
    [lia |].
  fold old. fold item. fold heard.
  destruct (shiftDownTo_spec (History.historyCacheSize page)
              (snd heard ++ [fst heard]) P) as (shifted & E & _).
  destruct (storeCache_spec page
              (History.shiftDownTo (History.historyCacheSize page)
                                   (snd heard ++ [fst heard]))
              (History.record
                 (History.HistoryItemCreated item
                    (History.removeFirst u' old)) b))
    as (dropped & stored & E' & S & _).
  exists shifted, dropped, stored. split; [| split].
  - now rewrite <- E'.
  - rewrite S. reflexivity.
  - rewrite S. cbn. rewrite <- app_assoc. eexists. reflexivity.
Qed.

Lemma removeFirst_urls (u : string) (l : list History.historyItem) :
  NoDup (map History.url l) ->
  NoDup (map History.url (History.removeFirst u l)) /\
  ~ In u (map History.url (History.removeFirst u l)) /\
  (forall x, In x (History.removeFirst u l) -> In x l).
Proof.
  induction l as [| x r IH]; cbn; intros N.
  - repeat split; auto.
  - inversion N as [| ? ? Hx Nr]; subst.
    destruct (IH Nr) as (N' & O & I).
    destruct (String.eqb_spec (History.url x) u) as [E | D].
    + subst u. repeat split; auto.
    + cbn. repeat split.
      * constructor; [| assumption].
        intros J. apply Hx. apply in_map_iff in J.
        destruct J as [y [E J]]. rewrite <- E. apply in_map. now apply I.
      * intros [E | J]; [now apply D | now apply O].
      * intros y [<- | J]; [now left | right; now apply I].
Qed.

(** X12. the history cache holds at most one snapshot per URL, and
    [saveToHistoryCache] keeps it so.  When no listener rewrites the new
    item or the cache, and the URLs of the stored cache are distinct,
    the URLs of the cache it leaves are distinct too: the snapshot that
    was there for this URL is replaced, not kept beside the new one. *)
Theorem saveToHistoryCache_one_snapshot_per_url
        (page : History.Page) (u u' : string) (b : History.browser) :
  History.storageWorks page = true ->
  (0 < History.historyCacheSize page)%Z ->
  History.normalizePath page u = Some u' ->
  (forall item cache,
     History.itemCreatedListeners page item cache = (item, cache)) ->
  (forall c, History.storedCache b = Some c -> NoDup (map History.url c)) ->
  forall c,
    History.storedCache
      (History.browserOf (History.saveToHistoryCache page u b)) = Some c ->
    NoDup (map History.url c).
Proof.
  intros W P N L Old c.
  destruct (saveToHistoryCache_run page u u' b W P N)
    as (shifted & dropped & stored & E & S & _).
  rewrite S.
  destruct stored as [| x stored]; [apply Old |].
  intros [= <-]. rewrite L in E. cbn [fst snd] in E.
  set (old := match History.storedCache b with
              | Some c => c
              | None => []
              end) in *.
  assert (No : NoDup (map History.url old)).
  { subst old. destruct (History.storedCache b); [now apply Old | constructor]. }
  destruct (removeFirst_urls u' old No) as (N' & O & _).
  assert (X : NoDup (map History.url
                       (History.removeFirst u' old
                        ++ [History.mkItem u' (History.historyElementHTML page)
                              (History.documentTitle page)
                              (History.scrollY page)]))).
  { rewrite map_app. apply NoDup_app; [assumption | repeat constructor; auto |].
    intros k I [<- | []]. now apply O. }
  rewrite E, app_assoc, map_app in X.
  now apply NoDup_app_remove_l in X.
Qed.

Lemma saveToHistoryCache_one_snapshot_per_url_witness :
  NoDup
    (map History.url
       [History.mkItem "/a" "<p>a</p>" "A" 0;
        History.mkItem "/b" "<p>now</p>" "Title" 0]).
Proof.
  apply (saveToHistoryCache_one_snapshot_per_url History.Demo.page "/b/" "/b"
           History.Demo.start).
  - reflexivity.
  - reflexivity.
  - reflexivity.
  - reflexivity.
  - intros c [= <-]. repeat constructor; cbn; intuition discriminate.
  - reflexivity.
Defined.

Lemma saveToHistoryCache_calls (page : History.Page) (u : string)
      (b : History.browser) :
  exists rest,
    History.calls (History.browserOf (History.saveToHistoryCache page u b))
    = History.calls b ++ rest.
Proof.
  unfold History.saveToHistoryCache.
  destruct (negb (History.canAccessLocalStorage page));
    [exists []; cbn; now rewrite app_nil_r |].
  destruct (Z.leb (History.historyCacheSize page) 0);
    [exists []; cbn; now rewrite app_nil_r |].
  destruct (History.normalizePath page u) as [u' |];
    [| exists []; cbn; now rewrite app_nil_r].
  match goal with
  | |- context [History.storeCache page ?c ?b0] =>
      destruct (storeCache_spec page c b0) as (dr & st & _ & S & _)
  end.
  cbn [History.browserOf]. rewrite S. cbn. rewrite <- app_assoc.
  eexists. reflexivity.
Qed.

Lemma saveCurrentPageToHistory_path (page : History.Page) (path : string)
      (b : History.browser) :
  path <> "" ->
  History.historyDisabled page = false ->
  (if History.storageWorks page then History.storedPath b = Some path
   else History.currentPathForHistory b = path) ->
  exists rest,
    History.calls (History.browserOf (History.saveCurrentPageToHistory page b))
    = History.calls b ++ History.BeforeHistorySave path :: rest.
Proof.
  intros Ne Dis Cur. unfold History.saveCurrentPageToHistory.
  unfold History.canAccessLocalStorage. rewrite Dis. cbn [negb].
  assert (E : orElse (if History.storageWorks page
                      then History.storedPath b
                      else Some (History.currentPathForHistory b))
                     (History.pathAndSearch page (History.href b)) = path).
  { destruct (History.storageWorks page); rewrite Cur; cbn;
      now rewrite (isEmpty_false path Ne). }
  rewrite E.
  destruct (saveToHistoryCache_calls page path
              (History.record (History.BeforeHistorySave path) b))
    as [rest R].
  destruct (History.saveToHistoryCache page path
              (History.record (History.BeforeHistorySave path) b))
    as [b' | b']; cbn in R |- *.
  - destruct (History.historyEnabled page); cbn; rewrite R, <- !app_assoc;
      eexists; reflexivity.
  - rewrite R, <- app_assoc. eexists. reflexivity.
Qed.

Lemma setCurrentPathForHistory_read (page : History.Page) (path : string)
      (b : History.browser) :
  let b' := History.setCurrentPathForHistory page path b in
  (if History.storageWorks page then History.storedPath b' = Some path
   else History.currentPathForHistory b' = path) /\
  History.calls b' = History.calls b.
Proof.
  cbn. unfold History.canAccessLocalStorage.
  destruct (History.storageWorks page); auto.
Qed.



Lemma append_assoc (a b c : string) :
  ((a ++ b) ++ c = a ++ b ++ c)%string.
Proof. induction a; cbn; congruence. Qed.

Lemma append_nil_r (a : string) : (a ++ "")%string = a.
Proof. induction a; cbn; congruence. Qed.

Lemma sliceFrom_app (a b : string) :
  Htmx.sliceFrom (a ++ b) (String.length a) = b.
Proof.
  unfold Htmx.sliceFrom. rewrite length_append.
  replace (String.length a + String.length b - String.length a)
    with (String.length b) by lia.
  rewrite substring_skip. apply substring_all.
Qed.

Lemma removeCacheBuster_at (p rest : string) :
  String.index 0 History.cacheBuster (p ++ History.cacheBuster ++ rest)
  = Some (String.length p) ->
  History.removeCacheBuster (p ++ History.cacheBuster ++ rest)
  = (p ++ History.afterParameter rest)%string.
Proof.
  intros I. unfold History.removeCacheBuster. rewrite I.
  rewrite substring_prefix. f_equal. f_equal.
  rewrite <- append_assoc.
  rewrite <- (length_append p History.cacheBuster).
  apply sliceFrom_app.
Qed.

Lemma dropValue_value (v rest : string) :
  History.noAmpersand v = true ->
  History.dropValue (v ++ String History.ampersand rest)
  = String History.ampersand rest /\
  History.dropValue v = "".
Proof.
  induction v as [| c v IH]; cbn [History.noAmpersand append History.dropValue].
  - intros _. now rewrite Ascii.eqb_refl.
  - intros H. apply andb_prop in H. destruct H as [Hc Hv].
    apply negb_true_iff in Hc. rewrite Hc. now apply IH.
Qed.

Lemma slice_init (a : string) (c : ascii) :
  Htmx.slice (a ++ String c "") 0
             (String.length (a ++ String c "") - 1) = a.
Proof.
  unfold Htmx.slice. rewrite length_append. cbn [String.length].
  replace (String.length a + 1 - 1 - 0) with (String.length a) by lia.
  apply substring_prefix.
Qed.

(** X14. [pushUrlIntoHistory] takes the cache-buster parameter out of the
    path it records.  When the parameter comes last, it goes with the
    question mark or the ampersand before it; when other parameters
    follow, it goes with the ampersand after it and the rest of the path
    is kept. *)
Theorem withoutCacheBuster_removes_parameter (pre v tail : string) :
  History.noAmpersand v = true ->
  (forall sep,
     sep = "?"%char \/ sep = "&"%char ->
     String.index 0 History.cacheBuster
       ((pre ++ String sep "") ++ History.cacheBuster ++ v)
     = Some (String.length (pre ++ String sep "")) ->
     History.withoutCacheBuster
       ((pre ++ String sep "") ++ History.cacheBuster ++ v) = pre) /\
  (String.index 0 History.cacheBuster
     (pre ++ History.cacheBuster ++ v ++ String "&" tail)
   = Some (String.length pre) ->
   Htmx.endsWith (pre ++ tail) "&" = false ->
   Htmx.endsWith (pre ++ tail) "?" = false ->
   History.withoutCacheBuster
     (pre ++ History.cacheBuster ++ v ++ String "&" tail)
   = (pre ++ tail)%string).
Proof.
  intros V. split.
  - intros sep S I. unfold History.withoutCacheBuster.
    rewrite removeCacheBuster_at by assumption.
    unfold History.afterParameter.
    rewrite (proj2 (dropValue_value v "" V)), append_nil_r.
    assert (E : (Htmx.endsWith (pre ++ String sep "") "&"
                 || Htmx.endsWith (pre ++ String sep "") "?")%bool = true).
    { apply orb_true_iff.
      destruct S as [-> | ->]; [right | left];
        apply endsWith_spec; now exists pre. }
    rewrite E. apply slice_init.
  - intros I E1 E2. unfold History.withoutCacheBuster.
    rewrite removeCacheBuster_at by assumption.
    unfold History.afterParameter.
    change (String "&" tail) with (String History.ampersand tail).
    rewrite (proj1 (dropValue_value v tail V)).
    change (Ascii.eqb History.ampersand History.ampersand) with true.
    cbv iota. now rewrite E1, E2.
Qed.

Lemma withoutCacheBuster_removes_parameter_witness :
  History.withoutCacheBuster "/items?org.htmx.cache-buster=list" = "/items" /\
  History.withoutCacheBuster "/items?org.htmx.cache-buster=list&page=2"
  = "/items?page=2".
Proof.
  destruct (withoutCacheBuster_removes_parameter "/items" "list" "")
    as [L _]; [reflexivity |].
  destruct (withoutCacheBuster_removes_parameter "/items?" "list" "page=2")
    as [_ M]; [reflexivity |].
  split.
  - apply (L "?"%char); [now left | reflexivity].
  - apply M; reflexivity.
Defined.

(** * More on the pipeline of one marker *)

(** X15. a listener that cancels htmx:beforeServerCommand switches the
    marker off.  Nothing of it is validated or executed, no error and no
    post-command event is fired, and the loop goes on with the next
    marker. *)
Theorem cancelled_command_is_skipped
        (h : Host) (c : command) (ctx : live) (rest : list command)
        (s : state) :
  dispatchEvent h (trace s) ctx "htmx:beforeServerCommand"
    (CommandDetail c (Some ctx)) = false ->
  processCommandFromElement h c ctx s
  = (Returned tt, withEffects s [beforeServerCommand c ctx]) /\
  processAll h (c :: rest) ctx s
  = processAll h rest ctx (withEffects s [beforeServerCommand c ctx]).
Proof.
  intros D.
  assert (E : processCommandFromElement h c ctx s
              = (Returned tt, withEffects s [beforeServerCommand c ctx])).
  { unfold processCommandFromElement, tryCatch, beforeFirstAwait, triggerEvent.
    unfold bind at 1 2 3 4, ask, emit, ret. cbn. rewrite D. reflexivity. }
  split; [exact E |].
  rewrite processAll_cons; now rewrite E.
Qed.

Lemma cancelled_command_is_skipped_witness :
  processAll Pages.cancelling
    [([0], Demo.unknownOnly); ([1], Demo.redirecting)] Demo.button Demo.fresh
  = processAll Pages.cancelling [([1], Demo.redirecting)] Demo.button
      (withEffects Demo.fresh
         [beforeServerCommand ([0], Demo.unknownOnly) Demo.button]).
Proof.
  apply (cancelled_command_is_skipped Pages.cancelling ([0], Demo.unknownOnly)
           Demo.button [([1], Demo.redirecting)] Demo.fresh).
  reflexivity.
Defined.

(** The first steps of a marker whose target is found: the swap is
    started, or not, in the state in which htmx:beforeSwap has been
    fired. *)
Lemma beforeFirstAwait_with_target
      (h : Host) (c : command) (ctx : live) (s : state)
      (selector : string) (e : live) :
  dispatchEvent h (trace s) ctx "htmx:beforeServerCommand"
    (CommandDetail c (Some ctx)) = true ->
  validateCommandElement (snd c) = None ->
  getAttributeValue (snd c) "target" = Some selector ->
  selector <> "" ->
  let tr1 := trace s ++ [beforeServerCommand c ctx] in
  documentQuerySelector h tr1 selector = Found e ->
  let d :=
    mkBeforeSwap ctx e
      (getSwapSpecification h ctx
         (orElse (getAttributeValue (snd c) "swap") "outerHTML"))
      (innerHTML h (if markersRemoved s
                    then removeMarkersList (childrenOf (snd c))
                    else childrenOf (snd c)))
      true in
  let s2 :=
    withEffects s [beforeServerCommand c ctx;
                   TriggerEvent e "htmx:beforeSwap" (BeforeSwapDetail d)] in
  beforeFirstAwait h c ctx s
  = (ps <- (if negb (dispatchEvent h tr1 e "htmx:beforeSwap"
                       (BeforeSwapDetail d))
            then ret []
            else if bs_shouldSwap (beforeSwapListeners h tr1 d)
            then p <- swapAsync h (bs_target (beforeSwapListeners h tr1 d))
                        (bs_serverResponse (beforeSwapListeners h tr1 d))
                        (bs_swapSpec (beforeSwapListeners h tr1 d))
                        (getAttributeValue (snd c) "select") ctx ;;
                 ret [p]
            else ret []) ;;
     ret (Some ps)) s2.
Proof.
  intros D V T N tr1 L d s2.
  rewrite beforeFirstAwait_validated by assumption.
  unfold gatherSwapJobs. rewrite T, (isEmpty_false _ N).
  unfold find, currentInnerHTML, readMarkersRemoved.
  unfold bind at 1 2 3 4 5, ask. cbn. fold tr1. rewrite L. cbn.
  fold d. unfold triggerBeforeSwap, triggerEvent.
  unfold bind at 1 2 3 4 5 6, ask, emit. cbn. fold tr1.
  assert (S2 : s2 = mkState
                      (tr1 ++ [TriggerEvent e "htmx:beforeSwap"
                                 (BeforeSwapDetail d)])
                      (thens s) (markersRemoved s)).
  { unfold s2, withEffects, tr1. now rewrite <- app_assoc. }
  rewrite <- S2. unfold bind.
  match goal with
  | |- context [(if ?b then ?x else ?y) s2] =>
      destruct ((if b then x else y) s2) as [[ps | err |] s']
  end; cbn; [now rewrite app_nil_r | reflexivity | reflexivity].
Qed.

(** X16. a listener of htmx:beforeSwap can veto the swap of a marker, by
    cancelling the event or by clearing [shouldSwap].  Then nothing is
    swapped and nothing is awaited, but the marker is not abandoned: the
    after-swap notification, the triggers, the navigation and history
    actions and the post-command event follow as for a marker without
    target, and the pipeline returns. *)
Theorem vetoed_swap_is_not_performed
        (h : Host) (c : command) (ctx : live) (s : state)
        (selector : string) (e : live) :
  dispatchEvent h (trace s) ctx "htmx:beforeServerCommand"
    (CommandDetail c (Some ctx)) = true ->
  validateCommandElement (snd c) = None ->
  getAttributeValue (snd c) "target" = Some selector ->
  selector <> "" ->
  let tr1 := trace s ++ [beforeServerCommand c ctx] in
  documentQuerySelector h tr1 selector = Found e ->
  let d :=
    mkBeforeSwap ctx e
      (getSwapSpecification h ctx
         (orElse (getAttributeValue (snd c) "swap") "outerHTML"))
      (innerHTML h (if markersRemoved s
                    then removeMarkersList (childrenOf (snd c))
                    else childrenOf (snd c)))
      true in
  dispatchEvent h tr1 e "htmx:beforeSwap" (BeforeSwapDetail d) = false \/
  bs_shouldSwap (beforeSwapListeners h tr1 d) = false ->
  let s2 :=
    withEffects s [beforeServerCommand c ctx;
                   TriggerEvent e "htmx:beforeSwap" (BeforeSwapDetail d)] in
  processCommandFromElement h c ctx s = processFromAwait h c ctx [] s2 /\
  fst (processCommandFromElement h c ctx s) = Returned tt /\
  exists rest,
    trace (snd (processCommandFromElement h c ctx s)) = trace s2 ++ rest /\
    Forall (pipelineEffect c ctx false) rest /\
    Forall (fun x => domWork x = false) rest.
Proof.
  intros D V T N tr1 L d Veto s2.
  assert (A : beforeFirstAwait h c ctx s = (Returned (Some []), s2)).
  { unfold s2, d, tr1.
    rewrite (beforeFirstAwait_with_target h c ctx s selector e D V T N L).
    fold tr1. fold d. fold s2.
    destruct Veto as [X | X]; rewrite X; cbn [negb]; [reflexivity |].
    now destruct (negb _). }
  assert (E := process_from_first_await h c ctx s [] s2 A).
  split; [exact E |]. rewrite E. split.
  - rewrite (returns_unit _ s2 (returns_processFromAwait_nil h c ctx)).
    reflexivity.
  - destruct (footprint_trace _ _ _ s2
                (footprint_processFromAwait_nil h c ctx)) as (rest & R & F).
    exists rest. split; [exact R |]. split; [exact F |].
    eapply Forall_impl; [| exact F].
    intros x Px. inversion Px; subst; try reflexivity; discriminate.
Qed.

Lemma vetoed_swap_is_not_performed_witness :
  trace (snd (processCommandFromElement Pages.vetoing ([0], Pages.swapInto)
                Demo.button Demo.fresh))
  = [ beforeServerCommand ([0], Pages.swapInto) Demo.button;
      TriggerEvent Demo.t1 "htmx:beforeSwap"
        (BeforeSwapDetail
           (mkBeforeSwap Demo.button Demo.t1 (mkSwapSpec "innerHTML" 0 20 None)
                         "x" true));
      afterSwap ([0], Pages.swapInto) Demo.button;
      TriggerEvent DocumentBody "swapped" NoDetail;
      afterServerCommand ([0], Pages.swapInto) Demo.button ].
Proof.
  destruct (vetoed_swap_is_not_performed Pages.vetoing ([0], Pages.swapInto)
              Demo.button Demo.fresh "#t" Demo.t1) as (E & _).
  - reflexivity.
  - reflexivity.
  - reflexivity.
  - discriminate.
  - reflexivity.
  - left. reflexivity.
  - rewrite E. reflexivity.
Defined.

(** Without promises to await, the rest of a pipeline starts with the
    after-swap notification, does no DOM work, and returns. *)
Lemma processFromAwait_nil_trace (h : Host) (c : command) (ctx : live)
      (s : state) :
  fst (processFromAwait h c ctx [] s) = Returned tt /\
  exists d,
    trace (snd (processFromAwait h c ctx [] s))
    = trace s ++ afterSwap c ctx :: d /\
    Forall (pipelineEffect c ctx false) d.
Proof.
  split.
  - now rewrite (returns_unit _ s (returns_processFromAwait_nil h c ctx)).
  - assert (W : forall name s0, exists d,
                 trace (snd (whenAttribute (snd c) name
                               (handleTriggerAttribute h) s0))
                 = trace s0 ++ d /\ Forall (pipelineEffect c ctx false) d).
    { intros name s0. eapply footprint_trace.
      apply (footprint_pipeline_whenTrigger h c ctx false (fun _ => True)). }
    unfold processFromAwait, tryCatch. rewrite afterFirstAwait_nil.
    set (s1 := withEffects s [afterSwap c ctx]).
    destruct (W "trigger-after-swap" s1) as (d2 & T2 & F2).
    set (s2 := snd (whenAttribute (snd c) "trigger-after-swap"
                      (handleTriggerAttribute h) s1)) in *.
    destruct (W "trigger-after-settle" s2) as (d3 & T3 & F3).
    set (s3 := snd (whenAttribute (snd c) "trigger-after-settle"
                      (handleTriggerAttribute h) s2)) in *.
    destruct (footprint_trace (pipelineEffect c ctx false) (fromLocation c)
                (tryCatch (immediatePhase h c ctx) (reportError c)) s3)
      as (d4 & T4 & F4).
    { apply footprint_tryCatch.
      - apply footprint_immediatePhase.
      - intros e. apply footprint_reportError. }
    unfold tryCatch in T4.
    exists (d2 ++ d3 ++ d4). split.
    + rewrite T4, T3, T2. unfold s1, withEffects. cbn.
      now rewrite <- !app_assoc.
    + repeat (apply Forall_app; split); assumption.
Qed.

Lemma pipelineEffect_no_domWork (c : command) (ctx : live) (l : list effect) :
  Forall (pipelineEffect c ctx false) l ->
  Forall (fun x => domWork x = false) l.
Proof.
  intros F. eapply Forall_impl; [| exact F].
  intros x Px. inversion Px; subst; try reflexivity; discriminate.
Qed.

(** A swap that is neither delayed nor in a view transition, when
    neither its DOM work nor its settle tasks throw: the swap and the
    settle are done when its promise has been awaited. *)
Lemma swapAsync_prompt (h : Host) (t : live) (content : string)
      (spec : swapSpec) (select : option string) (ctx : live) (s : state) :
  (swapDelay spec <= 0)%Z ->
  match transition spec with
  | Some b => b
  | None => globalViewTransitions h
  end = false ->
  swapInDom h (trace s) t content spec select = None ->
  settleInDom h (trace s ++ [DomSwap t content spec select]) t = None ->
  exists p s',
    swapAsync h t content spec select ctx s = (Returned p, s') /\
    awaitSwap h p s'
    = (Returned tt,
       withEffects s [DomSwap t content spec select; DomSettle t]).
Proof.
  intros Delay Tr Dom Settle.
  assert (Z0 : Z.ltb 0 (swapDelay spec) = false) by (apply Z.ltb_ge; lia).
  unfold swapAsync. rewrite Tr. unfold bind at 1. cbn [ret]. rewrite Z0.
  cbn [orb]. unfold tryCatch, doSwap, bind at 1 2 3, ask. rewrite Dom.
  cbn [orThrow ret emit trace].
  destruct (Z.ltb 0 (settleDelay spec)).
  - do 2 eexists. split; [reflexivity |].
    unfold awaitSwap, inCallback, tryCatch, doSettle, bind, ask, emit.
    cbn [trace]. rewrite Settle. cbn. unfold withEffects.
    now rewrite <- app_assoc.
  - unfold doSettle, bind, ask, emit. cbn [trace]. rewrite Settle. cbn.
    do 2 eexists. split; [reflexivity |]. cbn. unfold withEffects.
    now rewrite <- app_assoc.
Qed.



(** ** The swap stage and what follows it *)

Section SwapStage.

Variable h : Host.
Variable c : command.
Variable ctx : live.

Let P := swapStageEffect c ctx.

#[local] Hint Constructors swapStageEffect : pipeline.

Lemma swapStage_triggerEvent Q (t : live) (n : string) (d : detail) :
  P (TriggerEvent t n d) -> footprint P Q (triggerEvent h t n d).
Proof. apply footprint_triggerEvent. Qed.

Lemma swapStage_doSwap Q t content spec select :
  footprint P Q (doSwap h t content spec select).
Proof. unfold doSwap, doSettle, P. footprint_auto. Qed.

Lemma swapStage_swapAsync Q t content spec select :
  footprint P Q (swapAsync h t content spec select ctx).
Proof.
  unfold swapAsync, triggerErrorEvent.
  footprint_auto;
    try (apply swapStage_triggerEvent; unfold P; auto with pipeline);
    try apply swapStage_doSwap; unfold P; footprint_auto.
Qed.

Lemma swapStage_awaitSwap Q (p : promise) :
  footprint P Q (awaitSwap h p).
Proof. unfold awaitSwap, inCallback, doSettle, P. footprint_auto. Qed.

Lemma swapStage_gatherSwapJobs Q :
  footprint P Q (gatherSwapJobs h c ctx).
Proof.
  unfold gatherSwapJobs, currentInnerHTML, triggerErrorEvent.
  footprint_auto; try apply footprint_find; unfold P; footprint_auto.
Qed.

Lemma swapStage_startSwapJobs Q jobs spec select :
  footprint P Q (startSwapJobs h jobs ctx spec select).
Proof.
  induction jobs as [| job rest IH]; cbn [startSwapJobs].
  - apply footprint_ret.
  - unfold triggerBeforeSwap.
    footprint_auto;
      try (apply swapStage_triggerEvent; unfold P; auto with pipeline);
      try apply swapStage_swapAsync; try exact IH; unfold P; footprint_auto.
Qed.

Lemma swapStage_beforeFirstAwait Q :
  footprint P Q (beforeFirstAwait h c ctx).
Proof.
  unfold beforeFirstAwait, validate.
  footprint_auto;
    try (apply swapStage_triggerEvent; unfold P; auto with pipeline);
    try apply swapStage_gatherSwapJobs; try apply swapStage_startSwapJobs;
    unfold P; footprint_auto.
Qed.

Lemma swapStage_reportError Q (e : error) : footprint P Q (reportError c e).
Proof. unfold reportError, triggerErrorEvent, P. footprint_auto. Qed.

Lemma swapStage_processUntilAwait Q :
  footprint P Q (processUntilAwait h c ctx).
Proof.
  unfold processUntilAwait.
  footprint_auto;
    try apply swapStage_beforeFirstAwait; try apply swapStage_reportError;
    unfold P; footprint_auto.
Qed.

Lemma swapStage_awaits Q (ps : list promise) :
  footprint P Q (forEach ps (awaitSwap h)).
Proof. apply footprint_forEach. intros p _. apply swapStage_awaitSwap. Qed.

(** The pipeline from its first [await] on: the promises are awaited,
    and then it goes on as without promises. *)
Lemma processFromAwait_awaits (ps : list promise) (s : state) :
  processFromAwait h c ctx ps s
  = match forEach ps (awaitSwap h) s with
    | (Returned _, s1) => processFromAwait h c ctx [] s1
    | (Thrown e, s1) => reportError c e s1
    | (Stalled, s1) => (Stalled, s1)
    end.
Proof.
  unfold processFromAwait, tryCatch, afterFirstAwait. cbn [forEach].
  unfold bind at 1.
  destruct (forEach ps (awaitSwap h) s) as [[[] | e |] s1]; reflexivity.
Qed.

(** The effects of a pipeline fall in two parts: those of the swap
    stage, then those that come with and after the after-swap
    notification. *)
Lemma pipeline_two_stages (s : state) :
  exists a t,
    trace (snd (processCommandFromElement h c ctx s)) = trace s ++ a ++ t /\
    Forall P a /\ Forall (pipelineEffect c ctx false) t.
Proof.
  rewrite processCommandFromElement_cut.
  destruct (footprint_trace P (fun _ => True) _ s
              (swapStage_processUntilAwait _)) as (a0 & T0 & F0).
  destruct (processUntilAwait h c ctx s) as [[[ps |] | e |] s'];
    cbn [snd] in *;
    try (exists a0, []; rewrite app_nil_r; repeat split; auto; fail).
  rewrite processFromAwait_awaits.
  destruct (footprint_trace P (fun _ => True) _ s' (swapStage_awaits _ ps))
    as (a1 & T1 & F1).
  destruct (forEach ps (awaitSwap h) s') as [[[] | e |] s1]; cbn [snd] in *.
  - destruct (processFromAwait_nil_trace h c ctx s1) as (_ & d & Td & Fd).
    exists (a0 ++ a1), (afterSwap c ctx :: d). split; [| split].
    + rewrite Td, T1, T0. now rewrite <- !app_assoc.
    + now apply Forall_app.
    + constructor; [constructor | assumption].
  - exists (a0 ++ a1), [serverCommandError c e]. split; [| split].
    + unfold reportError, triggerErrorEvent, emit. cbn.
      rewrite T1, T0. now rewrite <- !app_assoc.
    + now apply Forall_app.
    + repeat constructor.
  - exists (a0 ++ a1), []. split; [| split]; auto.
    + rewrite T1, T0. now rewrite app_nil_r, <- app_assoc.
    + now apply Forall_app.
Qed.

End SwapStage.

Lemma split_after_prefix {A} (a t d1 d2 : list A) (x : A) :
  ~ In x a -> a ++ t = d1 ++ x :: d2 -> exists pre, t = pre ++ x :: d2.
Proof.
  revert d1. induction a as [| y a IH]; intros d1 N E.
  - now exists d1.
  - destruct d1 as [| z d1]; cbn in E; injection E as -> E.
    + exfalso. apply N. now left.
    + apply (IH d1); [| assumption]. intros I. apply N. now right.
Qed.

(** X18. the after-swap notification of a marker comes after all the DOM
    work of its swap.  Whatever the marker and the page, once
    htmx:afterSwap has been fired for a command nothing is swapped or
    settled for it any more: the swap and the settle phase, delayed or
    not, are over before the notification, the timed triggers and the
    immediate actions. *)
Theorem dom_work_precedes_after_swap
        (h : Host) (c : command) (ctx : live) (s : state)
        (d1 d2 : list effect) :
  trace (snd (processCommandFromElement h c ctx s))
  = trace s ++ d1 ++ afterSwap c ctx :: d2 ->
  Forall (fun x => domWork x = false) d2.
Proof.
  intros E.
  destruct (pipeline_two_stages h c ctx s) as (a & t & T & Fa & Ft).
  rewrite T in E. apply app_inv_head in E.
  apply split_after_prefix in E.
  - destruct E as [pre ->]. apply Forall_app in Ft. destruct Ft as [_ Ft].
    inversion Ft; subst. now apply (pipelineEffect_no_domWork c ctx).
  - intros I. rewrite Forall_forall in Fa. apply Fa in I. inversion I.
Qed.

Lemma dom_work_precedes_after_swap_witness :
  Forall (fun x => domWork x = false)
    [ TriggerEvent DocumentBody "swapped" NoDetail;
      afterServerCommand ([0], Pages.swapInto) Demo.button ].
Proof.
  apply (dom_work_precedes_after_swap Demo.page ([0], Pages.swapInto)
           Demo.button Demo.fresh
           [ beforeServerCommand ([0], Pages.swapInto) Demo.button;
             TriggerEvent Demo.t1 "htmx:beforeSwap"
               (BeforeSwapDetail
                  (mkBeforeSwap Demo.button Demo.t1
                     (mkSwapSpec "innerHTML" 0 20 None) "x" true));
             DomSwap Demo.t1 "x" (mkSwapSpec "innerHTML" 0 20 None) None;
             DomSettle Demo.t1 ]).
  reflexivity.
Defined.

(** * Trigger values that are JSON but no object *)

Lemma payloadEffects_plain (h : Host) (l : list (string * json)) :
  Forall (fun kv => requestedTarget (snd kv) = None /\
                    takesElt (Payload (snd kv)) = true) l ->
  forall tr, payloadEffects h tr l = (plainEvents l, true).
Proof.
  induction 1 as [| [k d] r [R T] _ IH]; intros tr;
    cbn [payloadEffects plainEvents map]; [reflexivity |].
  cbn [fst snd] in *.
  unfold dispatchable, keyEffects, targetWarnings, dispatchTarget, stripTarget.
  cbn [fst snd]. rewrite R, T, IH. cbn [fst snd app].
  destruct d; try reflexivity. now rewrite R.
Qed.

Lemma indexed_app {A} (l1 l2 : list A) (i : nat) :
  indexed i (l1 ++ l2) = indexed i l1 ++ indexed (i + length l1) l2.
Proof.
  revert i. induction l1 as [| x l1 IH]; intros i; cbn [indexed app length].
  - now rewrite Nat.add_0_r.
  - rewrite IH. now rewrite Nat.add_succ_r.
Qed.

Lemma Forall_indexed {A} (P : A -> Prop) (l : list A) (i : nat) :
  Forall P l -> Forall (fun kv => P (snd kv)) (indexed i l).
Proof.
  intros F. revert i. induction F; intros i; cbn; constructor; auto.
Qed.

(** X19. a trigger value that parses as JSON but is no object.  A
    number, a boolean, [null], an empty array or an empty string fires
    no event at all.  An array is gone through by position: elements
    that are objects, arrays or [null] are fired as events named after
    their positions ("0", "1", ...); at the first element that is a
    number, a string or a boolean the loop is left and the raw text is
    read as a comma-separated list, so [trigger='["a","b"]'] fires the
    two events named ["a"] and ["b"] with their brackets and quotes.  A
    string that is not empty is read as such a list at once. *)
Theorem trigger_json_that_is_no_object (h : Host) (value : string) (s : state) :
  (forall j,
     JSON_parse h value = Some j ->
     match j with
     | JNull | JBool _ | JNumber _ | JString "" | JArray [] => True
     | _ => False
     end ->
     handleTriggerAttribute h value s = (Returned tt, s)) /\
  (forall items x rest,
     JSON_parse h value = Some (JArray (items ++ x :: rest)) ->
     Forall (fun y => requestedTarget y = None /\
                      takesElt (Payload y) = true) items ->
     takesElt (Payload x) = false ->
     handleTriggerAttribute h value s
     = (Returned tt,
        withEffects s (plainEvents (indexed 0 items) ++ bareEvents value))) /\
  (forall items,
     JSON_parse h value = Some (JArray items) ->
     Forall (fun y => requestedTarget y = None /\
                      takesElt (Payload y) = true) items ->
     handleTriggerAttribute h value s
     = (Returned tt, withEffects s (plainEvents (indexed 0 items)))) /\
  (forall c r,
     JSON_parse h value = Some (JString (String c r)) ->
     handleTriggerAttribute h value s
     = (Returned tt, withEffects s (bareEvents value))).
Proof.
  split; [| split; [| split]].
  - intros j Pj Hj. rewrite handleTriggerAttribute_run. unfold dispatched.
    rewrite Pj.
    destruct j as [| b | n | [| c r] | [| x items] | m]; try contradiction;
      cbn; now rewrite withEffects_nil.
  - intros items x rest Pj F T. rewrite handleTriggerAttribute_run.
    unfold dispatched. rewrite Pj. cbn [forIn]. rewrite indexed_app.
    cbn [indexed].
    rewrite (payloadEffects_upto h (indexed 0 items) _ _ x (trace s)).
    + now rewrite (payloadEffects_plain h _ (Forall_indexed _ _ 0 F)).
    + now rewrite (payloadEffects_plain h _ (Forall_indexed _ _ 0 F)).
    + exact T.
  - intros items Pj F. rewrite handleTriggerAttribute_run.
    unfold dispatched. rewrite Pj. cbn [forIn].
    now rewrite (payloadEffects_plain h _ (Forall_indexed _ _ 0 F)).
  - intros c r Pj. rewrite handleTriggerAttribute_run.
    unfold dispatched. rewrite Pj. reflexivity.
Qed.

Lemma trigger_json_that_is_no_object_witness :
  handleTriggerAttribute Pages.parsing "5" Demo.fresh
  = (Returned tt, Demo.fresh) /\
  handleTriggerAttribute Pages.parsing Pages.names Demo.fresh
  = (Returned tt,
     withEffects Demo.fresh
       [ TriggerEvent DocumentBody ("[" ++ Demo.q "a") NoDetail;
         TriggerEvent DocumentBody (Demo.q "b" ++ "]") NoDetail ]).
Proof.
  destruct (trigger_json_that_is_no_object Pages.parsing "5" Demo.fresh)
    as (Scalar & _).
  destruct (trigger_json_that_is_no_object Pages.parsing Pages.names
              Demo.fresh) as (_ & Upto & _).
  split.
  - apply (Scalar (JNumber 5)); [reflexivity | exact I].
  - rewrite (Upto [] (JString "a") [JString "b"]);
      [reflexivity | reflexivity | constructor | reflexivity].
Defined.

(** * A settle task that throws *)



(** * The superseded variant *)

Lemma unknownAttributes_nil (el : node) :
  unknownAttributes el = [] ->
  forall kv, In kv (attributesOf el) -> isValidAttribute (fst kv) = true.
Proof.
  unfold unknownAttributes. intros E kv I.
  destruct (isValidAttribute (fst kv)) eqn:V; [reflexivity |].
  assert (X : In kv (filter (fun kv => negb (isValidAttribute (fst kv)))
                            (attributesOf el))).
  { apply filter_In. split; [assumption |]. now rewrite V. }
  destruct (filter _ (attributesOf el)); [contradiction | discriminate].
Qed.

Lemma apiHasAttribute_validated (el : node) (name : string) :
  unknownAttributes el = [] ->
  isValidAttribute ("data-" ++ name) = false ->
  Legacy.apiHasAttribute el name = hasAttribute el name.
Proof.
  intros U D. unfold Legacy.apiHasAttribute, hasAttribute at 2, getAttribute.
  rewrite (lookupAttr_invalid _ _ D (unknownAttributes_nil el U)).
  apply orb_false_r.
Qed.

(** X20. the two copies of the validation accept the same markers.  The
    superseded [validateCommandElement] looks for [swap], [select] and
    [target] under their [data-] spelling too, but a [data-] attribute
    is not an enumerated one and is rejected by both: a marker passes
    one validation exactly when it passes the other, and the two give
    the same result on every marker without [data-swap], [data-select]
    and [data-target]. *)
Theorem legacy_validation_accepts_the_same (el : node) :
  (Legacy.validateCommandElement el = None <-> validateCommandElement el = None)
  /\ (hasAttribute el "data-swap" || hasAttribute el "data-select"
      || hasAttribute el "data-target" = false ->
      Legacy.validateCommandElement el = validateCommandElement el).
Proof.
  assert (Same : unknownAttributes el = [] ->
                 Legacy.invalidCombination el = invalidCombination el).
  { intros U. unfold Legacy.invalidCombination, invalidCombination.
    now rewrite !(apiHasAttribute_validated el _ U). }
  split.
  - unfold Legacy.validateCommandElement, validateCommandElement.
    destruct (negb _); [split; discriminate |].
    destruct (unknownAttributes el) as [| v r] eqn:U.
    + now rewrite Same.
    + cbn. split; discriminate.
  - intros H. apply orb_false_iff in H. destruct H as [H T].
    apply orb_false_iff in H. destruct H as [Sw Se].
    unfold Legacy.validateCommandElement, validateCommandElement,
      Legacy.invalidCombination, invalidCombination, Legacy.apiHasAttribute.
    cbn [append]. now rewrite Sw, Se, T, !orb_false_r.
Qed.

(** * The swap procedures *)

Section SwapProcedures.

Variable handleAttributes : nat -> list Swap.dnode -> Swap.lookup.
Variable defaultSwapStyle : string.

Lemma moveNodes_into (p : nat) (fragment : list Swap.dnode) :
  forall inserted w,
    Swap.moveNodes (Some p) fragment inserted w
    = (inserted ++ fragment,
       Swap.Returns
         (Swap.mkWorld (Swap.parentElt w) (Swap.previousSiblings w)
            (Swap.target w) (Swap.removed w) (Swap.nextSiblings w)
            (Swap.elts w)
            (Swap.tasks w ++ Swap.loadTasks fragment)
            (Swap.log w ++ Swap.classCalls fragment))).
Proof.
  unfold Swap.loadTasks, Swap.classCalls.
  induction fragment as [| child rest IH]; intros inserted w.
  - cbn. rewrite !app_nil_r. now destruct w.
  - cbn [Swap.moveNodes]. rewrite IH. cbn [filter].
    rewrite <- app_assoc. cbn [app]. f_equal. f_equal.
    destruct (Swap.isElement child), (Swap.notTextOrComment child); cbn;
      rewrite <- ?app_assoc; reflexivity.
Qed.

Lemma insertNodesBefore_into (p : nat) (fragment : list Swap.dnode)
      (found : list nat) (w : Swap.world) :
  handleAttributes p fragment = Swap.Found found ->
  Swap.insertNodesBefore handleAttributes (Some p) fragment w
  = (fragment,
     Swap.Returns
       (Swap.mkWorld (Swap.parentElt w) (Swap.previousSiblings w)
          (Swap.target w) (Swap.removed w) (Swap.nextSiblings w)
          (Swap.elts w)
          (Swap.tasks w ++ map Swap.RestoreAttributes found
           ++ Swap.loadTasks fragment)
          (Swap.log w ++ Swap.classCalls fragment))).
Proof.
  intros H. unfold Swap.insertNodesBefore. rewrite H, moveNodes_into. cbn.
  now rewrite <- app_assoc.
Qed.

(** X21. [swapInnerHTML] replaces the content of the target by the
    fragment.  When the attribute lookup returns, the child nodes of the
    target are afterwards exactly the nodes of the fragment, in their
    order; every node that was in the target has been cleaned up, the
    first one last; the target is among the elements to settle, once
    more only if it was not there; and nothing changes around the
    target. *)
Theorem swapInnerHTML_replaces_content
        (fragment : list Swap.dnode) (found : list nat) (w : Swap.world) :
  handleAttributes (Swap.idOf (Swap.target w)) fragment = Swap.Found found ->
  exists w',
    Swap.swapInnerHTML handleAttributes fragment w = Swap.Returns w' /\
    Swap.childNodesOf (Swap.target w') = fragment /\
    Swap.idOf (Swap.target w') = Swap.idOf (Swap.target w) /\
    Swap.log w'
    = Swap.log w ++ Swap.classCalls fragment
      ++ flat_map Swap.cleanUpElement (tl (Swap.childNodesOf (Swap.target w)))
      ++ flat_map Swap.cleanUpElement
           (firstn 1 (Swap.childNodesOf (Swap.target w))) /\
    Swap.elts w'
    = (if existsb (Nat.eqb (Swap.idOf (Swap.target w))) (Swap.elts w)
       then Swap.elts w
       else Swap.elts w ++ [Swap.idOf (Swap.target w)]) /\
    Swap.tasks w'
    = Swap.tasks w ++ map Swap.RestoreAttributes found
      ++ Swap.loadTasks fragment /\
    Swap.previousSiblings w' = Swap.previousSiblings w /\
    Swap.nextSiblings w' = Swap.nextSiblings w /\
    Swap.removed w' = Swap.removed w.
Proof.
  intros H. unfold Swap.swapInnerHTML, Swap.self.
  rewrite (insertNodesBefore_into _ _ found _ H).
  destruct (Swap.childNodesOf (Swap.target w)) as [| firstChild siblings];
    cbn [tl firstn flat_map app];
    unfold Swap.withChildNodes, Swap.withLog, Swap.withElts;
    cbn [Swap.elts Swap.target Swap.log Swap.tasks Swap.previousSiblings
         Swap.nextSiblings Swap.removed Swap.parentElt Swap.idOf
         Swap.kindOf];
    destruct (existsb (Nat.eqb (Swap.idOf (Swap.target w))) (Swap.elts w));
    eexists; (split; [reflexivity |]); cbn;
    rewrite ?app_nil_r, <- ?app_assoc; repeat split; reflexivity.
Qed.

(** X22. [swapOuterHTML] puts the fragment in the place of the target.
    For a target other than the body that has a parent element, when
    the attribute lookup returns: the target is cleaned up and taken
    out, the nodes of the fragment stand where it stood, between its
    former siblings, and the elements to settle are the former ones
    without the target, followed by the elements of the fragment.
    Without a parent element the procedure returns at once: nothing is
    inserted, removed, cleaned up or reported. *)
Theorem swapOuterHTML_replaces_target
        (fragment : list Swap.dnode) (w : Swap.world) :
  Swap.kindOf (Swap.target w) <> Swap.ElementNode "BODY" ->
  match Swap.parentElt w with
  | None => Swap.swapOuterHTML handleAttributes fragment w = Swap.Returns w
  | Some p =>
      forall found,
        handleAttributes p fragment = Swap.Found found ->
        Swap.removed w = false ->
        exists w',
          Swap.swapOuterHTML handleAttributes fragment w = Swap.Returns w' /\
          Swap.siblingsAndSelf w'
          = Swap.previousSiblings w ++ fragment ++ Swap.nextSiblings w /\
          Swap.removed w' = true /\
          Swap.elts w'
          = filter (fun e => negb (Nat.eqb e (Swap.idOf (Swap.target w))))
                   (Swap.elts w)
            ++ map Swap.idOf (filter Swap.isElement fragment) /\
          Swap.log w'
          = Swap.log w ++ Swap.classCalls fragment
            ++ Swap.cleanUpElement (Swap.target w) /\
          Swap.tasks w'
          = Swap.tasks w ++ map Swap.RestoreAttributes found
            ++ Swap.loadTasks fragment
  end.
Proof.
  intros NB.
  assert (E : Swap.swapOuterHTML handleAttributes fragment w
              = match Swap.parentElt w with
                | None => Swap.Returns w
                | Some parentNode =>
                    match Swap.insertNodesBefore handleAttributes
                            (Some parentNode) fragment w with
                    | (_, Swap.Throws w') => Swap.Throws w'
                    | (inserted, Swap.Returns w1) =>
                        Swap.Returns
                          (Swap.mkWorld (Swap.parentElt w1)
                             (Swap.previousSiblings w1 ++ inserted)
                             (Swap.target w1) true (Swap.nextSiblings w1)
                             (filter
                                (fun e =>
                                   negb (Nat.eqb e
                                           (Swap.idOf (Swap.target w))))
                                (Swap.elts w1)
                              ++ map Swap.idOf
                                   (filter Swap.isElement inserted))
                             (Swap.tasks w1)
                             (Swap.log w1
                              ++ Swap.cleanUpElement (Swap.target w1)))
                    end
                end).
  { unfold Swap.swapOuterHTML.
    destruct (Swap.kindOf (Swap.target w)) as [tag | | |]; try reflexivity.
    destruct (String.eqb_spec tag "BODY") as [-> | D]; [now elim NB |].
    repeat (destruct tag as [| [[] [] [] [] [] [] [] []] tag];
            try reflexivity);
      now elim D. }
  rewrite E. destruct (Swap.parentElt w) as [p |]; [| reflexivity].
  intros found H R. rewrite (insertNodesBefore_into _ _ found _ H).
  eexists. split; [reflexivity |].
  unfold Swap.siblingsAndSelf. cbn. rewrite <- app_assoc, <- app_assoc.
  repeat split; reflexivity.
Qed.

(** X23. the four insertion styles add the fragment and keep everything
    that was there.  With a parent element and an attribute lookup that
    returns, [afterbegin] puts the nodes of the fragment before the
    child nodes of the target, [beforeend] after them, [beforebegin]
    just before the target and [afterend] just after it, in the order of
    the fragment; nothing is cleaned up or removed and the elements to
    settle stay as they are. *)
Theorem insertion_styles_keep_the_content
        (fragment : list Swap.dnode) (w : Swap.world) (p : nat) :
  Swap.parentElt w = Some p ->
  (forall q found, handleAttributes q fragment <> Swap.Failed found) ->
  let old := Swap.childNodesOf (Swap.target w) in
  let kept (w' : Swap.world) :=
    Swap.elts w' = Swap.elts w /\ Swap.removed w' = Swap.removed w /\
    Swap.log w' = Swap.log w ++ Swap.classCalls fragment in
  (exists w', Swap.swapAfterBegin handleAttributes fragment w = Swap.Returns w'
              /\ Swap.childNodesOf (Swap.target w') = fragment ++ old
              /\ Swap.previousSiblings w' = Swap.previousSiblings w
              /\ Swap.nextSiblings w' = Swap.nextSiblings w /\ kept w') /\
  (exists w', Swap.swapBeforeEnd handleAttributes fragment w = Swap.Returns w'
              /\ Swap.childNodesOf (Swap.target w') = old ++ fragment
              /\ Swap.previousSiblings w' = Swap.previousSiblings w
              /\ Swap.nextSiblings w' = Swap.nextSiblings w /\ kept w') /\
  (exists w', Swap.swapBeforeBegin handleAttributes fragment w = Swap.Returns w'
              /\ Swap.childNodesOf (Swap.target w') = old
              /\ Swap.previousSiblings w' = Swap.previousSiblings w ++ fragment
              /\ Swap.nextSiblings w' = Swap.nextSiblings w /\ kept w') /\
  (exists w', Swap.swapAfterEnd handleAttributes fragment w = Swap.Returns w'
              /\ Swap.childNodesOf (Swap.target w') = old
              /\ Swap.previousSiblings w' = Swap.previousSiblings w
              /\ Swap.nextSiblings w' = fragment ++ Swap.nextSiblings w
              /\ kept w').
Proof.
  intros P H old kept.
  assert (I : forall q, exists found,
               Swap.insertNodesBefore handleAttributes (Some q) fragment w
               = (fragment,
                  Swap.Returns
                    (Swap.mkWorld (Swap.parentElt w) (Swap.previousSiblings w)
                       (Swap.target w) (Swap.removed w) (Swap.nextSiblings w)
                       (Swap.elts w)
                       (Swap.tasks w ++ map Swap.RestoreAttributes found
                        ++ Swap.loadTasks fragment)
                       (Swap.log w ++ Swap.classCalls fragment)))).
  { intros q. destruct (handleAttributes q fragment) as [found | found] eqn:E;
      [| now elim (H q found)].
    exists found. now apply insertNodesBefore_into. }
  destruct (I (Swap.idOf (Swap.target w))) as [f1 I1].
  destruct (I p) as [f2 I2].
  unfold Swap.swapAfterBegin, Swap.swapBeforeEnd, Swap.swapBeforeBegin,
    Swap.swapAfterEnd, Swap.self, kept.
  rewrite P, I1, I2.
  repeat split; eexists; (split; [reflexivity |]); cbn; repeat split;
    reflexivity.
Qed.

Lemma swapWithStyle_known (swapStyle : string) (room room' : nat)
      (fragment : list Swap.dnode) (w : Swap.world) :
  Swap.isKnownStyle swapStyle = true ->
  Swap.swapWithStyle handleAttributes defaultSwapStyle room swapStyle
    fragment w
  = Swap.swapWithStyle handleAttributes defaultSwapStyle room' swapStyle
      fragment w.
Proof.
  unfold Swap.isKnownStyle, Swap.knownStyles. cbn [existsb].
  destruct room, room'; cbn [Swap.swapWithStyle];
    repeat match goal with
           | |- context [String.eqb swapStyle ?x] =>
               destruct (String.eqb swapStyle x); [reflexivity |]
           end;
    discriminate.
Qed.

Lemma swapWithStyle_unknown (swapStyle : string) (room : nat)
      (fragment : list Swap.dnode) (w : Swap.world) :
  Swap.isKnownStyle swapStyle = false ->
  Swap.swapWithStyle handleAttributes defaultSwapStyle room swapStyle
    fragment w
  = match room with
    | O => Swap.Throws w
    | S room' =>
        Swap.swapWithStyle handleAttributes defaultSwapStyle room'
          defaultSwapStyle fragment w
    end.
Proof.
  unfold Swap.isKnownStyle, Swap.knownStyles. cbn [existsb].
  destruct room; cbn [Swap.swapWithStyle];
    repeat match goal with
           | |- context [String.eqb swapStyle ?x] =>
               destruct (String.eqb swapStyle x); [discriminate |]
           end;
    reflexivity.
Qed.

(** X24. [swapWithStyle] selects the procedure by the name of the style,
    and a name it does not know stands for the default style: as long
    as the call stack has room for one more call, an unknown style does
    what [htmx.config.defaultSwapStyle] does when that one is known, so
    the procedure of [innerHTML] with htmx's own default.  When the
    default style is not known either, the function goes on calling
    itself until the call stack is exhausted, whatever its size: the
    call ends with the engine's [RangeError], thrown before anything
    has been done to the document. *)
Theorem swapWithStyle_falls_back_to_default
        (swapStyle : string) (fragment : list Swap.dnode) (w : Swap.world) :
  Swap.isKnownStyle swapStyle = false ->
  (Swap.isKnownStyle defaultSwapStyle = true ->
   forall room,
     Swap.swapWithStyle handleAttributes defaultSwapStyle (S room)
       swapStyle fragment w
     = Swap.swapWithStyle handleAttributes defaultSwapStyle 0
         defaultSwapStyle fragment w /\
     (defaultSwapStyle = "innerHTML" ->
      Swap.swapWithStyle handleAttributes defaultSwapStyle (S room)
        swapStyle fragment w
      = Swap.swapInnerHTML handleAttributes fragment w)) /\
  (Swap.isKnownStyle defaultSwapStyle = false ->
   forall room,
     Swap.swapWithStyle handleAttributes defaultSwapStyle room swapStyle
       fragment w = Swap.Throws w).
Proof.
  intros U. split.
  - intros K room. rewrite swapWithStyle_unknown by assumption.
    rewrite (swapWithStyle_known defaultSwapStyle room 0 fragment w K).
    split; [reflexivity |]. intros D.
    destruct room; cbn [Swap.swapWithStyle]; now rewrite D.
  - intros K room. revert U. generalize swapStyle.
    induction room as [| room IH]; intros st U;
      rewrite swapWithStyle_unknown by assumption; [reflexivity |].
    now apply IH.
Qed.

(** X25. beside a target without a parent element nothing can be
    inserted.  [beforebegin] and [afterend] with a fragment that is not
    empty throw at the first node, since [parentElt(target)] is [null]:
    no node is moved and no task is added, only the first node has got
    the added class if it is an element. *)
Theorem insertion_beside_detached_target_throws
        (child : Swap.dnode) (rest : list Swap.dnode) (w : Swap.world) :
  Swap.parentElt w = None ->
  exists w',
    Swap.swapBeforeBegin handleAttributes (child :: rest) w = Swap.Throws w' /\
    Swap.swapAfterEnd handleAttributes (child :: rest) w = Swap.Throws w' /\
    Swap.siblingsAndSelf w' = Swap.siblingsAndSelf w /\
    Swap.target w' = Swap.target w /\
    Swap.elts w' = Swap.elts w /\
    Swap.tasks w' = Swap.tasks w /\
    Swap.log w' = Swap.log w ++ Swap.classCalls [child].
Proof.
  intros P.
  unfold Swap.swapBeforeBegin, Swap.swapAfterEnd, Swap.insertNodesBefore.
  rewrite P. cbn [Swap.moveNodes].
  eexists. split; [reflexivity |]. split; [reflexivity |].
  unfold Swap.siblingsAndSelf, Swap.classCalls. cbn [filter map].
  destruct (Swap.isElement child); cbn; rewrite ?app_nil_r;
    repeat split; reflexivity.
Qed.

End SwapProcedures.

Lemma swapInnerHTML_replaces_content_witness :
  exists w',
    Swap.swapInnerHTML Swap.Demo.nothingFound Swap.Demo.content
      Swap.Demo.start = Swap.Returns w' /\
    Swap.childNodesOf (Swap.target w') = Swap.Demo.content /\
    Swap.log w'
    = [ Swap.AddClass 21; Swap.CleanUp 13; Swap.CleanUp 14; Swap.CleanUp 11 ].
Proof.
  destruct (swapInnerHTML_replaces_content Swap.Demo.nothingFound
              Swap.Demo.content [] Swap.Demo.start)
    as (w' & E & C & _ & L & _); [reflexivity |].
  exists w'. repeat split; assumption.
Defined.

Lemma swapOuterHTML_replaces_target_witness :
  Swap.swapOuterHTML Swap.Demo.nothingFound Swap.Demo.content Swap.Demo.orphan
  = Swap.Returns Swap.Demo.orphan /\
  exists w',
    Swap.swapOuterHTML Swap.Demo.nothingFound Swap.Demo.content
      Swap.Demo.start = Swap.Returns w' /\
    Swap.siblingsAndSelf w'
    = [Swap.Demo.heading; Swap.Demo.newItem; Swap.Demo.newText;
       Swap.Demo.footer] /\
    Swap.elts w' = [21].
Proof.
  split.
  - apply (swapOuterHTML_replaces_target Swap.Demo.nothingFound
             Swap.Demo.content Swap.Demo.orphan).
    discriminate.
  - destruct (swapOuterHTML_replaces_target Swap.Demo.nothingFound
                Swap.Demo.content Swap.Demo.start ltac:(discriminate) []
                eq_refl eq_refl)
      as (w' & E & S & _ & L & _).
    exists w'. repeat split; assumption.
Defined.

Lemma insertion_styles_keep_the_content_witness :
  exists w',
    Swap.swapBeforeEnd Swap.Demo.nothingFound Swap.Demo.content
      Swap.Demo.start = Swap.Returns w' /\
    Swap.childNodesOf (Swap.target w')
    = [Swap.Demo.item1; Swap.Demo.gap; Swap.Demo.item2;
       Swap.Demo.newItem; Swap.Demo.newText].
Proof.
  destruct (insertion_styles_keep_the_content Swap.Demo.nothingFound
              Swap.Demo.content Swap.Demo.start 1)
    as (_ & (w' & E & C & _) & _).
  - reflexivity.
  - discriminate.
  - exists w'. split; assumption.
Defined.

Lemma swapWithStyle_falls_back_to_default_witness :
  Swap.swapWithStyle Swap.Demo.nothingFound "innerHTML" 1 "morph"
    Swap.Demo.content Swap.Demo.start
  = Swap.swapInnerHTML Swap.Demo.nothingFound Swap.Demo.content
      Swap.Demo.start /\
  Swap.swapWithStyle Swap.Demo.nothingFound "morph" 1000 "idiomorph"
    Swap.Demo.content Swap.Demo.start = Swap.Throws Swap.Demo.start.
Proof.
  split.
  - apply (swapWithStyle_falls_back_to_default Swap.Demo.nothingFound
             "innerHTML" "morph"); reflexivity.
  - apply (swapWithStyle_falls_back_to_default Swap.Demo.nothingFound
             "morph" "idiomorph"); reflexivity.
Defined.

Lemma insertion_beside_detached_target_throws_witness :
  exists w',
    Swap.swapBeforeBegin Swap.Demo.nothingFound Swap.Demo.content
      Swap.Demo.orphan = Swap.Throws w' /\
    Swap.siblingsAndSelf w' = [Swap.Demo.menu] /\
    Swap.log w' = [Swap.AddClass 21].
Proof.
  destruct (insertion_beside_detached_target_throws Swap.Demo.nothingFound
              Swap.Demo.newItem [Swap.Demo.newText] Swap.Demo.orphan
              eq_refl)
    as (w' & E & _ & S & _ & _ & _ & L).
  exists w'. repeat split; assumption.
Defined.
